(** * Blocking-size benchmark harness (bench/benchmark-blocking-sizes.cpp)

    A shallow embedding of the measurement control loop of Eigen's
    blocking-size benchmark: the compact size-triple codec, the adaptive
    timer of [benchmark_t::run], the clock-speed probe, the drift-aware
    scheduler and the final sort-and-deduplicate reduction.

    Conventions.
    - C++ integers are [Z] with their width written out where a conversion
      happens ([uint8], [uint16], [uint32]); [size_t] is taken to be 64 bits
      wide and [int] 32 bits wide.
    - [float] and [double] quantities (times, throughputs, clock speeds) are
      exact rationals [Q], and no value is a NaN or an infinity.  The
      definitions of the program compute without rounding; the conversion
      to [float] is [to_float], and the two computations whose rounding
      decides what is claimed of them are given with it as well: the
      duration the timer tests ([float_timing]) and the arithmetic of the
      clock-speed estimate ([clock_estimate_float]).
    - The process environment (CPU clock, wall clock, shuffling) is an
      explicit record of oracles [Env]; the mutable process state is the
      record [World], threaded through a small outcome monad. *)

From Stdlib Require Import ZArith QArith Qround Qpower List Bool Lia Lqa.
From Stdlib Require Import Permutation Sorted.
From Stdlib Require Strings.String Strings.Ascii.
Import ListNotations.
Local Open Scope Z_scope.

(* ================================================================== *)
(** * Part I: the program *)
(* ================================================================== *)

(** ** Fixed-width integers *)

Definition uint8 (z : Z) : Z := z mod 2 ^ 8.
Definition uint16 (z : Z) : Z := z mod 2 ^ 16.
Definition uint32 (z : Z) : Z := z mod 2 ^ 32.
Definition SIZE_MAX : Z := 2 ^ 64 - 1.
Definition INT_MAX : Z := 2 ^ 31 - 1.

(** ** Size triples and their compact form *)

Record size_triple_t : Type :=
  mk_size_triple { k : Z; m : Z; n : Z }.

(** [size_triple_t(uint16_t compact)] *)
Definition size_triple_of_compact (compact : Z) : size_triple_t :=
  {| k := Z.shiftl 1 (Z.shiftr (Z.land compact 0xf00) 8);
     m := Z.shiftl 1 (Z.shiftr (Z.land compact 0x0f0) 4);
     n := Z.shiftl 1 (Z.shiftr (Z.land compact 0x00f) 0) |}.

(** The loop [while (x >>= 1) l++;] of [log2_pot].  [None] means that the
    given number of iterations was not enough to leave the loop. *)
Fixpoint log2_pot_loop (fuel : nat) (x l : Z) : option Z :=
  match fuel with
  | O => None
  | S fuel' =>
      let x' := Z.shiftr x 1 in
      if x' =? 0 then Some l else log2_pot_loop fuel' x' (l + 1)
  end.

(** [uint8_t log2_pot(size_t x)]: a 64-bit [x] leaves the loop within 64
    iterations (lemma [log2_pot_loop_spec]), and the count is converted to
    [uint8_t] on return. *)
Definition log2_pot (x : Z) : Z :=
  match log2_pot_loop 64 x 0 with
  | Some l => uint8 l
  | None => 0
  end.

(** [uint16_t compact_size_triple(size_t k, size_t m, size_t n)] *)
Definition compact_size_triple (k m n : Z) : Z :=
  uint16 (Z.lor (Z.lor (Z.shiftl (log2_pot k) 8) (Z.shiftl (log2_pot m) 4))
                (log2_pot n)).

Definition compact_size_triple_t (t : size_triple_t) : Z :=
  compact_size_triple (k t) (m t) (n t).

(** ** Trials *)

(** [operator<] and [operator>] on floats. *)
Definition Qlt_bool (x y : Q) : bool := negb (Qle_bool y x).

Definition g_min_accurate_time : Q := 1 # 100.

Record benchmark_t : Type := mk_benchmark {
  compact_product_size : Z;
  compact_block_size : Z;
  use_default_block_size : bool;
  gflops : Q;
  min_working_set_size : Z;
  min_accurate_time : Q
}.

(** The two constructors; [g_min_working_set_size] is the global set from
    the command line, read at construction time. *)
Definition benchmark_t6 (g_min_working_set_size : Z)
    (pk pm pn bk bm bn : Z) : benchmark_t :=
  {| compact_product_size := compact_size_triple pk pm pn;
     compact_block_size := compact_size_triple bk bm bn;
     use_default_block_size := false;
     gflops := 0;
     min_working_set_size := g_min_working_set_size;
     min_accurate_time := g_min_accurate_time |}.

Definition benchmark_t3 (g_min_working_set_size : Z)
    (pk pm pn : Z) : benchmark_t :=
  {| compact_product_size := compact_size_triple pk pm pn;
     compact_block_size := 0;
     use_default_block_size := true;
     gflops := 0;
     min_working_set_size := g_min_working_set_size;
     min_accurate_time := g_min_accurate_time |}.

Definition set_gflops (b : benchmark_t) (g : Q) : benchmark_t :=
  {| compact_product_size := compact_product_size b;
     compact_block_size := compact_block_size b;
     use_default_block_size := use_default_block_size b;
     gflops := g;
     min_working_set_size := min_working_set_size b;
     min_accurate_time := min_accurate_time b |}.

Definition set_min_working_set_size (b : benchmark_t) (s : Z) : benchmark_t :=
  {| compact_product_size := compact_product_size b;
     compact_block_size := compact_block_size b;
     use_default_block_size := use_default_block_size b;
     gflops := gflops b;
     min_working_set_size := s;
     min_accurate_time := min_accurate_time b |}.

Definition set_min_accurate_time (b : benchmark_t) (t : Q) : benchmark_t :=
  {| compact_product_size := compact_product_size b;
     compact_block_size := compact_block_size b;
     use_default_block_size := use_default_block_size b;
     gflops := gflops b;
     min_working_set_size := min_working_set_size b;
     min_accurate_time := t |}.

(** [bool operator<(const benchmark_t& b1, const benchmark_t& b2)] *)
Definition benchmark_lt (b1 b2 : benchmark_t) : bool :=
  (compact_product_size b1 <? compact_product_size b2) ||
  ((compact_product_size b1 =? compact_product_size b2) &&
   ((compact_block_size b1 <? compact_block_size b2) ||
    ((compact_block_size b1 =? compact_block_size b2) &&
     Qlt_bool (gflops b2) (gflops b1)))).

(** ** Process state, environment and the outcome monad *)

(** What the process does that can be seen from outside: a call of
    [benchmark_t::run] on a trial, and a call of [sleep]. *)
Inductive event : Type :=
| EvRun (b : benchmark_t)
| EvSleep (seconds : Z).

(** Mutable process state.  [events] is the history of the process, most
    recent first; [time_reads] counts the calls of [timer.getRealTime()]. *)
Record World : Type := mk_world {
  g_min_working_set_size : Z;
  eigen_use_specific_block_size : bool;
  eigen_block_size_k : Z;
  eigen_block_size_m : Z;
  eigen_block_size_n : Z;
  events : list event;
  time_reads : nat
}.

Definition is_run (ev : event) : bool :=
  match ev with EvRun _ => true | EvSleep _ => false end.

(** Number of calls of [benchmark_t::run] so far. *)
Definition run_count (w : World) : nat := length (filter is_run (events w)).

(** What the program observes of its surroundings.
    [batch_cpu_time i iters] is the CPU time ([endtime - starttime]) that
    the batch of [iters] kernel invocations takes during the [i]-th call of
    [benchmark_t::run]; [real_time j] is the value of the [j]-th call of
    [timer.getRealTime()]; [random_shuffle] is the permutation applied by
    [std::random_shuffle]. *)
Record Env : Type := mk_env {
  batch_cpu_time : nat -> Z -> Q;
  real_time : nat -> Q;
  random_shuffle : list benchmark_t -> list benchmark_t
}.

(** A computation either returns a value in a new state, leaves the process
    through [exit(status)], has undefined behaviour, or (in the model only)
    runs out of loop fuel. *)
Inductive outcome (A : Type) : Type :=
| Ret (a : A) (w : World)
| Exit (status : Z) (w : World)
| Undefined
| OutOfFuel.
Arguments Ret {A} a w.
Arguments Exit {A} status w.
Arguments Undefined {A}.
Arguments OutOfFuel {A}.

Definition M (A : Type) : Type := World -> outcome A.

Definition ret {A : Type} (a : A) : M A := fun w => Ret a w.

Definition bind {A B : Type} (c : M A) (f : A -> M B) : M B :=
  fun w =>
    match c w with
    | Ret a w' => f a w'
    | Exit s w' => Exit s w'
    | Undefined => Undefined
    | OutOfFuel => OutOfFuel
    end.

Notation "x <- c ;; f" := (bind c (fun x => f))
  (at level 61, c at next level, right associativity).
Notation "c ;;; f" := (bind c (fun _ => f))
  (at level 61, right associativity).

Definition exit {A : Type} (status : Z) : M A := fun w => Exit status w.

Definition sleep (seconds : Z) : M unit := fun w =>
  Ret tt {| g_min_working_set_size := g_min_working_set_size w;
            eigen_use_specific_block_size := eigen_use_specific_block_size w;
            eigen_block_size_k := eigen_block_size_k w;
            eigen_block_size_m := eigen_block_size_m w;
            eigen_block_size_n := eigen_block_size_n w;
            events := EvSleep seconds :: events w;
            time_reads := time_reads w |}.

Definition getRealTime (e : Env) : M Q := fun w =>
  Ret (real_time e (time_reads w))
      {| g_min_working_set_size := g_min_working_set_size w;
         eigen_use_specific_block_size := eigen_use_specific_block_size w;
         eigen_block_size_k := eigen_block_size_k w;
         eigen_block_size_m := eigen_block_size_m w;
         eigen_block_size_n := eigen_block_size_n w;
         events := events w;
         time_reads := S (time_reads w) |}.

(** ** The adaptive timer: [benchmark_t::run] *)

Definition sizeof_Scalar : Z := 4.

Definition size_t (z : Z) : Z := z mod 2 ^ 64.

Definition combined_three_matrices_sizes (productsizes : size_triple_t) : Z :=
  size_t (sizeof_Scalar *
          (k productsizes * m productsizes +
           k productsizes * n productsizes +
           m productsizes * n productsizes)).

Definition unlikely_large_cache_size : Z := Z.shiftl 64 20.

Definition working_set_size (b : benchmark_t) : Z :=
  if min_working_set_size b =? 0
  then unlikely_large_cache_size
  else min_working_set_size b.

Definition matrix_pool_size (b : benchmark_t) : Z :=
  size_t (1 + working_set_size b /
              combined_three_matrices_sizes
                (size_triple_of_compact (compact_product_size b))).

(** Bytes held by a [rows] x [cols] matrix of [Scalar]. *)
Definition matrix_bytes (rows cols : Z) : Z := sizeof_Scalar * rows * cols.

(** Bytes held by the pool: [matrix_pool_size] instances each of
    [lhs] (m x k), [rhs] (k x n) and [dst] (m x n). *)
Definition pool_footprint (b : benchmark_t) : Z :=
  let productsizes := size_triple_of_compact (compact_product_size b) in
  matrix_pool_size b *
  (matrix_bytes (m productsizes) (k productsizes) +
   matrix_bytes (k productsizes) (n productsizes) +
   matrix_bytes (m productsizes) (n productsizes)).

Inductive timer_result : Type :=
| Accepted (iters_at_a_time : Z) (time_per_iter : Q)
| IntOverflow
| TimerFuel.

(** The main benchmark loop.  [elapsed iters] is the measured duration of a
    batch of [iters] products.  [iters_at_a_time] is an [int]: doubling it
    beyond [INT_MAX] is a signed overflow. *)
Fixpoint timer_loop (fuel : nat) (elapsed : Z -> Q) (min_accurate_time : Q)
    (iters_at_a_time : Z) : timer_result :=
  match fuel with
  | O => TimerFuel
  | S fuel' =>
      let timing := elapsed iters_at_a_time in
      if Qle_bool min_accurate_time timing
      then Accepted iters_at_a_time (timing / inject_Z iters_at_a_time)
      else if INT_MAX <? iters_at_a_time * 2
           then IntOverflow
           else timer_loop fuel' elapsed min_accurate_time (iters_at_a_time * 2)
  end.

Definition adaptive_timer (elapsed : Z -> Q) (min_accurate_time : Q)
  : timer_result :=
  timer_loop 32 elapsed min_accurate_time 1.

Definition gflops_of (productsizes : size_triple_t) (time_per_iter : Q) : Q :=
  ((2 # 1000000000) * inject_Z (k productsizes) * inject_Z (m productsizes)
   * inject_Z (n productsizes) / time_per_iter)%Q.

(** The globals through which the block sizes reach the kernel. *)
Definition feed_eigen (b : benchmark_t) (w : World) : World :=
  if use_default_block_size b then
    {| g_min_working_set_size := g_min_working_set_size w;
       eigen_use_specific_block_size := false;
       eigen_block_size_k := eigen_block_size_k w;
       eigen_block_size_m := eigen_block_size_m w;
       eigen_block_size_n := eigen_block_size_n w;
       events := events w;
       time_reads := time_reads w |}
  else
    let blocksizes := size_triple_of_compact (compact_block_size b) in
    {| g_min_working_set_size := g_min_working_set_size w;
       eigen_use_specific_block_size := true;
       eigen_block_size_k := k blocksizes;
       eigen_block_size_m := m blocksizes;
       eigen_block_size_n := n blocksizes;
       events := events w;
       time_reads := time_reads w |}.

Definition log_run (b : benchmark_t) (w : World) : World :=
  {| g_min_working_set_size := g_min_working_set_size w;
     eigen_use_specific_block_size := eigen_use_specific_block_size w;
     eigen_block_size_k := eigen_block_size_k w;
     eigen_block_size_m := eigen_block_size_m w;
     eigen_block_size_n := eigen_block_size_n w;
     events := EvRun b :: events w;
     time_reads := time_reads w |}.

(** [void benchmark_t::run()]: returns the trial with its [gflops] filled
    in.  The matrix products are the external kernel; of them the model
    keeps the batch durations given by the environment.  As everywhere in
    these definitions nothing is rounded: the conversion of the duration to
    [float] before the test (line 210) is [float_timing], below. *)
Definition run (e : Env) (b : benchmark_t) : M benchmark_t := fun w =>
  let productsizes := size_triple_of_compact (compact_product_size b) in
  let w1 := feed_eigen b w in
  match adaptive_timer (batch_cpu_time e (run_count w))
                       (min_accurate_time b) with
  | Accepted _ time_per_iter =>
      Ret (set_gflops b (gflops_of productsizes time_per_iter)) (log_run b w1)
  | IntOverflow => Undefined
  | TimerFuel => OutOfFuel
  end.

(** ** Sorting: [std::sort] by a strict order *)

(** [std::sort] is modelled by insertion; what is proved of the reducer
    holds of every sorted permutation ([sorted_by]), whichever algorithm
    produced it. *)

Fixpoint insert_sorted {A : Type} (lt : A -> A -> bool) (x : A) (l : list A)
  : list A :=
  match l with
  | [] => [x]
  | y :: l' => if lt y x then y :: insert_sorted lt x l' else x :: y :: l'
  end.

Definition std_sort {A : Type} (lt : A -> A -> bool) (l : list A) : list A :=
  fold_right (insert_sorted lt) [] l.

(** What [std::sort] guarantees of its result: no element is less than one
    placed before it. *)
Definition sorted_by {A : Type} (lt : A -> A -> bool) : list A -> Prop :=
  StronglySorted (fun x y => lt y x = false).

(** ** The clock probe: [measure_clock_speed] *)

Definition probe_benchmark (w : World) : benchmark_t :=
  set_min_accurate_time
    (set_min_working_set_size
       (benchmark_t3 (g_min_working_set_size w) 128 128 128) 1)
    (1 # 10).

Fixpoint measure_loop (e : Env) (count : nat) (all_gflops : list Q)
  : M (list Q) :=
  match count with
  | O => ret all_gflops
  | S count' =>
      fun w =>
        (b <- run e (probe_benchmark w) ;;
         measure_loop e count' (all_gflops ++ [gflops b])) w
  end.

Definition stable_estimate (sorted_gflops : list Q) : Q :=
  (nth 2 sorted_gflops 0 + nth 3 sorted_gflops 0 +
   nth 4 sorted_gflops 0 + nth 5 sorted_gflops 0)%Q.

Definition clock_estimate (all_gflops : list Q) : Q :=
  (stable_estimate (std_sort Qlt_bool all_gflops) * (123456 # 1000))%Q.

Definition measure_clock_speed (e : Env) : M Q :=
  all_gflops <- measure_loop e 8 [] ;;
  ret (clock_estimate all_gflops).

(** ** The drift-aware scheduler *)

(** The three objects [try_run_some_benchmarks] holds by reference. *)
Record run_state : Type := mk_run_state {
  benchmarks : list benchmark_t;
  first_benchmark_to_run : nat;
  max_clock_speed : Q
}.

Definition tolerance_higher_clock_speed : Q := 101 # 100.
Definition tolerance_lower_clock_speed : Q := 98 # 100.

(** The inner [while (current_clock_speed < tolerance * max_clock_speed)]
    loop.  Returns the last probe and [rerun_last_tests]. *)
Fixpoint backoff_loop (fuel : nat) (e : Env) (max_clock_speed : Q)
    (current_clock_speed : Q) (seconds_to_sleep : Z) (rerun_last_tests : bool)
  : M (Q * bool) :=
  match fuel with
  | O => fun _ => OutOfFuel
  | S fuel' =>
      if Qlt_bool current_clock_speed
                  (tolerance_lower_clock_speed * max_clock_speed)
      then
        if 300 <? seconds_to_sleep
        then exit 1
        else
          sleep seconds_to_sleep ;;;
          current <- measure_clock_speed e ;;
          backoff_loop fuel' e max_clock_speed current
                       (uint32 (seconds_to_sleep * 2)) true
      else ret (current_clock_speed, rerun_last_tests)
  end.

(** How the clock-speed check of one loop iteration ends: with a [return]
    from [try_run_some_benchmarks], or by falling through to the rest of the
    loop body. *)
Inductive calibration : Type :=
| Return (st : run_state)
| Continue (st : run_state) (time_last_clock_speed_measurement : Q).

(** The body of [if (benchmark_index == benchmarks.size() || time_now > ...)]. *)
Definition calibrate (e : Env) (st : run_state) (time_now : Q)
    (benchmark_index : nat) : M calibration :=
  current_clock_speed <- measure_clock_speed e ;;
  if Qlt_bool (tolerance_higher_clock_speed * max_clock_speed st)
              current_clock_speed
  then
    ret (Return {| benchmarks := benchmarks st;
                   first_benchmark_to_run := 0;
                   max_clock_speed := current_clock_speed |})
  else
    r <- (if Qlt_bool current_clock_speed
                      (tolerance_lower_clock_speed * max_clock_speed st)
          then backoff_loop 10 e (max_clock_speed st) current_clock_speed 1 false
          else ret (current_clock_speed, false)) ;;
    if snd r
    then ret (Return st)
    else ret (Continue {| benchmarks := benchmarks st;
                          first_benchmark_to_run := benchmark_index;
                          max_clock_speed := max_clock_speed st |}
                       time_now).

(** [benchmarks[benchmark_index].run()] *)
Definition run_at (e : Env) (bs : list benchmark_t) (benchmark_index : nat)
  : M (list benchmark_t) :=
  match nth_error bs benchmark_index with
  | Some b =>
      b' <- run e b ;;
      ret (firstn benchmark_index bs ++ b' :: skipn (S benchmark_index) bs)
  | None => fun _ => Undefined
  end.

(** The [while (true)] loop of [try_run_some_benchmarks].  Progress output
    on [cerr] is not modelled. *)
Fixpoint try_loop (fuel : nat) (e : Env) (st : run_state)
    (time_last_clock_speed_measurement : Q) (benchmark_index : nat)
  : M run_state :=
  match fuel with
  | O => fun _ => OutOfFuel
  | S fuel' =>
      time_now <- getRealTime e ;;
      c <- (if (benchmark_index =? length (benchmarks st))%nat ||
               Qlt_bool (time_last_clock_speed_measurement + 60) time_now
            then calibrate e st time_now benchmark_index
            else ret (Continue st time_last_clock_speed_measurement)) ;;
      match c with
      | Return st' => ret st'
      | Continue st' time_last' =>
          if (benchmark_index =? length (benchmarks st'))%nat
          then ret {| benchmarks := benchmarks st';
                      first_benchmark_to_run := length (benchmarks st');
                      max_clock_speed := max_clock_speed st' |}
          else
            bs' <- run_at e (benchmarks st') benchmark_index ;;
            try_loop fuel' e
                     {| benchmarks := bs';
                        first_benchmark_to_run := first_benchmark_to_run st';
                        max_clock_speed := max_clock_speed st' |}
                     time_last' (S benchmark_index)
      end
  end.

Definition try_run_some_benchmarks (e : Env) (st : run_state) : M run_state :=
  if (first_benchmark_to_run st =? length (benchmarks st))%nat
  then ret st
  else try_loop (S (length (benchmarks st))) e st 0 (first_benchmark_to_run st).

(** ** The result reducer *)

(** The scan collecting the first trial of each run of equal parameters;
    [best_benchmarks.back()] is the last element pushed. *)
Definition collect_step (best_benchmarks : list benchmark_t) (it : benchmark_t)
  : list benchmark_t :=
  match best_benchmarks with
  | [] => best_benchmarks ++ [it]
  | b0 :: _ =>
      let back := last best_benchmarks b0 in
      if negb (compact_product_size back =? compact_product_size it) ||
         negb (compact_block_size back =? compact_block_size it)
      then best_benchmarks ++ [it]
      else best_benchmarks
  end.

Definition collect_best (sorted : list benchmark_t) : list benchmark_t :=
  fold_left collect_step sorted [].

(** The tail of [run_benchmarks]: sort, then keep the best of each
    configuration. *)
Definition reduce (bs : list benchmark_t) : list benchmark_t :=
  collect_best (std_sort benchmark_lt bs).

(** ** [run_benchmarks] *)

(** [std::max] on floats. *)
Definition float_max (a b : Q) : Q := if Qlt_bool a b then b else a.

Fixpoint initial_clock_speed (e : Env) (count : nat) (max_clock_speed : Q)
  : M Q :=
  match count with
  | O => ret max_clock_speed
  | S count' =>
      c <- measure_clock_speed e ;;
      initial_clock_speed e count' (float_max max_clock_speed c)
  end.

(** [while (first_benchmark_to_run < benchmarks.size())] *)
Fixpoint run_loop (fuel : nat) (e : Env) (st : run_state) : M run_state :=
  match fuel with
  | O => fun _ => OutOfFuel
  | S fuel' =>
      if (first_benchmark_to_run st <? length (benchmarks st))%nat
      then st' <- try_run_some_benchmarks e st ;; run_loop fuel' e st'
      else ret st
  end.

Definition run_benchmarks (fuel : nat) (e : Env) (bs : list benchmark_t)
  : M (list benchmark_t) :=
  let shuffled := random_shuffle e bs in
  max_clock_speed <- initial_clock_speed e 4 0 ;;
  time_start <- getRealTime e ;;
  st <- run_loop fuel e {| benchmarks := shuffled;
                           first_benchmark_to_run := 0;
                           max_clock_speed := max_clock_speed |} ;;
  ret (reduce (benchmarks st)).

(** ** The trial sets of the two actions *)

Definition measurement_repetitions : nat := 3.
Definition maxsize : Z := 2048.
Definition minsize : Z := 16.

(** The values of [x] for which the body of
    [for (size_t x = lo; x <= hi; x *= 2)] is run, in order.  [None] means
    that the given number of tests of the loop condition was not enough to
    leave the loop. *)
Fixpoint pot_loop (fuel : nat) (x hi : Z) : option (list Z) :=
  match fuel with
  | O => None
  | S fuel' =>
      if x <=? hi
      then option_map (cons x) (pot_loop fuel' (size_t (x * 2)) hi)
      else Some []
  end.

(** From a positive start and up to a bound below [2^63] the loop is left
    within 64 tests (lemma [pot_loop_spec]). *)
Definition pot_sizes (lo hi : Z) : list Z :=
  match pot_loop 64 lo hi with
  | Some sizes => sizes
  | None => []
  end.

(** The list built by [measure_all_pot_sizes_action_t::run]:
    every product size, with every block size not above it, three times. *)
Definition all_pot_sizes_benchmarks (g_min_working_set_size : Z)
  : list benchmark_t :=
  flat_map (fun _ : nat =>
    flat_map (fun ksize =>
      flat_map (fun msize =>
        flat_map (fun nsize =>
          flat_map (fun kblock =>
            flat_map (fun mblock =>
              map (fun nblock =>
                     benchmark_t6 g_min_working_set_size
                                  ksize msize nsize kblock mblock nblock)
                  (pot_sizes minsize nsize))
              (pot_sizes minsize msize))
            (pot_sizes minsize ksize))
          (pot_sizes minsize maxsize))
        (pot_sizes minsize maxsize))
      (pot_sizes minsize maxsize))
    (seq 0 measurement_repetitions).

(** The list built by [measure_default_sizes_action_t::run]. *)
Definition default_sizes_benchmarks (g_min_working_set_size : Z)
  : list benchmark_t :=
  flat_map (fun _ : nat =>
    flat_map (fun ksize =>
      flat_map (fun msize =>
        map (fun nsize =>
               benchmark_t3 g_min_working_set_size ksize msize nsize)
            (pot_sizes minsize maxsize))
        (pot_sizes minsize maxsize))
      (pot_sizes minsize maxsize))
    (seq 0 measurement_repetitions).

(** [measure_all_pot_sizes_action_t::run] and
    [measure_default_sizes_action_t::run]; the table is returned instead of
    printed. *)
Definition measure_all_pot_sizes_run (fuel : nat) (e : Env)
  : M (list benchmark_t) := fun w =>
  run_benchmarks fuel e (all_pot_sizes_benchmarks (g_min_working_set_size w)) w.

Definition measure_default_sizes_run (fuel : nat) (e : Env)
  : M (list benchmark_t) := fun w =>
  run_benchmarks fuel e (default_sizes_benchmarks (g_min_working_set_size w)) w.

(** ** Printing a duration: [operator<<(ostream&, const human_duration_t&)] *)

Module Output.
Import String.

(** What is inserted in a stream: an [int] or a string literal. *)
Inductive item : Type :=
| Int (z : Z)
| Str (s : string).

(** The insertions made for [human_duration_t(seconds)], in order; the
    divisions are those of [int], rounding towards zero. *)
Definition print_human_duration (seconds : Z) : list item :=
  let remainder := seconds in
  let hours := Z.quot remainder 3600 in
  let out_hours :=
    if 3600 <? remainder then [Int hours; Str " h "%string] else [] in
  let remainder :=
    if 3600 <? remainder then remainder - hours * 3600 else remainder in
  let minutes := Z.quot remainder 60 in
  let out_minutes :=
    if 60 <? remainder then [Int minutes; Str " min "%string] else [] in
  let remainder :=
    if 60 <? remainder then remainder - minutes * 60 else remainder in
  let out_seconds :=
    if seconds <? 600 then [Int remainder; Str " s"%string] else [] in
  List.app out_hours (List.app out_minutes out_seconds).

End Output.

(** ** The command line: [main] *)

Module CommandLine.
Import String.

(** The two classes derived from [action_t]. *)
Inductive action_t : Type :=
| measure_all_pot_sizes_action_t
| measure_default_sizes_action_t.

Definition invokation_name (a : action_t) : string :=
  match a with
  | measure_all_pot_sizes_action_t => "all-pot-sizes"%string
  | measure_default_sizes_action_t => "default-sizes"%string
  end.

Definition action_run (fuel : nat) (e : Env) (a : action_t)
  : M (list benchmark_t) :=
  match a with
  | measure_all_pot_sizes_action_t => measure_all_pot_sizes_run fuel e
  | measure_default_sizes_action_t => measure_default_sizes_run fuel e
  end.

Definition available_actions : list action_t :=
  [measure_all_pot_sizes_action_t; measure_default_sizes_action_t].

(** The loop that looks [argv[1]] up among the actions: the first action
    whose name [strcmp] finds equal. *)
Fixpoint find_action (name : string) (actions : list action_t)
  : option action_t :=
  match actions with
  | [] => None
  | a :: rest =>
      if eqb name (invokation_name a) then Some a else find_action name rest
  end.

Definition option_prefix : string := "--min-working-set-size="%string.

Definition set_g_min_working_set_size (value : Z) : M unit := fun w =>
  Ret tt {| g_min_working_set_size := value;
            eigen_use_specific_block_size := eigen_use_specific_block_size w;
            eigen_block_size_k := eigen_block_size_k w;
            eigen_block_size_m := eigen_block_size_m w;
            eigen_block_size_n := eigen_block_size_n w;
            events := events w;
            time_reads := time_reads w |}.

(** The loop over [argv[2]], [argv[3]], ...  [strstr(argv[i], prefix)] is
    the first position of the prefix in the argument, compared with the
    start of the argument; [strchr(argv[i], '=')] is the first position of
    the character; [strtoul] is the C library's, taken as given. *)
Fixpoint parse_options (strtoul : string -> Z) (options : list string)
  : M unit :=
  match options with
  | [] => ret tt
  | arg :: rest =>
      match index 0 option_prefix arg with
      | Some O =>
          match index 0 "="%string arg with
          | Some equals_sign =>
              set_g_min_working_set_size
                (strtoul (substring (S equals_sign)
                                    (length arg - S equals_sign) arg)) ;;;
              parse_options strtoul rest
          | None => fun _ => Undefined
          end
      | _ => exit 1
      end
  end.

(** [int main(int argc, char* argv[])]; [show_usage_and_exit] is
    [exit(1)], what is printed is not modelled. *)
Definition main (strtoul : string -> Z) (fuel : nat) (e : Env)
    (argv : list string) : M Z :=
  time_start <- getRealTime e ;;
  match argv with
  | [] => exit 1
  | [_] => exit 1
  | _ :: name :: options =>
      match find_action name available_actions with
      | None => exit 1
      | Some action =>
          parse_options strtoul options ;;;
          action_run fuel e action ;;;
          time_end <- getRealTime e ;;
          ret 0
      end
  end.

End CommandLine.

(** ** Rounding to [float]

    [float] is IEEE binary32: a significand of 24 bits, the smallest
    positive number [2^-149], rounding to the nearest number, ties to the
    even significand.  Numbers beyond the largest finite [float], which the
    conversion makes infinite, are outside the model: the durations and
    throughputs of the program are far below [2^128]. *)

(** The nearest integer, ties to even. *)
Definition round_half_even (x : Q) : Z :=
  let f := Qfloor x in
  match (x - inject_Z f ?= 1 # 2)%Q with
  | Lt => f
  | Eq => if Z.even f then f else f + 1
  | Gt => f + 1
  end.

(** The exponent [e] of a positive [x]: [2^e <= x < 2^(e+1)]. *)
Definition leading_exponent (x : Q) : Z :=
  let e := Z.log2 (Qnum x) - Z.log2 (Zpos (Qden x)) in
  if Qle_bool (2 ^ e) x then e else e - 1.

(** A positive [x] rounded to a significand of [prec] bits, the unit in the
    last place being at least [2^emin]. *)
Definition round_positive (prec emin : Z) (x : Q) : Q :=
  let ulp := Z.max (leading_exponent x - (prec - 1)) emin in
  (inject_Z (round_half_even (x / 2 ^ ulp)) * 2 ^ ulp)%Q.

(** Rounding is symmetric about 0. *)
Definition round_binary (prec emin : Z) (x : Q) : Q :=
  match (x ?= 0)%Q with
  | Eq => 0%Q
  | Gt => round_positive prec emin x
  | Lt => (- round_positive prec emin (- x))%Q
  end.

(** [float(x)] *)
Definition to_float (x : Q) : Q := round_binary 24 (-149) x.

(** [const float timing = float(endtime - starttime)]: the duration the
    timer compares with the threshold, for a batch whose CPU time is
    [cpu_time iters]. *)
Definition float_timing (cpu_time : Z -> Q) (iters : Z) : Q :=
  to_float (cpu_time iters).

(** The CPU time of [iters] calls of a kernel whose call costs [C]. *)
Definition fixed_cost (C : Q) (iters : Z) : Q := (inject_Z iters * C)%Q.

(** [x + y] and [x * y] on [float] operands. *)
Definition float_add (x y : Q) : Q := to_float (x + y).
Definition float_mul (x y : Q) : Q := to_float (x * y).

(** [all_gflops[2] + all_gflops[3] + all_gflops[4] + all_gflops[5]] and
    [stable_estimate * 123.456f] of [measure_clock_speed], every operation
    rounded as the [float] operation it is. *)
Definition stable_estimate_float (sorted_gflops : list Q) : Q :=
  float_add
    (float_add (float_add (nth 2 sorted_gflops 0%Q) (nth 3 sorted_gflops 0%Q))
               (nth 4 sorted_gflops 0%Q))
    (nth 5 sorted_gflops 0%Q).

Definition clock_estimate_float (all_gflops : list Q) : Q :=
  float_mul (stable_estimate_float (std_sort Qlt_bool all_gflops))
            (to_float (123456 # 1000)).

(** ** Vocabulary of the statements *)

(** The exponents a 4-bit field can hold. *)
Definition nibbles : list Z := map Z.of_nat (seq 0 16).

(** A dimension the codec is meant for: a power of two, at most [2^15]. *)
Definition valid_dim (x : Z) : Prop := exists a, 0 <= a <= 15 /\ x = 2 ^ a.

Definition valid_triple (t : size_triple_t) : Prop :=
  valid_dim (k t) /\ valid_dim (m t) /\ valid_dim (n t).

(** Lexicographic comparison of triples of integers. *)
Definition lex_compare (a1 b1 c1 a2 b2 c2 : Z) : comparison :=
  match a1 ?= a2 with
  | Eq => match b1 ?= b2 with
          | Eq => c1 ?= c2
          | r => r
          end
  | r => r
  end.

(** Packing and unpacking of three 4-bit fields, as a checkable property. *)
Definition fields_ok (a b c : Z) : bool :=
  let key := uint16 (Z.lor (Z.lor (Z.shiftl a 8) (Z.shiftl b 4)) c) in
  (key =? 256 * a + 16 * b + c) &&
  (Z.shiftr (Z.land key 0xf00) 8 =? a) &&
  (Z.shiftr (Z.land key 0x0f0) 4 =? b) &&
  (Z.shiftr (Z.land key 0x00f) 0 =? c).

(** Two trials of the same configuration: equal problem-size key and equal
    block-size key. *)
Definition same_config (b1 b2 : benchmark_t) : bool :=
  (compact_product_size b1 =? compact_product_size b2) &&
  (compact_block_size b1 =? compact_block_size b2).

(** Strict lexicographic order on configurations. *)
Definition config_lt (b1 b2 : benchmark_t) : Prop :=
  compact_product_size b1 < compact_product_size b2 \/
  (compact_product_size b1 = compact_product_size b2 /\
   compact_block_size b1 < compact_block_size b2).

(** The composite order of the reducer: ascending problem-size key, then
    ascending block-size key, then descending throughput. *)
Definition trial_le (b1 b2 : benchmark_t) : Prop :=
  compact_product_size b1 < compact_product_size b2 \/
  (compact_product_size b1 = compact_product_size b2 /\
   (compact_block_size b1 < compact_block_size b2 \/
    (compact_block_size b1 = compact_block_size b2 /\
     (gflops b2 <= gflops b1)%Q))).

(** The scan of [collect_best] read from the front: [prev] is the trial
    kept last. *)
Fixpoint collect_from (prev : benchmark_t) (l : list benchmark_t)
  : list benchmark_t :=
  match l with
  | [] => []
  | x :: l' =>
      if same_config prev x then collect_from prev l'
      else x :: collect_from x l'
  end.

(** A finished trial, given by its two keys and its throughput. *)
Definition trial (key block : Z) (tp : Q) : benchmark_t :=
  {| compact_product_size := key;
     compact_block_size := block;
     use_default_block_size := false;
     gflops := tp;
     min_working_set_size := 0;
     min_accurate_time := g_min_accurate_time |}.

(** The problem sizes of the clock probe's trial. *)
Definition probe_sizes : size_triple_t :=
  size_triple_of_compact (compact_size_triple 128 128 128).

(** The throughput that the [i]-th call of [benchmark_t::run] reports when
    it is a call of the clock probe; [None] when its timer accepts no
    iteration count. *)
Definition probe_measurement (e : Env) (i : nat) : option Q :=
  match adaptive_timer (batch_cpu_time e i) (1 # 10) with
  | Accepted _ time_per_iter => Some (gflops_of probe_sizes time_per_iter)
  | IntOverflow => None
  | TimerFuel => None
  end.

(** The measurements of [count] successive probe runs, the first of them
    being the [start]-th call of [benchmark_t::run]. *)
Fixpoint probe_measurements (e : Env) (start count : nat) : option (list Q) :=
  match count with
  | O => Some []
  | S count' =>
      match probe_measurement e start with
      | Some g => option_map (cons g) (probe_measurements e (S start) count')
      | None => None
      end
  end.

(** The estimate of a clock probe that starts at the [start]-th call of
    [benchmark_t::run]. *)
Definition probe_estimate (e : Env) (start : nat) : option Q :=
  option_map clock_estimate (probe_measurements e start 8).

(** The process state after [count] runs of the probe's trial. *)
Definition after_probes (count : nat) (w : World) : World :=
  {| g_min_working_set_size := g_min_working_set_size w;
     eigen_use_specific_block_size :=
       match count with
       | O => eigen_use_specific_block_size w
       | S _ => false
       end;
     eigen_block_size_k := eigen_block_size_k w;
     eigen_block_size_m := eigen_block_size_m w;
     eigen_block_size_n := eigen_block_size_n w;
     events := repeat (EvRun (probe_benchmark w)) count ++ events w;
     time_reads := time_reads w |}.


(** The process state after [sleep(seconds)]. *)
Definition after_sleep (seconds : Z) (w : World) : World :=
  {| g_min_working_set_size := g_min_working_set_size w;
     eigen_use_specific_block_size := eigen_use_specific_block_size w;
     eigen_block_size_k := eigen_block_size_k w;
     eigen_block_size_m := eigen_block_size_m w;
     eigen_block_size_n := eigen_block_size_n w;
     events := EvSleep seconds :: events w;
     time_reads := time_reads w |}.

(** The process state after [count] rounds of the backoff loop, each a
    sleep followed by a clock probe, the first sleep lasting [seconds] and
    each next one twice as long. *)
Fixpoint after_backoff (seconds : Z) (count : nat) (w : World) : World :=
  match count with
  | O => w
  | S count' =>
      after_backoff (seconds * 2) count' (after_probes 8 (after_sleep seconds w))
  end.




(** A kernel of fixed cost [C] per call, a wall clock stuck at 1000 s and
    an identity shuffle. *)
Definition steady_env (C : Q) : Env :=
  {| batch_cpu_time := fun _ iters => (inject_Z iters * C)%Q;
     real_time := fun _ => 1000%Q;
     random_shuffle := fun l => l |}.

Definition initial_world : World :=
  {| g_min_working_set_size := 0;
     eigen_use_specific_block_size := false;
     eigen_block_size_k := 0;
     eigen_block_size_m := 0;
     eigen_block_size_n := 0;
     events := [];
     time_reads := 0 |}.

(** The process state after a call of [timer.getRealTime()]. *)
Definition after_time_read (w : World) : World :=
  {| g_min_working_set_size := g_min_working_set_size w;
     eigen_use_specific_block_size := eigen_use_specific_block_size w;
     eigen_block_size_k := eigen_block_size_k w;
     eigen_block_size_m := eigen_block_size_m w;
     eigen_block_size_n := eigen_block_size_n w;
     events := events w;
     time_reads := S (time_reads w) |}.

(** Whether the loop iteration at [benchmark_index] checks the clock speed,
    the wall clock reading [time_now]. *)
Definition calibration_due (st : run_state) (benchmark_index : nat)
    (time_last_clock_speed_measurement time_now : Q) : bool :=
  (benchmark_index =? length (benchmarks st))%nat ||
  Qlt_bool (time_last_clock_speed_measurement + 60) time_now.

(** [b'] is [b] up to the throughput field. *)
Definition same_but_gflops (b b' : benchmark_t) : Prop :=
  b' = set_gflops b (gflops b').

(** An environment whose clock speed doubles after the ninth call of
    [benchmark_t::run]: a kernel call costs 1/10 s during the first nine
    runs, 1/20 s afterwards, except 1/5 s during the 26th run. *)
Definition speedup_env : Env :=
  {| batch_cpu_time := fun i iters =>
       (inject_Z iters *
        (if (i <? 9)%nat then 1 # 10
         else if (i =? 25)%nat then 1 # 5 else 1 # 20))%Q;
     real_time := fun _ => 1000%Q;
     random_shuffle := fun l => l |}.

(** The 12-bit keys. *)
Definition keys12 : list Z := map Z.of_nat (seq 0 4096).

(** Decoding a key and encoding the result gives the key back, as a
    checkable property. *)
Definition key_roundtrip_ok (key : Z) : bool :=
  compact_size_triple_t (size_triple_of_compact key) =? key.

(** The clock probes taken at the [start]-th call of [benchmark_t::run] and
    at the [count - 1] next multiples of eight calls after it all come back
    below the lower tolerance of [max_clock_speed]. *)
Fixpoint low_probes (e : Env) (max_clock_speed : Q) (start count : nat)
  : Prop :=
  match count with
  | O => True
  | S count' =>
      (exists c, probe_estimate e start = Some c /\
                 (c < tolerance_lower_clock_speed * max_clock_speed)%Q) /\
      low_probes e max_clock_speed (8 + start) count'
  end.

(** An environment whose clock is slow during the first eight calls of
    [benchmark_t::run] and back to speed afterwards. *)
Definition dip_env : Env :=
  {| batch_cpu_time := fun i iters =>
       (inject_Z iters * (if (i <? 8)%nat then 1 else 1 # 10))%Q;
     real_time := fun _ => 1000%Q;
     random_shuffle := fun l => l |}.

(** A trial whose threshold is positive, as the constructors make it. *)
Definition threshold_positive (b : benchmark_t) : Prop :=
  (0 < min_accurate_time b)%Q.

(** A trial that carries a measurement. *)
Definition measured (b : benchmark_t) : Prop := (0 < gflops b)%Q.

(** One repetition of the all-sizes trial set. *)
Definition all_pot_sizes_once (g_min_working_set_size : Z)
  : list benchmark_t :=
  flat_map (fun ksize =>
    flat_map (fun msize =>
      flat_map (fun nsize =>
        flat_map (fun kblock =>
          flat_map (fun mblock =>
            map (fun nblock =>
                   benchmark_t6 g_min_working_set_size
                                ksize msize nsize kblock mblock nblock)
                (pot_sizes minsize nsize))
            (pot_sizes minsize msize))
          (pot_sizes minsize ksize))
        (pot_sizes minsize maxsize))
      (pot_sizes minsize maxsize))
    (pot_sizes minsize maxsize).

(** [config_lt] as a test. *)
Definition config_ltb (b1 b2 : benchmark_t) : bool :=
  (compact_product_size b1 <? compact_product_size b2) ||
  ((compact_product_size b1 =? compact_product_size b2) &&
   (compact_block_size b1 <? compact_block_size b2)).

(** Each element is below the next one. *)
Fixpoint ascending_configs (l : list benchmark_t) : bool :=
  match l with
  | [] => true
  | b1 :: rest =>
      match rest with
      | [] => true
      | b2 :: _ => config_ltb b1 b2 && ascending_configs rest
      end
  end.

(** The sizes a trial of the all-sizes set must have: block sizes from
    [minsize] up to the product sizes, product sizes up to [maxsize]. *)
Definition sizes_in_range (b : benchmark_t) : bool :=
  let p := size_triple_of_compact (compact_product_size b) in
  let q := size_triple_of_compact (compact_block_size b) in
  (minsize <=? k q) && (k q <=? k p) && (k p <=? maxsize) &&
  (minsize <=? m q) && (m q <=? m p) && (m p <=? maxsize) &&
  (minsize <=? n q) && (n q <=? n p) && (n p <=? maxsize) &&
  negb (use_default_block_size b) && Qeq_bool (gflops b) 0.

(** Default blocking, no measurement yet, product sizes within range. *)
Definition default_in_range (b : benchmark_t) : bool :=
  let p := size_triple_of_compact (compact_product_size b) in
  (minsize <=? k p) && (k p <=? maxsize) &&
  (minsize <=? m p) && (m p <=? maxsize) &&
  (minsize <=? n p) && (n p <=? maxsize) &&
  use_default_block_size b && (compact_block_size b =? 0) &&
  Qeq_bool (gflops b) 0.

(** Number of trials of the configuration of [b] in [l]. *)
Definition repetitions_of (b : benchmark_t) (l : list benchmark_t) : nat :=
  length (filter (same_config b) l).

(** One repetition of the default-sizes trial set. *)
Definition default_sizes_once (g_min_working_set_size : Z)
  : list benchmark_t :=
  flat_map (fun ksize =>
    flat_map (fun msize =>
      map (fun nsize =>
             benchmark_t3 g_min_working_set_size ksize msize nsize)
          (pot_sizes minsize maxsize))
      (pot_sizes minsize maxsize))
    (pot_sizes minsize maxsize).

(** The process state with the global [g_min_working_set_size] set. *)
Definition with_g_min_working_set_size (value : Z) (w : World) : World :=
  {| g_min_working_set_size := value;
     eigen_use_specific_block_size := eigen_use_specific_block_size w;
     eigen_block_size_k := eigen_block_size_k w;
     eigen_block_size_m := eigen_block_size_m w;
     eigen_block_size_n := eigen_block_size_n w;
     events := events w;
     time_reads := time_reads w |}.

(** An environment in which every clock probe taken from the [from]-th
    call of [benchmark_t::run] on comes back within both tolerances of
    [max_clock_speed]. *)
Definition probes_within (e : Env) (max_clock_speed : Q) (from : nat)
  : Prop :=
  forall start, (from <= start)%nat -> exists c,
    probe_estimate e start = Some c /\
    (c <= tolerance_higher_clock_speed * max_clock_speed)%Q /\
    (tolerance_lower_clock_speed * max_clock_speed <= c)%Q.

(** An environment in which, from the [from]-th call of
    [benchmark_t::run] on, the timer of no trial of [bs] overflows its
    iteration count. *)
Definition timers_accept (e : Env) (bs : list benchmark_t) (from : nat)
  : Prop :=
  forall i b, (from <= i)%nat -> In b bs ->
    adaptive_timer (batch_cpu_time e i) (min_accurate_time b) <> IntOverflow.

(** Whether a trial is the clock probe's own: the 128 x 128 x 128 product
    with the default blocking, a working set of 1 byte and the threshold
    0.1 s. *)
Definition is_probe_trial (b : benchmark_t) : bool :=
  (compact_product_size b =? compact_size_triple 128 128 128) &&
  (compact_block_size b =? 0) && use_default_block_size b &&
  (min_working_set_size b =? 1) && Qeq_bool (min_accurate_time b) (1 # 10).

(** The trials a logged event stands for: the trial run, unless it is the
    clock probe's. *)
Definition trial_of_event (ev : event) : list benchmark_t :=
  match ev with
  | EvRun b => if is_probe_trial b then [] else [b]
  | EvSleep _ => []
  end.

(** The trials run so far by the scheduler, the clock probes left out, in
    the order in which they were run; each is logged as it was when its run
    began. *)
Definition trials_run (w : World) : list benchmark_t :=
  rev (flat_map trial_of_event (events w)).

(** A trial measured with a kernel of cost [C] per call: the trial it was,
    with the throughput [2e-9 * k * m * n / C]. *)
Definition measured_at (C : Q) (b b' : benchmark_t) : Prop :=
  same_but_gflops b b' /\
  (gflops b'
   == gflops_of (size_triple_of_compact (compact_product_size b)) C)%Q.

(* ================================================================== *)
(** * Part II: properties *)
(* ================================================================== *)

(** ** The codec *)

Lemma log2_pot_loop_spec (fuel : nat) :
  forall x l, (1 <= fuel)%nat -> 0 <= x < 2 ^ Z.of_nat fuel ->
    log2_pot_loop fuel x l = Some (l + Z.log2 x).
Proof.
  induction fuel as [|fuel IH]; intros x l Hf Hx; [lia|].
  cbn [log2_pot_loop].
  rewrite Z.shiftr_div_pow2 by lia. change (2 ^ 1) with 2.
  destruct (Z.eqb_spec (x / 2) 0) as [H0|H0].
  - assert (x = 0 \/ x = 1) as [->| ->].
    { assert (x < 2) by (apply Z.div_small_iff in H0; lia). lia. }
    + now rewrite Z.add_0_r.
    + now rewrite Z.add_0_r.
  - assert (2 <= x).
    { destruct (Z_lt_le_dec x 2); [|assumption].
      rewrite Z.div_small in H0 by lia. congruence. }
    assert (Hlt : x / 2 < 2 ^ Z.of_nat fuel).
    { apply Z.div_lt_upper_bound; [lia|].
      rewrite Nat2Z.inj_succ, Z.pow_succ_r in Hx by lia. lia. }
    assert (1 <= x / 2) by (apply Z.div_le_lower_bound; lia).
    rewrite IH.
    + f_equal.
      assert (Z.log2 (x / 2) = Z.log2 x - 1).
      { rewrite <- Z.shiftr_div_pow2 with (n := 1) by lia.
        rewrite Z.log2_shiftr by lia.
        assert (1 <= Z.log2 x) by (apply Z.log2_le_pow2; simpl; lia).
        lia. }
      lia.
    + destruct fuel; [simpl in Hlt; lia | lia].
    + lia.
Qed.

Lemma log2_pot_is_log2 (x : Z) :
  0 <= x <= SIZE_MAX -> log2_pot x = Z.log2 x.
Proof.
  intros Hx. unfold log2_pot, SIZE_MAX in *.
  rewrite log2_pot_loop_spec by (simpl; lia).
  rewrite Z.add_0_l. unfold uint8.
  apply Z.mod_small. split; [apply Z.log2_nonneg|].
  destruct (Z.eq_dec x 0) as [->|]; [simpl; lia|].
  assert (Z.log2 x < 64) by (apply Z.log2_lt_pow2; lia).
  lia.
Qed.

Lemma log2_pot_pow2 (a : Z) : 0 <= a <= 63 -> log2_pot (2 ^ a) = a.
Proof.
  intros Ha. rewrite log2_pot_is_log2.
  - apply Z.log2_pow2; lia.
  - unfold SIZE_MAX.
    assert (2 ^ a < 2 ^ 64) by (apply Z.pow_lt_mono_r; lia).
    assert (0 < 2 ^ a) by (apply Z.pow_pos_nonneg; lia). lia.
Qed.

Lemma in_nibbles (a : Z) : 0 <= a <= 15 -> In a nibbles.
Proof.
  intros Ha. unfold nibbles.
  rewrite <- (Z2Nat.id a) by lia.
  apply in_map, in_seq. lia.
Qed.

Lemma all_fields_ok :
  forallb (fun a => forallb (fun b => forallb (fields_ok a b) nibbles) nibbles)
          nibbles = true.
Proof. vm_compute. reflexivity. Qed.

Lemma fields_ok_range (a b c : Z) :
  0 <= a <= 15 -> 0 <= b <= 15 -> 0 <= c <= 15 -> fields_ok a b c = true.
Proof.
  intros Ha Hb Hc.
  pose proof all_fields_ok as H.
  rewrite forallb_forall in H. specialize (H a (in_nibbles a Ha)).
  rewrite forallb_forall in H. specialize (H b (in_nibbles b Hb)).
  rewrite forallb_forall in H. exact (H c (in_nibbles c Hc)).
Qed.

Lemma compact_pow2 (a b c : Z) :
  0 <= a <= 15 -> 0 <= b <= 15 -> 0 <= c <= 15 ->
  compact_size_triple (2 ^ a) (2 ^ b) (2 ^ c) = 256 * a + 16 * b + c.
Proof.
  intros Ha Hb Hc. unfold compact_size_triple.
  rewrite !log2_pot_pow2 by lia.
  pose proof (fields_ok_range a b c Ha Hb Hc) as H.
  unfold fields_ok in H. rewrite !andb_true_iff in H.
  destruct H as [[[H _] _] _]. now apply Z.eqb_eq in H.
Qed.

Lemma decode_pow2 (a b c : Z) :
  0 <= a <= 15 -> 0 <= b <= 15 -> 0 <= c <= 15 ->
  size_triple_of_compact (compact_size_triple (2 ^ a) (2 ^ b) (2 ^ c))
  = mk_size_triple (2 ^ a) (2 ^ b) (2 ^ c).
Proof.
  intros Ha Hb Hc. unfold compact_size_triple, size_triple_of_compact.
  rewrite !log2_pot_pow2 by lia.
  pose proof (fields_ok_range a b c Ha Hb Hc) as H.
  unfold fields_ok in H. rewrite !andb_true_iff in H.
  destruct H as [[[_ H1] H2] H3].
  apply Z.eqb_eq in H1, H2, H3. rewrite H1, H2, H3.
  rewrite !Z.shiftl_1_l. reflexivity.
Qed.

(** Claim C3.  For every size triple whose three dimensions are powers of
    two with exponent at most 15, decoding its compact key gives the triple
    back; the key fits in 12 bits and each decoded dimension is 1 shifted
    left by the 4-bit field taken from the key. *)
Theorem decode_encode_roundtrip (t : size_triple_t) :
  valid_triple t ->
  size_triple_of_compact (compact_size_triple_t t) = t /\
  0 <= compact_size_triple_t t < 2 ^ 12 /\
  (forall key,
     k (size_triple_of_compact key) = Z.shiftl 1 (Z.shiftr (Z.land key 0xf00) 8) /\
     m (size_triple_of_compact key) = Z.shiftl 1 (Z.shiftr (Z.land key 0x0f0) 4) /\
     n (size_triple_of_compact key) = Z.shiftl 1 (Z.shiftr (Z.land key 0x00f) 0)).
Proof.
  destruct t as [tk tm tn].
  unfold valid_triple, valid_dim, compact_size_triple_t. cbn [k m n].
  intros [[a [Ha ->]] [[b [Hb ->]] [c [Hc ->]]]].
  split; [apply decode_pow2; assumption|].
  split; [rewrite compact_pow2 by assumption; lia|].
  intros key. repeat split.
Qed.

Lemma decode_encode_roundtrip_witness :
  size_triple_of_compact (compact_size_triple_t (mk_size_triple 16 2048 32768))
  = mk_size_triple 16 2048 32768.
Proof.
  apply (decode_encode_roundtrip (mk_size_triple 16 2048 32768)).
  repeat split; cbn [k m n].
  - exists 4. split; [lia | reflexivity].
  - exists 11. split; [lia | reflexivity].
  - exists 15. split; [lia | reflexivity].
Defined.

(** Claim C4.  For two valid size triples, comparing the compact keys as
    unsigned integers gives the lexicographic comparison of the triples of
    base-2 logarithms; and the key is strictly increasing in each field when
    the other two are kept. *)
Theorem key_order_is_lexicographic (t1 t2 : size_triple_t) :
  valid_triple t1 -> valid_triple t2 ->
  (compact_size_triple_t t1 ?= compact_size_triple_t t2)
  = lex_compare (Z.log2 (k t1)) (Z.log2 (m t1)) (Z.log2 (n t1))
                (Z.log2 (k t2)) (Z.log2 (m t2)) (Z.log2 (n t2)) /\
  (k t1 < k t2 -> m t1 = m t2 -> n t1 = n t2 ->
   compact_size_triple_t t1 < compact_size_triple_t t2) /\
  (k t1 = k t2 -> m t1 < m t2 -> n t1 = n t2 ->
   compact_size_triple_t t1 < compact_size_triple_t t2) /\
  (k t1 = k t2 -> m t1 = m t2 -> n t1 < n t2 ->
   compact_size_triple_t t1 < compact_size_triple_t t2).
Proof.
  destruct t1 as [k1 m1 n1], t2 as [k2 m2 n2].
  unfold valid_triple, valid_dim, compact_size_triple_t. cbn [k m n].
  intros [[a1 [Ha1 ->]] [[b1 [Hb1 ->]] [c1 [Hc1 ->]]]]
         [[a2 [Ha2 ->]] [[b2 [Hb2 ->]] [c2 [Hc2 ->]]]].
  rewrite !compact_pow2 by assumption.
  rewrite !Z.log2_pow2 by lia.
  assert (Hpow : forall x y, 0 <= x -> 0 <= y -> 2 ^ x < 2 ^ y -> x < y)
    by (intros x y Hx Hy H; apply Z.pow_lt_mono_r_iff in H; lia).
  assert (Hinj : forall x y, 0 <= x -> 0 <= y -> 2 ^ x = 2 ^ y -> x = y)
    by (intros x y Hx Hy H; apply Z.pow_inj_r in H; lia).
  split; [|repeat split; intros H1 H2 H3].
  - unfold lex_compare.
    destruct (Z.compare_spec a1 a2) as [->|Ha|Ha].
    + destruct (Z.compare_spec b1 b2) as [->|Hb|Hb].
      * destruct (Z.compare_spec c1 c2) as [->|Hc|Hc].
        -- apply Z.compare_refl.
        -- apply Z.compare_lt_iff. lia.
        -- apply Z.compare_gt_iff. lia.
      * apply Z.compare_lt_iff. lia.
      * apply Z.compare_gt_iff. lia.
    + apply Z.compare_lt_iff. lia.
    + apply Z.compare_gt_iff. lia.
  - assert (a1 < a2) by (apply Hpow; lia). lia.
  - assert (a1 = a2) by (apply Hinj; lia).
    assert (b1 < b2) by (apply Hpow; lia). lia.
  - assert (a1 = a2) by (apply Hinj; lia).
    assert (b1 = b2) by (apply Hinj; lia).
    assert (c1 < c2) by (apply Hpow; lia). lia.
Qed.

Lemma key_order_is_lexicographic_witness :
  (compact_size_triple_t (mk_size_triple 16 2048 32) ?=
   compact_size_triple_t (mk_size_triple 32 16 16)) = Lt.
Proof.
  pose proof (key_order_is_lexicographic
                (mk_size_triple 16 2048 32) (mk_size_triple 32 16 16)) as H.
  destruct H as [H _].
  - repeat split; cbn [k m n];
      [exists 4 | exists 11 | exists 5]; (split; [lia | reflexivity]).
  - repeat split; cbn [k m n];
      [exists 5 | exists 4 | exists 4]; (split; [lia | reflexivity]).
  - rewrite H. reflexivity.
Defined.

Lemma decode_rounds_down (x y z : Z) :
  0 <= x < 2 ^ 16 -> 0 <= y < 2 ^ 16 -> 0 <= z < 2 ^ 16 ->
  compact_size_triple x y z
  = compact_size_triple (2 ^ log2_pot x) (2 ^ log2_pot y) (2 ^ log2_pot z) /\
  size_triple_of_compact (compact_size_triple x y z)
  = mk_size_triple (2 ^ log2_pot x) (2 ^ log2_pot y) (2 ^ log2_pot z).
Proof.
  intros Hx Hy Hz.
  assert (Hfield : forall d, 0 <= d < 2 ^ 16 ->
                             log2_pot d = Z.log2 d /\ 0 <= Z.log2 d <= 15).
  { intros d Hd. split.
    - apply log2_pot_is_log2. unfold SIZE_MAX. lia.
    - split; [apply Z.log2_nonneg|].
      destruct (Z.eq_dec d 0) as [->|Hd0]; [cbn; lia|].
      assert (Z.log2 d < 16) by (apply Z.log2_lt_pow2; lia). lia. }
  destruct (Hfield x Hx) as [Ex Hax].
  destruct (Hfield y Hy) as [Ey Hay].
  destruct (Hfield z Hz) as [Ez Haz].
  assert (Hkey : compact_size_triple x y z
                 = compact_size_triple (2 ^ Z.log2 x) (2 ^ Z.log2 y)
                                       (2 ^ Z.log2 z)).
  { unfold compact_size_triple.
    rewrite !log2_pot_pow2 by lia. rewrite Ex, Ey, Ez. reflexivity. }
  rewrite Ex, Ey, Ez. split; [exact Hkey|].
  rewrite Hkey. apply decode_pow2; assumption.
Qed.

(** Claim C10.  [log2_pot] is total on [size_t]: its loop ends within 64
    iterations for every input, returning the floor of the base-2 logarithm
    (the position of the highest set bit) for [x >= 1] and 0 for [x = 0].
    Hence the key stores a dimension below [2^16] that is not a power of
    two rounded down to the nearest power of two, without any error: the
    triple decoded from the key of [(x, y, z)] is
    [(2^log2_pot x, 2^log2_pot y, 2^log2_pot z)]. *)
Theorem log2_pot_total (x : Z) :
  0 <= x <= SIZE_MAX ->
  log2_pot_loop 64 x 0 = Some (Z.log2 x) /\
  log2_pot x = Z.log2 x /\
  (x = 0 -> log2_pot x = 0) /\
  (1 <= x ->
   2 ^ log2_pot x <= x < 2 ^ (log2_pot x + 1) /\
   Z.testbit x (log2_pot x) = true /\
   (forall i, log2_pot x < i -> Z.testbit x i = false) /\
   log2_pot (2 ^ log2_pot x) = log2_pot x) /\
  (x < 2 ^ 16 ->
   forall y z, 0 <= y < 2 ^ 16 -> 0 <= z < 2 ^ 16 ->
     size_triple_of_compact (compact_size_triple x y z)
     = mk_size_triple (2 ^ log2_pot x) (2 ^ log2_pot y) (2 ^ log2_pot z) /\
     compact_size_triple x y z
     = compact_size_triple (2 ^ log2_pot x) (2 ^ log2_pot y)
                           (2 ^ log2_pot z)).
Proof.
  intros Hx.
  assert (Hloop : log2_pot_loop 64 x 0 = Some (Z.log2 x)).
  { unfold SIZE_MAX in Hx.
    rewrite log2_pot_loop_spec by (simpl; lia). reflexivity. }
  assert (Hlog : log2_pot x = Z.log2 x) by (apply log2_pot_is_log2; exact Hx).
  split; [exact Hloop|]. split; [exact Hlog|].
  split; [intros ->; reflexivity|].
  split.
  - intros H1. rewrite Hlog.
    assert (Hb : 0 <= Z.log2 x <= 63).
    { split; [apply Z.log2_nonneg|].
      unfold SIZE_MAX in Hx.
      assert (Z.log2 x < 64) by (apply Z.log2_lt_pow2; lia). lia. }
    split; [|split; [|split]].
    + pose proof (Z.log2_spec x) as Hs.
      replace (Z.log2 x + 1) with (Z.succ (Z.log2 x)) by lia. apply Hs. lia.
    + apply Z.bit_log2. lia.
    + intros i Hi. apply Z.bits_above_log2; lia.
    + apply log2_pot_pow2; exact Hb.
  - intros H16 y z Hy Hz.
    destruct (decode_rounds_down x y z) as [Hkey Hdec];
      [lia | exact Hy | exact Hz |].
    split; [exact Hdec | exact Hkey].
Qed.

Lemma log2_pot_total_witness :
  log2_pot 100 = 6 /\
  size_triple_of_compact (compact_size_triple 100 48 2047)
  = mk_size_triple 64 32 1024.
Proof.
  assert (H : 0 <= 100 <= SIZE_MAX) by (unfold SIZE_MAX; lia).
  destruct (log2_pot_total 100 H) as [_ [Hlog [_ [_ Henc]]]].
  split; [rewrite Hlog; reflexivity|].
  destruct (Henc ltac:(lia) 48 2047 ltac:(lia) ltac:(lia)) as [Hdec _].
  rewrite Hdec. reflexivity.
Defined.

(** From [2^16] on the logarithm does not fit its 4-bit field.  The
    dimension 65537 has logarithm 16: as the first dimension it is decoded
    as 1, not as 65536, and as the second it also changes the first, which
    is decoded as 32 instead of 16. *)
Lemma encoding_beyond_field_range :
  0 <= 65537 <= SIZE_MAX /\
  log2_pot 65537 = 16 /\
  size_triple_of_compact (compact_size_triple 65537 16 16)
  = mk_size_triple 1 16 16 /\
  size_triple_of_compact (compact_size_triple 16 65537 16)
  = mk_size_triple 32 1 16 /\
  size_triple_of_compact (compact_size_triple 65537 16 16)
  <> mk_size_triple (2 ^ log2_pot 65537) (2 ^ log2_pot 16) (2 ^ log2_pot 16).
Proof.
  split; [unfold SIZE_MAX; lia|].
  split; [reflexivity|]. split; [reflexivity|]. split; [reflexivity|].
  vm_compute. discriminate.
Qed.

(** ** The operand pool of the adaptive timer *)

Lemma field_range (key mask s : Z) :
  0 <= s -> Z.shiftr mask s = Z.ones 4 ->
  0 <= Z.shiftr (Z.land key mask) s <= 15.
Proof.
  intros Hs Hmask.
  rewrite Z.shiftr_land, Hmask, Z.land_ones by lia.
  pose proof (Z.mod_pos_bound (Z.shiftr key s) (2 ^ 4)). lia.
Qed.

Lemma dim_range (f : Z) : 0 <= f <= 15 -> 1 <= Z.shiftl 1 f <= 32768.
Proof.
  intros Hf. rewrite Z.shiftl_1_l.
  assert (2 ^ 0 <= 2 ^ f) by (apply Z.pow_le_mono_r; lia).
  assert (2 ^ f <= 2 ^ 15) by (apply Z.pow_le_mono_r; lia).
  lia.
Qed.

Lemma decoded_dims_range (key : Z) :
  1 <= k (size_triple_of_compact key) <= 32768 /\
  1 <= m (size_triple_of_compact key) <= 32768 /\
  1 <= n (size_triple_of_compact key) <= 32768.
Proof.
  unfold size_triple_of_compact. cbn [k m n].
  repeat split; apply dim_range; apply field_range; (lia || reflexivity).
Qed.

Lemma combined_sizes_value (p : size_triple_t) :
  1 <= k p <= 32768 -> 1 <= m p <= 32768 -> 1 <= n p <= 32768 ->
  combined_three_matrices_sizes p
  = matrix_bytes (m p) (k p) + matrix_bytes (k p) (n p) + matrix_bytes (m p) (n p)
  /\ 12 <= combined_three_matrices_sizes p.
Proof.
  intros Hk Hm Hn.
  unfold combined_three_matrices_sizes, matrix_bytes, size_t, sizeof_Scalar.
  rewrite Z.mod_small by nia. split; nia.
Qed.

(** Claim C8, as the code has it.  The pool of a trial holds strictly more
    bytes than the working-set size in force, which is the per-trial
    override when that is nonzero and the 64 MiB constant only when the
    override is zero; it exceeds that size by at most the size of one
    instance of the three operands. *)
Theorem pool_footprint_exceeds_working_set (b : benchmark_t) :
  0 <= min_working_set_size b <= SIZE_MAX ->
  working_set_size b < pool_footprint b /\
  pool_footprint b <= working_set_size b +
    combined_three_matrices_sizes
      (size_triple_of_compact (compact_product_size b)) /\
  (min_working_set_size b = 0 -> 64 * 2 ^ 20 < pool_footprint b) /\
  (min_working_set_size b <> 0 -> min_working_set_size b < pool_footprint b).
Proof.
  intros Hws.
  set (p := size_triple_of_compact (compact_product_size b)).
  destruct (decoded_dims_range (compact_product_size b)) as [Hk [Hm Hn]].
  fold p in Hk, Hm, Hn.
  destruct (combined_sizes_value p Hk Hm Hn) as [Hc Hc12].
  assert (Hw : 0 <= working_set_size b <= SIZE_MAX).
  { unfold working_set_size.
    destruct (Z.eqb_spec (min_working_set_size b) 0); [|exact Hws].
    unfold unlikely_large_cache_size, SIZE_MAX. simpl. lia. }
  assert (Hpool : matrix_pool_size b
                  = 1 + working_set_size b / combined_three_matrices_sizes p).
  { unfold matrix_pool_size, size_t. fold p.
    apply Z.mod_small. unfold SIZE_MAX in Hw.
    assert (0 <= working_set_size b / combined_three_matrices_sizes p) by
      (apply Z.div_pos; lia).
    assert (working_set_size b / combined_three_matrices_sizes p
            <= working_set_size b) by (apply Z.div_le_upper_bound; nia).
    assert (working_set_size b / combined_three_matrices_sizes p
            <= working_set_size b / 12)
      by (apply Z.div_le_compat_l; lia).
    assert (working_set_size b / 12 <= (2 ^ 64 - 1) / 12)
      by (apply Z.div_le_mono; lia).
    assert ((2 ^ 64 - 1) / 12 < 2 ^ 64 - 1) by (vm_compute; reflexivity).
    lia. }
  assert (Hfoot : pool_footprint b
                  = (1 + working_set_size b / combined_three_matrices_sizes p)
                    * combined_three_matrices_sizes p).
  { unfold pool_footprint. fold p. rewrite Hpool, Hc. reflexivity. }
  pose proof (Z.div_mod (working_set_size b) (combined_three_matrices_sizes p))
    as Hdm.
  pose proof (Z.mod_pos_bound (working_set_size b)
                (combined_three_matrices_sizes p)) as Hmod.
  assert (Hgt : working_set_size b < pool_footprint b) by (rewrite Hfoot; nia).
  assert (Hle : pool_footprint b
                <= working_set_size b + combined_three_matrices_sizes p)
    by (rewrite Hfoot; nia).
  split; [exact Hgt|]. split; [exact Hle|].
  unfold working_set_size in Hgt. split; intros H0.
  - rewrite H0 in Hgt. exact Hgt.
  - destruct (Z.eqb_spec (min_working_set_size b) 0); [contradiction|exact Hgt].
Qed.

Lemma pool_footprint_exceeds_working_set_witness :
  1 < pool_footprint
        (set_min_working_set_size (benchmark_t3 0 128 128 128) 1).
Proof.
  assert (H : 0 <= 1 <= SIZE_MAX) by (unfold SIZE_MAX; lia).
  destruct (pool_footprint_exceeds_working_set
              (set_min_working_set_size (benchmark_t3 0 128 128 128) 1) H)
    as [Hgt _].
  exact Hgt.
Defined.

(** Claim C8 as stated fails: with the working-set override 1 that the
    clock probe uses, the pool is a single instance of three 128 x 128
    matrices, 196608 bytes, far below the 64 MiB constant. *)
Lemma pool_footprint_below_cache_constant :
  let b := set_min_working_set_size (benchmark_t3 0 128 128 128) 1 in
  min_working_set_size b = 1 /\
  matrix_pool_size b = 1 /\
  pool_footprint b = 196608 /\
  ~ (Z.max (min_working_set_size b) unlikely_large_cache_size
     <= pool_footprint b).
Proof.
  cbv zeta. repeat split; try (vm_compute; reflexivity).
  vm_compute. intros H. apply H. reflexivity.
Qed.

(** ** The doubling loop of the adaptive timer *)

Lemma Qlt_bool_iff (x y : Q) : Qlt_bool x y = true <-> (x < y)%Q.
Proof.
  unfold Qlt_bool. rewrite negb_true_iff. split.
  - intros H. apply Qnot_le_lt. intros Hle.
    apply Qle_bool_iff in Hle. congruence.
  - intros H. destruct (Qle_bool y x) eqn:E; [|reflexivity].
    apply Qle_bool_iff in E. exfalso. exact (Qlt_not_le _ _ H E).
Qed.

Lemma Qlt_bool_false_iff (x y : Q) : Qlt_bool x y = false <-> (y <= x)%Q.
Proof.
  unfold Qlt_bool. rewrite negb_false_iff. apply Qle_bool_iff.
Qed.

Lemma Qle_bool_false (x y : Q) : Qle_bool x y = false -> (y < x)%Q.
Proof.
  intros H. apply Qnot_le_lt. intros Hle.
  apply Qle_bool_iff in Hle. congruence.
Qed.

(** The loop never runs out of the 32 iterations the model grants it: an
    [int] can be doubled 30 times at most. *)
Lemma timer_loop_fuel (elapsed : Z -> Q) (T : Q) (fuel : nat) :
  forall iters, 1 <= iters <= INT_MAX -> INT_MAX < iters * 2 ^ Z.of_nat fuel ->
    timer_loop fuel elapsed T iters <> TimerFuel.
Proof.
  induction fuel as [|fuel IH]; intros iters Hi Hbig.
  - simpl in Hbig. lia.
  - cbn [timer_loop].
    destruct (Qle_bool T (elapsed iters)); [discriminate|].
    destruct (Z.ltb_spec INT_MAX (iters * 2)); [discriminate|].
    apply IH; [lia|].
    rewrite Nat2Z.inj_succ, Z.pow_succ_r in Hbig by lia.
    rewrite <- Z.mul_assoc. exact Hbig.
Qed.

Lemma adaptive_timer_fuel (elapsed : Z -> Q) (T : Q) :
  adaptive_timer elapsed T <> TimerFuel.
Proof.
  apply timer_loop_fuel; unfold INT_MAX; simpl; lia.
Qed.

(** With a kernel of fixed cost [C] per call, the loop started at [iters]
    accepts the first count of the doubling sequence whose batch lasts at
    least [T], provided that count is reached before [int] overflows. *)
Lemma timer_loop_accepts (C T : Q) (fuel : nat) :
  forall iters (d : nat),
    1 <= iters -> (d < fuel)%nat ->
    iters * 2 ^ Z.of_nat d <= INT_MAX ->
    (T <= inject_Z (iters * 2 ^ Z.of_nat d) * C)%Q ->
    exists j : nat,
      (j <= d)%nat /\
      timer_loop fuel (fun i => inject_Z i * C)%Q T iters
      = Accepted (iters * 2 ^ Z.of_nat j)
                 (inject_Z (iters * 2 ^ Z.of_nat j) * C
                  / inject_Z (iters * 2 ^ Z.of_nat j))%Q /\
      (T <= inject_Z (iters * 2 ^ Z.of_nat j) * C)%Q /\
      (forall j' : nat, (j' < j)%nat ->
         (inject_Z (iters * 2 ^ Z.of_nat j') * C < T)%Q).
Proof.
  induction fuel as [|fuel IH]; intros iters d Hi Hd Hmax HT; [lia|].
  cbn [timer_loop].
  destruct (Qle_bool T (inject_Z iters * C)) eqn:E.
  - exists 0%nat. change (2 ^ Z.of_nat 0) with 1. rewrite Z.mul_1_r.
    repeat split; [lia | apply Qle_bool_iff; exact E | intros j' Hj'; lia].
  - apply Qle_bool_false in E.
    destruct d as [|d].
    { change (2 ^ Z.of_nat 0) with 1 in HT. rewrite Z.mul_1_r in HT.
      exfalso. exact (Qlt_not_le _ _ E HT). }
    assert (Hstep : forall x : nat,
               iters * 2 ^ Z.of_nat (S x) = iters * 2 * 2 ^ Z.of_nat x).
    { intros x. rewrite Nat2Z.inj_succ, Z.pow_succ_r by lia. ring. }
    rewrite Hstep in Hmax, HT.
    assert (0 < 2 ^ Z.of_nat d) by (apply Z.pow_pos_nonneg; lia).
    destruct (Z.ltb_spec INT_MAX (iters * 2)) as [Hov|Hok]; [nia|].
    destruct (IH (iters * 2) d) as [j [Hj [Hrun [Hacc Hmin]]]];
      [lia | lia | exact Hmax | exact HT |].
    exists (S j). rewrite Hstep.
    repeat split; [lia | exact Hrun | exact Hacc |].
    intros [|j'] Hj'.
    + change (2 ^ Z.of_nat 0) with 1. rewrite Z.mul_1_r. exact E.
    + rewrite Hstep. apply Hmin. lia.
Qed.

(** When even [2^30] calls do not last [T], the next doubling overflows. *)
Lemma timer_loop_overflows (C T : Q) (fuel : nat) :
  forall iters (d : nat),
    1 <= iters -> (d < fuel)%nat ->
    iters * 2 ^ Z.of_nat d <= INT_MAX < iters * 2 ^ Z.of_nat (S d) ->
    (0 <= C)%Q ->
    (inject_Z (iters * 2 ^ Z.of_nat d) * C < T)%Q ->
    timer_loop fuel (fun i => inject_Z i * C)%Q T iters = IntOverflow.
Proof.
  induction fuel as [|fuel IH]; intros iters d Hi Hd Hmax HC HT; [lia|].
  cbn [timer_loop].
  assert (Hpos : 0 < 2 ^ Z.of_nat d) by (apply Z.pow_pos_nonneg; lia).
  assert (Hmono : (inject_Z iters * C <= inject_Z (iters * 2 ^ Z.of_nat d) * C)%Q).
  { apply Qmult_le_compat_r; [|exact HC].
    rewrite <- Zle_Qle. nia. }
  destruct (Qle_bool T (inject_Z iters * C)) eqn:E.
  { apply Qle_bool_iff in E. exfalso.
    apply (Qlt_not_le _ _ HT). eapply Qle_trans; eassumption. }
  assert (Hstep : forall x : nat,
             iters * 2 ^ Z.of_nat (S x) = iters * 2 * 2 ^ Z.of_nat x).
  { intros x. rewrite Nat2Z.inj_succ, Z.pow_succ_r by lia. ring. }
  destruct d as [|d].
  - change (2 ^ Z.of_nat 1) with 2 in Hmax.
    destruct (Z.ltb_spec INT_MAX (iters * 2)); [reflexivity | lia].
  - rewrite !Hstep in Hmax. rewrite Hstep in HT.
    assert (0 < 2 ^ Z.of_nat d) by (apply Z.pow_pos_nonneg; lia).
    destruct (Z.ltb_spec INT_MAX (iters * 2)) as [Hov|Hok]; [nia|].
    apply (IH (iters * 2) d); [lia | lia | exact Hmax | exact HC | exact HT].
Qed.

(** The iteration count is an [int].  With the default threshold of 10 ms
    and a kernel call of one picosecond, [2^30] calls last about 1 ms, the
    next doubling overflows, and no iteration count is accepted. *)
Lemma timer_no_accepted_count :
  let C := (1 # 1000000000000)%Q in
  let T := g_min_accurate_time in
  (0 < C)%Q /\ (0 < T)%Q /\
  adaptive_timer (fun i => inject_Z i * C)%Q T = IntOverflow /\
  ~ (exists N time_per_iter,
       adaptive_timer (fun i => inject_Z i * C)%Q T = Accepted N time_per_iter /\
       (T <= inject_Z N * C)%Q /\ (inject_Z (N / 2) * C < T)%Q).
Proof.
  cbv zeta.
  assert (E : adaptive_timer (fun i => inject_Z i * (1 # 1000000000000))%Q
                             g_min_accurate_time = IntOverflow)
    by (vm_compute; reflexivity).
  split; [reflexivity|]. split; [reflexivity|]. split; [exact E|].
  intros [N [tpi [Hrun _]]]. rewrite E in Hrun. discriminate.
Qed.

(** ** Sorting *)

Section StdSort.
Context {A : Type} (lt : A -> A -> bool).
Hypothesis lt_asym : forall x y, lt x y = true -> lt y x = false.
Hypothesis lt_negtrans :
  forall x y z, lt x y = false -> lt y z = false -> lt x z = false.

Lemma insert_sorted_perm (x : A) (l : list A) :
  Permutation (x :: l) (insert_sorted lt x l).
Proof.
  induction l as [|y l IH]; cbn [insert_sorted]; [reflexivity|].
  destruct (lt y x); [|reflexivity].
  rewrite perm_swap. now apply perm_skip.
Qed.

Lemma std_sort_perm (l : list A) : Permutation l (std_sort lt l).
Proof.
  induction l as [|x l IH]; [reflexivity|].
  unfold std_sort in *. cbn [fold_right].
  rewrite <- insert_sorted_perm. now apply perm_skip.
Qed.

Lemma insert_sorted_sorted (x : A) (l : list A) :
  sorted_by lt l -> sorted_by lt (insert_sorted lt x l).
Proof.
  unfold sorted_by.
  induction l as [|y l IH]; intros Hs; cbn [insert_sorted].
  - constructor; constructor.
  - apply StronglySorted_inv in Hs. destruct Hs as [Hl Hy].
    destruct (lt y x) eqn:E.
    + constructor; [apply IH; exact Hl|].
      apply (Permutation_Forall (insert_sorted_perm x l)).
      constructor; [apply lt_asym; exact E | exact Hy].
    + constructor; [constructor; assumption|].
      constructor; [exact E|].
      rewrite Forall_forall in *. intros z Hz.
      apply (lt_negtrans z y x); [apply Hy; exact Hz | exact E].
Qed.

Lemma std_sort_sorted (l : list A) : sorted_by lt (std_sort lt l).
Proof.
  induction l as [|x l IH]; [constructor|].
  unfold std_sort in *. cbn [fold_right].
  apply insert_sorted_sorted. exact IH.
Qed.
End StdSort.

(** ** The order of the reducer *)

Lemma benchmark_lt_false_iff (x y : benchmark_t) :
  benchmark_lt y x = false <-> trial_le x y.
Proof.
  unfold benchmark_lt, trial_le.
  destruct (Z.ltb_spec (compact_product_size y) (compact_product_size x)) as [P1|P1];
  destruct (Z.eqb_spec (compact_product_size y) (compact_product_size x)) as [P2|P2];
  destruct (Z.ltb_spec (compact_block_size y) (compact_block_size x)) as [B1|B1];
  destruct (Z.eqb_spec (compact_block_size y) (compact_block_size x)) as [B2|B2];
  destruct (Qlt_bool (gflops x) (gflops y)) eqn:E;
  cbn [orb andb];
  try (apply Qlt_bool_iff in E); try (apply Qlt_bool_false_iff in E);
  (split; [intros H; try discriminate H; try (intuition lia)
          | intros H; try reflexivity; try (exfalso; intuition lia)]).
  exfalso. destruct H as [H|[_ [H|[_ H]]]]; try lia.
  exact (Qlt_not_le _ _ E H).
Qed.

Lemma trial_le_total (x y : benchmark_t) : trial_le x y \/ trial_le y x.
Proof.
  unfold trial_le.
  destruct (Z.lt_trichotomy (compact_product_size x) (compact_product_size y))
    as [H|[H|H]]; [left; lia | | right; lia].
  destruct (Z.lt_trichotomy (compact_block_size x) (compact_block_size y))
    as [H'|[H'|H']]; [left; lia | | right; lia].
  destruct (Qlt_le_dec (gflops x) (gflops y)) as [Hq|Hq].
  - right. right. split; [lia|]. right. split; [lia|].
    apply Qlt_le_weak. exact Hq.
  - left. right. split; [lia|]. right. split; [lia|]. exact Hq.
Qed.

Lemma trial_le_trans (x y z : benchmark_t) :
  trial_le x y -> trial_le y z -> trial_le x z.
Proof.
  unfold trial_le.
  intros [H1|[H1 [H1'|[H1' H1q]]]] [H2|[H2 [H2'|[H2' H2q]]]]; try lia.
  right. split; [lia|]. right. split; [lia|].
  eapply Qle_trans; eassumption.
Qed.

Lemma benchmark_lt_asym (x y : benchmark_t) :
  benchmark_lt x y = true -> benchmark_lt y x = false.
Proof.
  intros H. apply benchmark_lt_false_iff.
  destruct (trial_le_total x y) as [Hle|Hle]; [exact Hle|].
  apply benchmark_lt_false_iff in Hle. congruence.
Qed.

Lemma benchmark_lt_negtrans (x y z : benchmark_t) :
  benchmark_lt x y = false -> benchmark_lt y z = false ->
  benchmark_lt x z = false.
Proof.
  rewrite !benchmark_lt_false_iff. intros H1 H2.
  eapply trial_le_trans; eassumption.
Qed.

Lemma sorted_by_trial_le (l : list benchmark_t) :
  sorted_by benchmark_lt l <-> StronglySorted trial_le l.
Proof.
  unfold sorted_by.
  induction l as [|x l IH]; split; intros H; try constructor;
    apply StronglySorted_inv in H; destruct H as [Hl Hx].
  - apply IH; exact Hl.
  - rewrite Forall_forall in *. intros y Hy.
    apply benchmark_lt_false_iff. apply Hx; exact Hy.
  - apply IH; exact Hl.
  - rewrite Forall_forall in *. intros y Hy.
    apply benchmark_lt_false_iff. apply Hx; exact Hy.
Qed.

(** ** The scan of the reducer *)

Lemma same_config_iff (a b : benchmark_t) :
  same_config a b = true <->
  compact_product_size a = compact_product_size b /\
  compact_block_size a = compact_block_size b.
Proof.
  unfold same_config. rewrite andb_true_iff, !Z.eqb_eq. reflexivity.
Qed.

Lemma same_config_false_iff (a b : benchmark_t) :
  same_config a b = false <->
  ~ (compact_product_size a = compact_product_size b /\
     compact_block_size a = compact_block_size b).
Proof.
  rewrite <- same_config_iff. destruct (same_config a b); split; intros H;
    try reflexivity; try discriminate; try congruence.
Qed.

Lemma config_lt_not_same (a b c : benchmark_t) :
  config_lt a b -> same_config c b = true -> same_config c a = false.
Proof.
  intros Hlt Hs. apply same_config_iff in Hs. apply same_config_false_iff.
  unfold config_lt in Hlt. lia.
Qed.

Lemma config_lt_differ (a b : benchmark_t) :
  config_lt a b -> same_config a b = false.
Proof.
  intros Hlt. apply same_config_false_iff. unfold config_lt in Hlt. lia.
Qed.

Lemma config_lt_trans (a b c : benchmark_t) :
  config_lt a b -> config_lt b c -> config_lt a c.
Proof. unfold config_lt. lia. Qed.

Lemma trial_le_config_lt (a b : benchmark_t) :
  trial_le a b -> same_config a b = false -> config_lt a b.
Proof.
  intros Hle Hs. apply same_config_false_iff in Hs.
  unfold trial_le in Hle. unfold config_lt. lia.
Qed.

Lemma collect_step_snoc (acc : list benchmark_t) (b x : benchmark_t) :
  collect_step (acc ++ [b]) x
  = if same_config b x then acc ++ [b] else (acc ++ [b]) ++ [x].
Proof.
  unfold collect_step.
  destruct (acc ++ [b]) as [|b0 rest] eqn:E; [destruct acc; discriminate|].
  rewrite <- E, last_last. unfold same_config.
  destruct (compact_product_size b =? compact_product_size x);
    destruct (compact_block_size b =? compact_block_size x); reflexivity.
Qed.

Lemma fold_collect_step (l : list benchmark_t) :
  forall acc b,
    fold_left collect_step l (acc ++ [b]) = acc ++ b :: collect_from b l.
Proof.
  induction l as [|x l IH]; intros acc b; cbn [fold_left collect_from].
  - reflexivity.
  - rewrite collect_step_snoc. destruct (same_config b x).
    + apply IH.
    + rewrite IH, <- app_assoc. reflexivity.
Qed.

Lemma collect_best_cons (x : benchmark_t) (l : list benchmark_t) :
  collect_best (x :: l) = x :: collect_from x l.
Proof.
  unfold collect_best. cbn [fold_left collect_step].
  apply (fold_collect_step l [] x).
Qed.

Lemma collect_from_incl (l : list benchmark_t) :
  forall prev r, In r (collect_from prev l) -> In r l.
Proof.
  induction l as [|x l IH]; intros prev r Hr; cbn [collect_from] in Hr.
  - contradiction.
  - destruct (same_config prev x).
    + right. eapply IH; eassumption.
    + destruct Hr as [->|Hr]; [left; reflexivity|].
      right. eapply IH; eassumption.
Qed.

Lemma sorted_drop_second (R : benchmark_t -> benchmark_t -> Prop)
    (a x : benchmark_t) (l : list benchmark_t) :
  StronglySorted R (a :: x :: l) -> StronglySorted R (a :: l).
Proof.
  intros H. apply StronglySorted_inv in H. destruct H as [Hxl Ha].
  apply StronglySorted_inv in Hxl. destruct Hxl as [Hl _].
  constructor; [exact Hl|]. now inversion Ha.
Qed.

Lemma collect_from_increasing (l : list benchmark_t) :
  forall prev, StronglySorted trial_le (prev :: l) ->
    Forall (config_lt prev) (collect_from prev l) /\
    StronglySorted config_lt (collect_from prev l).
Proof.
  induction l as [|x l IH]; intros prev Hs; cbn [collect_from].
  - split; constructor.
  - destruct (same_config prev x) eqn:E.
    + apply IH. eapply sorted_drop_second; exact Hs.
    + apply StronglySorted_inv in Hs. destruct Hs as [Hxl Hprev].
      destruct (IH x Hxl) as [Hall Hsorted].
      assert (Hlt : config_lt prev x).
      { apply trial_le_config_lt; [|exact E]. now inversion Hprev. }
      split.
      * constructor; [exact Hlt|].
        rewrite Forall_forall in *. intros y Hy.
        eapply config_lt_trans; [exact Hlt | apply Hall; exact Hy].
      * constructor; assumption.
Qed.

Lemma collect_from_covers (l : list benchmark_t) :
  forall prev, StronglySorted trial_le (prev :: l) ->
    forall b, In b (prev :: l) ->
      exists r, In r (prev :: collect_from prev l) /\
                same_config b r = true /\ (gflops b <= gflops r)%Q.
Proof.
  induction l as [|x l IH]; intros prev Hs b Hb.
  - destruct Hb as [<-|[]]. exists prev. split; [left; reflexivity|].
    split; [apply same_config_iff; split; reflexivity | apply Qle_refl].
  - destruct Hb as [<-|Hb].
    { exists prev. split; [left; reflexivity|].
      split; [apply same_config_iff; split; reflexivity | apply Qle_refl]. }
    cbn [collect_from]. destruct (same_config prev x) eqn:E.
    + destruct Hb as [<-|Hb].
      * exists prev. split; [left; reflexivity|].
        apply same_config_iff in E. destruct E as [E1 E2].
        split; [apply same_config_iff; split; congruence|].
        apply StronglySorted_inv in Hs. destruct Hs as [_ Hprev].
        inversion Hprev as [|? ? Hpx _]; subst.
        unfold trial_le in Hpx. destruct Hpx as [H|[_ [H|[_ H]]]]; try lia.
        exact H.
      * apply (IH prev); [eapply sorted_drop_second; exact Hs|].
        right. exact Hb.
    + apply StronglySorted_inv in Hs. destruct Hs as [Hxl _].
      destruct (IH x Hxl b Hb) as [r [Hr Hrest]].
      exists r. split; [right; exact Hr | exact Hrest].
Qed.

Lemma collect_from_first (l : list benchmark_t) :
  forall prev, StronglySorted trial_le (prev :: l) ->
    forall r, In r (collect_from prev l) ->
      exists pre post,
        l = pre ++ r :: post /\
        Forall (fun y => same_config y r = false) (prev :: pre).
Proof.
  induction l as [|x l IH]; intros prev Hs r Hr; cbn [collect_from] in Hr.
  - contradiction.
  - destruct (same_config prev x) eqn:E.
    + destruct (IH prev (sorted_drop_second _ _ _ _ Hs) r Hr)
        as [pre [post [-> Hpre]]].
      exists (x :: pre), post. split; [reflexivity|].
      inversion Hpre as [|? ? Hp Hrest]; subst.
      constructor; [exact Hp|]. constructor; [|exact Hrest].
      apply same_config_iff in E. apply same_config_false_iff in Hp.
      apply same_config_false_iff. intros [H1 H2]. apply Hp.
      destruct E as [E1 E2]. split; congruence.
    + pose proof Hs as Hs'.
      apply StronglySorted_inv in Hs'. destruct Hs' as [Hxl Hprev].
      assert (Hlt : config_lt prev x).
      { apply trial_le_config_lt; [|exact E]. now inversion Hprev. }
      destruct Hr as [<-|Hr].
      * exists [], l. split; [reflexivity|].
        constructor; [exact E | constructor].
      * destruct (IH x Hxl r Hr) as [pre [post [-> Hpre]]].
        exists (x :: pre), post. split; [reflexivity|].
        constructor; [|exact Hpre].
        destruct (collect_from_increasing _ x Hxl) as [Hall _].
        rewrite Forall_forall in Hall.
        apply config_lt_differ.
        eapply config_lt_trans; [exact Hlt | apply Hall; exact Hr].
Qed.

Lemma filter_none {A : Type} (f : A -> bool) (l : list A) :
  (forall y, In y l -> f y = false) -> filter f l = [].
Proof.
  induction l as [|y l IH]; intros H; [reflexivity|].
  cbn [filter]. rewrite (H y (or_introl eq_refl)).
  apply IH. intros z Hz. apply H. right. exact Hz.
Qed.

Lemma filter_config_unique (out : list benchmark_t) :
  StronglySorted config_lt out ->
  forall b r, In r out -> same_config b r = true ->
    filter (same_config b) out = [r].
Proof.
  induction out as [|x out IH]; intros Hs b r Hr Hsame; [contradiction|].
  apply StronglySorted_inv in Hs. destruct Hs as [Hout Hx].
  rewrite Forall_forall in Hx. cbn [filter].
  destruct Hr as [->|Hr].
  - rewrite Hsame. f_equal.
    apply filter_none. intros y Hy.
    apply same_config_iff in Hsame. apply same_config_false_iff.
    pose proof (Hx y Hy) as Hlt. unfold config_lt in Hlt. lia.
  - rewrite (config_lt_not_same x r b (Hx r Hr) Hsame).
    apply IH; assumption.
Qed.

(** Claim C1.  Whatever sorted permutation [std::sort] produces under
    [operator<] (ascending problem-size key, then ascending block-size key,
    then descending throughput), the scan keeps exactly the first trial of
    each (problem-size key, block-size key) pair: for every trial of the
    input the reduced list holds exactly one trial of the same pair, it is a
    trial of the input, and no trial of that pair has a higher throughput.
    The sort of the model is such a sorted permutation, and the scenario of
    the specification reduces as stated. *)
Theorem reducer_keeps_best_of_each_config (bs sorted : list benchmark_t) :
  Permutation bs sorted -> sorted_by benchmark_lt sorted ->
  StronglySorted trial_le sorted /\
  StronglySorted config_lt (collect_best sorted) /\
  (forall r, In r (collect_best sorted) ->
     exists pre post,
       sorted = pre ++ r :: post /\
       Forall (fun y => same_config y r = false) pre) /\
  (forall b, In b bs ->
     exists r,
       filter (same_config b) (collect_best sorted) = [r] /\
       same_config b r = true /\
       In r bs /\ (gflops b <= gflops r)%Q) /\
  (forall r, In r (collect_best sorted) -> In r bs) /\
  (Permutation bs (std_sort benchmark_lt bs) /\
   sorted_by benchmark_lt (std_sort benchmark_lt bs) /\
   reduce bs = collect_best (std_sort benchmark_lt bs)) /\
  reduce [trial 5 5 1; trial 5 5 3; trial 5 6 2]
  = [trial 5 5 3; trial 5 6 2].
Proof.
  intros Hperm Hsorted.
  apply sorted_by_trial_le in Hsorted.
  assert (Hincl : forall r, In r (collect_best sorted) -> In r sorted).
  { destruct sorted as [|x l]; [intros r []|].
    intros r Hr. rewrite collect_best_cons in Hr.
    destruct Hr as [->|Hr]; [left; reflexivity|].
    right. eapply collect_from_incl; exact Hr. }
  assert (Hstrict : StronglySorted config_lt (collect_best sorted)).
  { destruct sorted as [|x l]; [constructor|].
    rewrite collect_best_cons.
    destruct (collect_from_increasing l x Hsorted) as [Hall Hs].
    constructor; assumption. }
  split; [exact Hsorted|]. split; [exact Hstrict|].
  split; [|split; [|split; [|split]]].
  - destruct sorted as [|x l]; [intros r []|].
    intros r Hr. rewrite collect_best_cons in Hr.
    destruct Hr as [->|Hr].
    + exists [], l. split; [reflexivity | constructor].
    + destruct (collect_from_first l x Hsorted r Hr) as [pre [post [-> Hpre]]].
      exists (x :: pre), post. split; [reflexivity | exact Hpre].
  - intros b Hb.
    apply (Permutation_in _ Hperm) in Hb.
    destruct sorted as [|x l]; [contradiction|].
    destruct (collect_from_covers l x Hsorted b Hb) as [r [Hr [Hsame Hq]]].
    rewrite <- collect_best_cons in Hr.
    exists r. split; [apply filter_config_unique; assumption|].
    split; [exact Hsame|]. split; [|exact Hq].
    apply (Permutation_in _ (Permutation_sym Hperm)). apply Hincl. exact Hr.
  - intros r Hr.
    apply (Permutation_in _ (Permutation_sym Hperm)). apply Hincl. exact Hr.
  - split; [|split; [|reflexivity]].
    + apply std_sort_perm.
    + apply std_sort_sorted;
        [exact benchmark_lt_asym | exact benchmark_lt_negtrans].
  - vm_compute. reflexivity.
Qed.

Lemma reducer_keeps_best_of_each_config_witness :
  exists r,
    filter (same_config (trial 5 5 1))
           (collect_best [trial 5 5 3; trial 5 5 1; trial 5 6 2]) = [r] /\
    same_config (trial 5 5 1) r = true /\
    In r [trial 5 5 1; trial 5 5 3; trial 5 6 2] /\
    (gflops (trial 5 5 1) <= gflops r)%Q.
Proof.
  assert (Hperm : Permutation [trial 5 5 1; trial 5 5 3; trial 5 6 2]
                              [trial 5 5 3; trial 5 5 1; trial 5 6 2])
    by apply perm_swap.
  assert (Hsorted : sorted_by benchmark_lt
                      [trial 5 5 3; trial 5 5 1; trial 5 6 2])
    by (repeat constructor).
  destruct (reducer_keeps_best_of_each_config _ _ Hperm Hsorted)
    as [_ [_ [_ [Hbest _]]]].
  apply Hbest. left. reflexivity.
Defined.

(** ** Order statistics of the clock probe *)

Lemma Qlt_bool_asym (x y : Q) : Qlt_bool x y = true -> Qlt_bool y x = false.
Proof.
  rewrite Qlt_bool_iff, Qlt_bool_false_iff. apply Qlt_le_weak.
Qed.

Lemma Qlt_bool_negtrans (x y z : Q) :
  Qlt_bool x y = false -> Qlt_bool y z = false -> Qlt_bool x z = false.
Proof.
  rewrite !Qlt_bool_false_iff. intros H1 H2. eapply Qle_trans; eassumption.
Qed.

Lemma sorted_floats_inv (x : Q) (l : list Q) :
  sorted_by Qlt_bool (x :: l) ->
  sorted_by Qlt_bool l /\ forall y, In y l -> (x <= y)%Q.
Proof.
  unfold sorted_by. intros H. apply StronglySorted_inv in H.
  destruct H as [Hl Hx]. split; [exact Hl|].
  rewrite Forall_forall in Hx. intros y Hy.
  apply Qlt_bool_false_iff. apply Hx. exact Hy.
Qed.

Lemma Forall2_Qle_refl (l : list Q) : Forall2 Qle l l.
Proof. induction l; constructor; [apply Qle_refl | assumption]. Qed.

(** Inserting a value not below the head moves every position up. *)
Lemma insert_dominates (y : Q) (t : list Q) :
  forall h, (h <= y)%Q -> sorted_by Qlt_bool (h :: t) ->
    Forall2 Qle (h :: t) (insert_sorted Qlt_bool y t).
Proof.
  induction t as [|u t IH]; intros h Hhy Hs; cbn [insert_sorted].
  - constructor; [exact Hhy | constructor].
  - apply sorted_floats_inv in Hs. destruct Hs as [Hut Hh].
    destruct (Qlt_bool u y) eqn:E.
    + constructor; [apply Hh; left; reflexivity|].
      apply IH; [|exact Hut].
      apply Qlt_le_weak. apply Qlt_bool_iff. exact E.
    + constructor; [exact Hhy | apply Forall2_Qle_refl].
Qed.

Section OrderStatistics.
Variable R : Q -> Q -> Prop.
Hypothesis le_R : forall a b c, (a <= b)%Q -> R b c -> R a c.
Hypothesis R_le : forall a b c, R a b -> (b <= c)%Q -> R a c.

Lemma Forall2_R_le (l1 l2 l3 : list Q) :
  Forall2 R l1 l2 -> Forall2 Qle l2 l3 -> Forall2 R l1 l3.
Proof.
  intros H12. revert l3.
  induction H12 as [|a b l1 l2 Hab _ IH]; intros l3 H23;
    inversion H23; subst; constructor.
  - eapply R_le; eassumption.
  - apply IH. assumption.
Qed.

Lemma insert_below (x : Q) (t1 t2 : list Q) :
  Forall2 R t1 t2 ->
  forall h2, R x h2 -> sorted_by Qlt_bool (h2 :: t2) ->
    Forall2 R (insert_sorted Qlt_bool x t1) (h2 :: t2).
Proof.
  induction 1 as [|u v t1 t2 Huv Ht IH]; intros h2 Hx Hs;
    cbn [insert_sorted].
  - constructor; [exact Hx | constructor].
  - apply sorted_floats_inv in Hs. destruct Hs as [Hvt Hh2].
    destruct (Qlt_bool u x) eqn:E.
    + constructor.
      * apply (le_R u x h2); [|exact Hx].
        apply Qlt_le_weak. apply Qlt_bool_iff. exact E.
      * apply IH; [|exact Hvt].
        apply (R_le x h2 v); [exact Hx | apply Hh2; left; reflexivity].
    + constructor; [exact Hx|]. constructor; assumption.
Qed.

Lemma insert_mono (l1 l2 : list Q) :
  Forall2 R l1 l2 ->
  forall x y, R x y ->
    sorted_by Qlt_bool l1 -> sorted_by Qlt_bool l2 ->
    Forall2 R (insert_sorted Qlt_bool x l1) (insert_sorted Qlt_bool y l2).
Proof.
  induction 1 as [|h1 h2 t1 t2 Hh Ht IH]; intros x y Hxy Hs1 Hs2;
    cbn [insert_sorted].
  - constructor; [exact Hxy | constructor].
  - pose proof (sorted_floats_inv _ _ Hs1) as [Hs1' _].
    pose proof (sorted_floats_inv _ _ Hs2) as [Hs2' _].
    destruct (Qlt_bool h1 x) eqn:E1; destruct (Qlt_bool h2 y) eqn:E2.
    + constructor; [exact Hh | apply IH; assumption].
    + apply Qlt_bool_iff in E1. apply Qlt_bool_false_iff in E2.
      constructor.
      * apply (le_R h1 x y); [apply Qlt_le_weak; exact E1 | exact Hxy].
      * apply insert_below; [exact Ht | | exact Hs2].
        apply (R_le x y h2); assumption.
    + apply Qlt_bool_false_iff in E1. apply Qlt_bool_iff in E2.
      constructor.
      * apply (le_R x h1 h2); assumption.
      * apply (Forall2_R_le (h1 :: t1) (h2 :: t2)).
        -- constructor; assumption.
        -- apply insert_dominates; [apply Qlt_le_weak; exact E2 | exact Hs2].
    + constructor; [exact Hxy|]. constructor; assumption.
Qed.

Lemma std_sort_mono (l1 l2 : list Q) :
  Forall2 R l1 l2 ->
  Forall2 R (std_sort Qlt_bool l1) (std_sort Qlt_bool l2).
Proof.
  induction 1 as [|x y l1 l2 Hxy Hl IH]; [constructor|].
  unfold std_sort in *. cbn [fold_right].
  apply insert_mono; [exact IH | exact Hxy | |];
    apply (std_sort_sorted Qlt_bool Qlt_bool_asym Qlt_bool_negtrans).
Qed.

Lemma Forall2_nth (l1 l2 : list Q) :
  Forall2 R l1 l2 ->
  forall i d1 d2, (i < length l1)%nat -> R (nth i l1 d1) (nth i l2 d2).
Proof.
  induction 1 as [|x y l1 l2 Hxy Hl IH]; intros i d1 d2 Hi;
    cbn [length] in Hi; [lia|].
  destruct i as [|i]; cbn [nth]; [exact Hxy|].
  apply IH. lia.
Qed.
End OrderStatistics.

(** ** The clock probe *)

Lemma probe_benchmark_fields (w : World) :
  compact_product_size (probe_benchmark w) = compact_size_triple 128 128 128 /\
  compact_block_size (probe_benchmark w) = 0 /\
  use_default_block_size (probe_benchmark w) = true /\
  gflops (probe_benchmark w) = 0%Q /\
  min_working_set_size (probe_benchmark w) = 1 /\
  min_accurate_time (probe_benchmark w) = (1 # 10)%Q.
Proof. repeat split. Qed.

Lemma run_probe (e : Env) (w : World) :
  run e (probe_benchmark w) w
  = match probe_measurement e (run_count w) with
    | Some g => Ret (set_gflops (probe_benchmark w) g) (after_probes 1 w)
    | None => Undefined
    end.
Proof.
  unfold run, probe_measurement.
  change (min_accurate_time (probe_benchmark w)) with (1 # 10)%Q.
  pose proof (adaptive_timer_fuel (batch_cpu_time e (run_count w)) (1 # 10))
    as Hfuel.
  destruct (adaptive_timer (batch_cpu_time e (run_count w)) (1 # 10));
    [reflexivity | reflexivity | contradiction].
Qed.

Lemma after_probes_step (count : nat) (w : World) :
  after_probes count (after_probes 1 w) = after_probes (S count) w.
Proof.
  unfold after_probes. cbn [g_min_working_set_size eigen_block_size_k
    eigen_block_size_m eigen_block_size_n events time_reads
    eigen_use_specific_block_size].
  change (probe_benchmark (after_probes 1 w)) with (probe_benchmark w).
  f_equal.
  - destruct count; reflexivity.
  - change (repeat (EvRun (probe_benchmark w)) 1 ++ events w)
      with ([EvRun (probe_benchmark w)] ++ events w).
    rewrite app_assoc, <- repeat_cons. reflexivity.
Qed.

Lemma run_count_after_probes (count : nat) (w : World) :
  run_count (after_probes count w) = (count + run_count w)%nat.
Proof.
  unfold run_count, after_probes. cbn [events].
  rewrite filter_app, length_app. f_equal.
  induction count as [|count IH]; [reflexivity|].
  cbn [repeat filter is_run length]. now rewrite IH.
Qed.

Lemma measure_loop_spec (e : Env) (count : nat) :
  forall all_gflops w,
    measure_loop e count all_gflops w
    = match probe_measurements e (run_count w) count with
      | Some gs => Ret (all_gflops ++ gs) (after_probes count w)
      | None => Undefined
      end.
Proof.
  induction count as [|count IH]; intros acc w.
  - cbn [measure_loop probe_measurements]. unfold ret.
    rewrite app_nil_r. f_equal. destruct w; reflexivity.
  - cbn [measure_loop probe_measurements]. unfold bind at 1.
    rewrite run_probe.
    destruct (probe_measurement e (run_count w)) as [g|]; [|reflexivity].
    rewrite IH, run_count_after_probes. cbn [Nat.add gflops set_gflops].
    destruct (probe_measurements e (S (run_count w)) count) as [gs|];
      cbn [option_map]; [|reflexivity].
    rewrite after_probes_step, <- app_assoc. reflexivity.
Qed.

Lemma measure_clock_speed_spec (e : Env) (w : World) :
  measure_clock_speed e w
  = match probe_estimate e (run_count w) with
    | Some c => Ret c (after_probes 8 w)
    | None => Undefined
    end.
Proof.
  unfold measure_clock_speed, probe_estimate, bind.
  rewrite measure_loop_spec.
  destruct (probe_measurements e (run_count w) 8); reflexivity.
Qed.

Lemma probe_measurements_length (e : Env) (count : nat) :
  forall start gs,
    probe_measurements e start count = Some gs -> length gs = count.
Proof.
  induction count as [|count IH]; intros start gs H;
    cbn [probe_measurements] in H.
  - injection H as <-. reflexivity.
  - destruct (probe_measurement e start); [|discriminate].
    destruct (probe_measurements e (S start) count) as [gs'|] eqn:E;
      [|discriminate].
    injection H as <-. cbn [length]. f_equal. eapply IH; exact E.
Qed.

Lemma sorted_eight (gs : list Q) :
  length gs = 8%nat ->
  exists s0 s1 s2 s3 s4 s5 s6 s7,
    std_sort Qlt_bool gs = [s0; s1; s2; s3; s4; s5; s6; s7] /\
    Permutation gs [s0; s1; s2; s3; s4; s5; s6; s7] /\
    (s0 <= s1 /\ s1 <= s2 /\ s2 <= s3 /\ s3 <= s4 /\
     s4 <= s5 /\ s5 <= s6 /\ s6 <= s7)%Q.
Proof.
  intros Hlen.
  pose proof (std_sort_perm Qlt_bool gs) as Hperm.
  pose proof (std_sort_sorted Qlt_bool Qlt_bool_asym Qlt_bool_negtrans gs)
    as Hsorted.
  pose proof (Permutation_length Hperm) as Hlen'. rewrite Hlen in Hlen'.
  destruct (std_sort Qlt_bool gs)
    as [|s0 [|s1 [|s2 [|s3 [|s4 [|s5 [|s6 [|s7 [|s8 rest]]]]]]]]];
    try discriminate Hlen'.
  exists s0, s1, s2, s3, s4, s5, s6, s7.
  split; [reflexivity|]. split; [exact Hperm|].
  repeat match goal with
         | H : sorted_by Qlt_bool (_ :: _) |- _ =>
             apply sorted_floats_inv in H;
             let Hs := fresh "Hs" in let Hx := fresh "Hx" in
             destruct H as [Hs Hx]
         end.
  repeat split;
    match goal with
    | H : forall y, In y (?b :: _) -> (?a <= y)%Q |- (?a <= ?b)%Q =>
        apply H; left; reflexivity
    end.
Qed.

(** ** The backoff loop *)




Lemma lower_below_higher (max c : Q) :
  (0 <= max)%Q -> (c < tolerance_lower_clock_speed * max)%Q ->
  Qlt_bool (tolerance_higher_clock_speed * max) c = false.
Proof.
  intros Hmax Hc. apply Qlt_bool_false_iff.
  apply Qlt_le_weak. eapply Qlt_le_trans; [exact Hc|].
  apply Qmult_le_compat_r; [discriminate | exact Hmax].
Qed.



(** ** What the scheduler changes in a trial *)

Lemma same_but_gflops_refl (b : benchmark_t) : same_but_gflops b b.
Proof. destruct b; reflexivity. Qed.

Lemma same_but_gflops_trans (b1 b2 b3 : benchmark_t) :
  same_but_gflops b1 b2 -> same_but_gflops b2 b3 -> same_but_gflops b1 b3.
Proof.
  unfold same_but_gflops. intros H12 H23. rewrite H23, H12. reflexivity.
Qed.

Lemma Forall2_same_refl (bs : list benchmark_t) :
  Forall2 same_but_gflops bs bs.
Proof.
  induction bs; constructor; [apply same_but_gflops_refl | assumption].
Qed.

Lemma Forall2_same_trans (l1 l2 l3 : list benchmark_t) :
  Forall2 same_but_gflops l1 l2 -> Forall2 same_but_gflops l2 l3 ->
  Forall2 same_but_gflops l1 l3.
Proof.
  intros H12. revert l3.
  induction H12 as [|a b l1 l2 Hab _ IH]; intros l3 H23;
    inversion H23; subst; constructor.
  - eapply same_but_gflops_trans; eassumption.
  - apply IH. assumption.
Qed.

Lemma run_frame (e : Env) (b b' : benchmark_t) (w w' : World) :
  run e b w = Ret b' w' ->
  same_but_gflops b b' /\ events w' = EvRun b :: events w.
Proof.
  unfold run. intros H.
  destruct (adaptive_timer (batch_cpu_time e (run_count w))
                           (min_accurate_time b)); try discriminate.
  injection H as <- <-. split; [reflexivity|].
  unfold log_run, feed_eigen.
  destruct (use_default_block_size b); reflexivity.
Qed.

Lemma firstn_length_app {A : Type} (l1 l2 : list A) :
  firstn (length l1) (l1 ++ l2) = l1.
Proof.
  induction l1 as [|a l1 IH]; cbn [length app firstn].
  - destruct l2; reflexivity.
  - now rewrite IH.
Qed.

Lemma skipn_S_length_app {A : Type} (l1 l2 : list A) (b : A) :
  skipn (S (length l1)) (l1 ++ b :: l2) = l2.
Proof.
  induction l1 as [|a l1 IH]; [reflexivity|]. exact IH.
Qed.

Lemma run_at_frame (e : Env) (bs bs' : list benchmark_t) (i : nat)
    (w w' : World) :
  run_at e bs i w = Ret bs' w' -> Forall2 same_but_gflops bs bs'.
Proof.
  unfold run_at. intros H.
  destruct (nth_error bs i) as [b|] eqn:E; [|discriminate].
  unfold bind in H.
  destruct (run e b w) as [b' w1| | |] eqn:Er; try discriminate.
  assert (Hupd : Forall2 same_but_gflops bs
                   (firstn i bs ++ b' :: skipn (S i) bs)).
  { apply run_frame in Er. destruct Er as [Hsame _].
    apply nth_error_split in E. destruct E as [l1 [l2 [-> Hlen]]].
    subst i. rewrite firstn_length_app, skipn_S_length_app.
    apply Forall2_app; [apply Forall2_same_refl|].
    constructor; [exact Hsame | apply Forall2_same_refl]. }
  unfold ret in H. injection H as <- <-. exact Hupd.
Qed.

Lemma calibrate_frame (e : Env) (st : run_state) (time_now : Q) (i : nat)
    (w w' : World) (c : calibration) :
  calibrate e st time_now i w = Ret c w' ->
  match c with
  | Return st' => benchmarks st' = benchmarks st
  | Continue st' _ => benchmarks st' = benchmarks st
  end.
Proof.
  unfold calibrate, bind. intros H.
  destruct (measure_clock_speed e w) as [current w1| | |]; try discriminate.
  destruct (Qlt_bool (tolerance_higher_clock_speed * max_clock_speed st)
                     current).
  - unfold ret in H. injection H as <- <-. reflexivity.
  - destruct ((if Qlt_bool current
                           (tolerance_lower_clock_speed * max_clock_speed st)
               then backoff_loop 10 e (max_clock_speed st) current 1 false
               else ret (current, false)) w1) as [r w2| | |];
      try discriminate.
    destruct (snd r); unfold ret in H; injection H as <- <-; reflexivity.
Qed.

Lemma try_loop_frame (e : Env) (fuel : nat) :
  forall st time_last i w st' w',
    try_loop fuel e st time_last i w = Ret st' w' ->
    Forall2 same_but_gflops (benchmarks st) (benchmarks st').
Proof.
  induction fuel as [|fuel IH]; intros st time_last i w st' w' H;
    cbn [try_loop] in H; [discriminate|].
  unfold bind at 1 in H. unfold getRealTime in H.
  fold (after_time_read w) in H.
  unfold bind at 1 in H.
  destruct ((if (i =? length (benchmarks st))%nat
                || Qlt_bool (time_last + 60) (real_time e (time_reads w))
             then calibrate e st (real_time e (time_reads w)) i
             else ret (Continue st time_last)) (after_time_read w))
    as [c w1| | |] eqn:Ec; try discriminate.
  assert (Hc : match c with
               | Return st1 => benchmarks st1 = benchmarks st
               | Continue st1 _ => benchmarks st1 = benchmarks st
               end).
  { destruct ((i =? length (benchmarks st))%nat
              || Qlt_bool (time_last + 60) (real_time e (time_reads w))).
    - eapply calibrate_frame; exact Ec.
    - unfold ret in Ec. injection Ec as <- <-. reflexivity. }
  destruct c as [st1|st1 time_last1].
  - unfold ret in H. injection H as <- <-. rewrite Hc.
    apply Forall2_same_refl.
  - destruct (i =? length (benchmarks st1))%nat.
    + unfold ret in H. injection H as <- <-. cbn [benchmarks]. rewrite Hc.
      apply Forall2_same_refl.
    + unfold bind in H.
      destruct (run_at e (benchmarks st1) i w1) as [bs' w2| | |] eqn:Er;
        try discriminate.
      apply run_at_frame in Er. apply IH in H. cbn [benchmarks] in H.
      rewrite Hc in Er. eapply Forall2_same_trans; eassumption.
Qed.

Lemma try_run_frame (e : Env) (st st' : run_state) (w w' : World) :
  try_run_some_benchmarks e st w = Ret st' w' ->
  Forall2 same_but_gflops (benchmarks st) (benchmarks st').
Proof.
  unfold try_run_some_benchmarks. intros H.
  destruct (first_benchmark_to_run st =? length (benchmarks st))%nat.
  - unfold ret in H. injection H as <- <-. apply Forall2_same_refl.
  - eapply try_loop_frame; exact H.
Qed.

Lemma run_loop_frame (e : Env) (fuel : nat) :
  forall st w st' w',
    run_loop fuel e st w = Ret st' w' ->
    Forall2 same_but_gflops (benchmarks st) (benchmarks st').
Proof.
  induction fuel as [|fuel IH]; intros st w st' w' H; cbn [run_loop] in H;
    [discriminate|].
  destruct (first_benchmark_to_run st <? length (benchmarks st))%nat.
  - unfold bind in H.
    destruct (try_run_some_benchmarks e st w) as [st1 w1| | |] eqn:E;
      try discriminate.
    apply try_run_frame in E. apply IH in H.
    eapply Forall2_same_trans; eassumption.
  - unfold ret in H. injection H as <- <-. apply Forall2_same_refl.
Qed.

(** Claim C9, as the code has it.  A trial is created with throughput 0.
    [run] returns unless its timer overflows, and changes the trial in its
    throughput field only: both keys, the default-block flag and the two
    per-trial overrides are kept.  The scheduler changes the trials of its
    list through [run] only: after any call of [try_run_some_benchmarks],
    and after the whole loop of [run_benchmarks], each position of the list
    holds the trial it held before, up to its throughput.  (A trial may be
    run, and its throughput overwritten, more than once.) *)
Theorem run_changes_only_gflops (e : Env) :
  (forall g pk pm pn bk bm bn,
     gflops (benchmark_t6 g pk pm pn bk bm bn) = 0%Q) /\
  (forall g pk pm pn, gflops (benchmark_t3 g pk pm pn) = 0%Q) /\
  (forall b w,
     run e b w
     = match adaptive_timer (batch_cpu_time e (run_count w))
                            (min_accurate_time b) with
       | Accepted _ time_per_iter =>
           Ret (set_gflops b
                  (gflops_of (size_triple_of_compact (compact_product_size b))
                             time_per_iter))
               (log_run b (feed_eigen b w))
       | IntOverflow => Undefined
       | TimerFuel => Undefined
       end) /\
  (forall b w b' w',
     run e b w = Ret b' w' ->
     compact_product_size b' = compact_product_size b /\
     compact_block_size b' = compact_block_size b /\
     use_default_block_size b' = use_default_block_size b /\
     min_working_set_size b' = min_working_set_size b /\
     min_accurate_time b' = min_accurate_time b /\
     events w' = EvRun b :: events w) /\
  (forall st w st' w',
     try_run_some_benchmarks e st w = Ret st' w' ->
     Forall2 same_but_gflops (benchmarks st) (benchmarks st')) /\
  (forall fuel st w st' w',
     run_loop fuel e st w = Ret st' w' ->
     Forall2 same_but_gflops (benchmarks st) (benchmarks st')).
Proof.
  split; [reflexivity|]. split; [reflexivity|].
  split; [|split; [|split]].
  - intros b w. unfold run.
    pose proof (adaptive_timer_fuel (batch_cpu_time e (run_count w))
                                    (min_accurate_time b)) as Hfuel.
    destruct (adaptive_timer (batch_cpu_time e (run_count w))
                             (min_accurate_time b));
      [reflexivity | reflexivity | contradiction].
  - intros b w b' w' H. apply run_frame in H. destruct H as [Hsame Hev].
    unfold same_but_gflops in Hsame. rewrite Hsame.
    repeat split. exact Hev.
  - intros st w st' w'. apply try_run_frame.
  - intros fuel st w st' w'. apply run_loop_frame.
Qed.

Lemma run_changes_only_gflops_witness :
  exists b' w',
    run (steady_env (1 # 10)) (benchmark_t3 0 16 16 16) initial_world
    = Ret b' w' /\
    compact_product_size b' = compact_product_size (benchmark_t3 0 16 16 16).
Proof.
  destruct (run_changes_only_gflops (steady_env (1 # 10)))
    as [_ [_ [_ [Hframe _]]]].
  eexists. eexists. split; [reflexivity|].
  eapply Hframe. reflexivity.
Defined.

(** Claim C9 as stated fails: a trial can be run twice.  The list holds one
    trial; the clock probe taken after its run reports a speed twice the
    best seen, so the first call of [try_run_some_benchmarks] returns with
    the first benchmark to run back at 0, and the second call runs the same
    trial again.  Its throughput goes from 0 to 0.00008192 and then to
    0.00004096. *)
Lemma trial_run_twice_after_restart :
  let b0 := benchmark_t3 0 16 16 16 in
  let st0 := {| benchmarks := [b0];
                first_benchmark_to_run := 0;
                max_clock_speed := 207 # 10 |} in
  exists st1 w1 st2 w2 b1 b2,
    try_run_some_benchmarks speedup_env st0 initial_world = Ret st1 w1 /\
    first_benchmark_to_run st1 = 0%nat /\ benchmarks st1 = [b1] /\
    try_run_some_benchmarks speedup_env st1 w1 = Ret st2 w2 /\
    first_benchmark_to_run st2 = 1%nat /\ benchmarks st2 = [b2] /\
    run_loop 3 speedup_env st0 initial_world = Ret st2 w2 /\
    (gflops b0 == 0)%Q /\
    (gflops b1 == 8192 # 100000000)%Q /\
    (gflops b2 == 4096 # 100000000)%Q /\
    ~ (gflops b1 == gflops b0)%Q /\
    ~ (gflops b2 == gflops b1)%Q /\
    filter (fun ev => match ev with
                      | EvRun b => compact_product_size b
                                   =? compact_product_size b0
                      | EvSleep _ => false
                      end) (events w2)
    = [EvRun b1; EvRun b0].
Proof.
  cbv zeta.
  do 6 eexists.
  split; [vm_compute; reflexivity|].
  split; [reflexivity|]. split; [reflexivity|].
  split; [vm_compute; reflexivity|].
  split; [reflexivity|]. split; [reflexivity|].
  split; [vm_compute; reflexivity|].
  split; [reflexivity|]. split; [reflexivity|]. split; [reflexivity|].
  split; [intros H; vm_compute in H; discriminate H|].
  split; [intros H; vm_compute in H; discriminate H|].
  vm_compute. reflexivity.
Qed.

(* ================================================================== *)
(** * Part III: further properties of the program *)
(* ================================================================== *)

(** ** The codec, seen from the keys *)

Lemma in_keys12 (key : Z) : 0 <= key < 2 ^ 12 -> In key keys12.
Proof.
  intros Hk. unfold keys12.
  rewrite <- (Z2Nat.id key) by lia.
  apply in_map, in_seq. change (2 ^ 12) with 4096 in Hk. lia.
Qed.

Lemma all_keys_roundtrip : forallb key_roundtrip_ok keys12 = true.
Proof. vm_compute. reflexivity. Qed.

(** Every key, whatever its value, decodes to a triple of powers of two
    between 1 and [2^15], and only the low 12 bits of the key matter. *)
Theorem decode_gives_valid_triple (key : Z) :
  valid_triple (size_triple_of_compact key) /\
  size_triple_of_compact key = size_triple_of_compact (key mod 2 ^ 12).
Proof.
  split.
  - unfold valid_triple, valid_dim, size_triple_of_compact. cbn [k m n].
    repeat split; eexists; (split; [|apply Z.shiftl_1_l]);
      apply field_range; (lia || reflexivity).
  - unfold size_triple_of_compact.
    assert (Hmask : forall mask, Z.land (Z.ones 12) mask = mask ->
              Z.land (key mod 2 ^ 12) mask = Z.land key mask).
    { intros mask Hm. rewrite <- Z.land_ones by lia.
      rewrite <- Z.land_assoc, Hm. reflexivity. }
    rewrite !Hmask by reflexivity. reflexivity.
Qed.

(** Encoding the triple decoded from a 12-bit key gives the key back: with
    the round trip on triples, the codec is a bijection between the 12-bit
    keys and the valid triples. *)
Theorem encode_decode_roundtrip (key : Z) :
  0 <= key < 2 ^ 12 ->
  compact_size_triple_t (size_triple_of_compact key) = key.
Proof.
  intros Hk.
  pose proof all_keys_roundtrip as H.
  rewrite forallb_forall in H. specialize (H key (in_keys12 key Hk)).
  unfold key_roundtrip_ok in H. now apply Z.eqb_eq in H.
Qed.

Lemma encode_decode_roundtrip_witness :
  compact_size_triple_t (size_triple_of_compact 0x4b7) = 0x4b7.
Proof. apply encode_decode_roundtrip. lia. Defined.

(** ** [operator<] as an order *)

(** [operator<] on trials is a strict weak ordering, as [std::sort]
    requires: irreflexive, asymmetric, transitive, with a transitive
    incomparability; two trials are incomparable exactly when they have the
    same two keys and equal throughput. *)
Theorem benchmark_lt_strict_weak_order :
  (forall x, benchmark_lt x x = false) /\
  (forall x y, benchmark_lt x y = true -> benchmark_lt y x = false) /\
  (forall x y z, benchmark_lt x y = true -> benchmark_lt y z = true ->
                 benchmark_lt x z = true) /\
  (forall x y z,
     benchmark_lt x y = false -> benchmark_lt y x = false ->
     benchmark_lt y z = false -> benchmark_lt z y = false ->
     benchmark_lt x z = false /\ benchmark_lt z x = false) /\
  (forall x y,
     (benchmark_lt x y = false /\ benchmark_lt y x = false) <->
     (same_config x y = true /\ (gflops x == gflops y)%Q)).
Proof.
  split; [|split; [|split; [|split]]].
  - intros x. apply benchmark_lt_false_iff. unfold trial_le.
    right. split; [reflexivity|]. right. split; [reflexivity|].
    apply Qle_refl.
  - exact benchmark_lt_asym.
  - intros x y z Hxy Hyz.
    destruct (benchmark_lt x z) eqn:E; [reflexivity|].
    apply benchmark_lt_asym in Hyz.
    rewrite (benchmark_lt_negtrans x z y E Hyz) in Hxy. discriminate.
  - intros x y z Hxy Hyx Hyz Hzy. split.
    + eapply benchmark_lt_negtrans; eassumption.
    + eapply benchmark_lt_negtrans; eassumption.
  - intros x y. rewrite !benchmark_lt_false_iff, same_config_iff.
    unfold trial_le. split.
    + intros [[H1|[H1 [H1'|[H1' H1q]]]] [H2|[H2 [H2'|[H2' H2q]]]]]; try lia.
      split; [split; assumption|]. apply Qle_antisym; assumption.
    + intros [[H1 H2] Hq]. split; right; (split; [congruence|]); right;
        (split; [congruence|]); rewrite Hq; apply Qle_refl.
Qed.

(** ** The adaptive timer with any kernel *)

Lemma pow2_nat_pos (j : nat) : 0 < 2 ^ Z.of_nat j.
Proof. apply Z.pow_pos_nonneg; lia. Qed.

Lemma pow2_nat_succ (j : nat) : 2 ^ Z.of_nat (S j) = 2 ^ Z.of_nat j * 2.
Proof. rewrite Nat2Z.inj_succ, Z.pow_succ_r by lia. ring. Qed.

Lemma timer_loop_outcome (elapsed : Z -> Q) (T : Q) (fuel : nat) :
  forall j0 : nat,
    (j0 <= 30)%nat -> (31 <= fuel + j0)%nat ->
    match timer_loop fuel elapsed T (2 ^ Z.of_nat j0) with
    | Accepted N time_per_iter =>
        exists j : nat,
          (j0 <= j <= 30)%nat /\ N = 2 ^ Z.of_nat j /\
          (T <= elapsed N)%Q /\
          time_per_iter = (elapsed N / inject_Z N)%Q /\
          (forall j' : nat, (j0 <= j' < j)%nat ->
                            (elapsed (2 ^ Z.of_nat j')%Z < T)%Q)
    | IntOverflow =>
        forall j' : nat, (j0 <= j' <= 30)%nat ->
                         (elapsed (2 ^ Z.of_nat j')%Z < T)%Q
    | TimerFuel => False
    end.
Proof.
  induction fuel as [|fuel IH]; intros j0 Hj0 Hfuel; [lia|].
  cbn [timer_loop].
  destruct (Qle_bool T (elapsed (2 ^ Z.of_nat j0))) eqn:E.
  - exists j0. split; [lia|]. split; [reflexivity|].
    split; [apply Qle_bool_iff; exact E|]. split; [reflexivity|].
    intros j' Hj'. lia.
  - apply Qle_bool_false in E.
    rewrite <- pow2_nat_succ.
    destruct (Z.ltb_spec INT_MAX (2 ^ Z.of_nat (S j0))) as [Hov|Hok].
    + assert (j0 = 30%nat).
      { destruct (Nat.eq_dec j0 30) as [|Hne]; [assumption|].
        assert (2 ^ Z.of_nat (S j0) <= 2 ^ 30)
          by (apply Z.pow_le_mono_r; lia).
        unfold INT_MAX in Hov. change (2 ^ 31) with (2 * 2 ^ 30) in Hov.
        assert (0 < 2 ^ 30) by reflexivity. lia. }
      subst j0. intros j' Hj'. assert (j' = 30%nat) by lia. subst j'.
      exact E.
    + assert (j0 < 30)%nat.
      { destruct (Nat.eq_dec j0 30) as [->|Hne]; [|lia].
        unfold INT_MAX in Hok. simpl in Hok. lia. }
      specialize (IH (S j0) ltac:(lia) ltac:(lia)).
      destruct (timer_loop fuel elapsed T (2 ^ Z.of_nat (S j0)))
        as [N tpi| |]; [| |exact IH].
      * destruct IH as [j [Hj [HN [Hacc [Htpi Hmin]]]]].
        exists j. split; [lia|]. split; [exact HN|].
        split; [exact Hacc|]. split; [exact Htpi|].
        intros j' Hj'.
        destruct (Nat.eq_dec j' j0) as [->|Hne]; [exact E|].
        apply Hmin. lia.
      * intros j' Hj'.
        destruct (Nat.eq_dec j' j0) as [->|Hne]; [exact E|].
        apply IH. lia.
Qed.

Lemma adaptive_timer_cases (elapsed : Z -> Q) (T : Q) :
  match adaptive_timer elapsed T with
  | Accepted N time_per_iter =>
      exists j : nat,
        (j <= 30)%nat /\ N = 2 ^ Z.of_nat j /\
        (T <= elapsed N)%Q /\
        time_per_iter = (elapsed N / inject_Z N)%Q /\
        (forall j' : nat, (j' < j)%nat -> (elapsed (2 ^ Z.of_nat j')%Z < T)%Q)
  | IntOverflow =>
      forall j' : nat, (j' <= 30)%nat -> (elapsed (2 ^ Z.of_nat j')%Z < T)%Q
  | TimerFuel => False
  end.
Proof.
  unfold adaptive_timer.
  pose proof (timer_loop_outcome elapsed T 32 0 ltac:(lia) ltac:(lia)) as H.
  change (2 ^ Z.of_nat 0) with 1 in H.
  destruct (timer_loop 32 elapsed T 1) as [N tpi| |]; [| |exact H].
  - destruct H as [j [Hj [HN [Hacc [Htpi Hmin]]]]].
    exists j. split; [lia|]. split; [exact HN|].
    split; [exact Hacc|]. split; [exact Htpi|].
    intros j' Hj'. apply Hmin. lia.
  - intros j' Hj'. apply H. lia.
Qed.

(** Whatever the durations of the batches, the timer tries the iteration
    counts 1, 2, 4, ... in turn and accepts the first whose batch lasts at
    least the threshold; the time per iteration is that batch's duration
    over its count.  It fails only by overflow, when no count up to [2^30]
    has a batch that long; the 32 iterations of the model always suffice. *)
Theorem adaptive_timer_outcome (elapsed : Z -> Q) (T : Q) :
  match adaptive_timer elapsed T with
  | Accepted N time_per_iter =>
      exists j : nat,
        (j <= 30)%nat /\ N = 2 ^ Z.of_nat j /\
        (T <= elapsed N)%Q /\
        time_per_iter = (elapsed N / inject_Z N)%Q /\
        (forall j' : nat, (j' < j)%nat -> (elapsed (2 ^ Z.of_nat j')%Z < T)%Q)
  | IntOverflow =>
      forall j' : nat, (j' <= 30)%nat -> (elapsed (2 ^ Z.of_nat j')%Z < T)%Q
  | TimerFuel => False
  end.
Proof. apply adaptive_timer_cases. Qed.

Lemma gflops_of_pos (p : size_triple_t) (t : Q) :
  1 <= k p -> 1 <= m p -> 1 <= n p -> (0 < t)%Q -> (0 < gflops_of p t)%Q.
Proof.
  intros Hk Hm Hn Ht. unfold gflops_of, Qdiv.
  assert (Hpos : forall z, 1 <= z -> (0 < inject_Z z)%Q)
    by (intros z Hz; rewrite <- (Zlt_Qlt 0); lia).
  repeat apply Qmult_lt_0_compat; try (apply Hpos; assumption).
  - reflexivity.
  - apply Qinv_lt_0_compat. exact Ht.
Qed.

Lemma run_positive (e : Env) (b b' : benchmark_t) (w w' : World) :
  (0 < min_accurate_time b)%Q ->
  run e b w = Ret b' w' ->
  (0 < gflops b')%Q.
Proof.
  intros HT Hrun. unfold run in Hrun.
  pose proof (adaptive_timer_cases (batch_cpu_time e (run_count w))
                                   (min_accurate_time b)) as Hout.
  destruct (adaptive_timer (batch_cpu_time e (run_count w))
                           (min_accurate_time b)) as [N tpi| |];
    try discriminate.
  injection Hrun as <- <-. cbn [gflops set_gflops].
  destruct Hout as [j [_ [HN [Hacc [Htpi _]]]]].
  destruct (decoded_dims_range (compact_product_size b)) as [Hk [Hm Hn]].
  apply gflops_of_pos; try lia.
  subst tpi. unfold Qdiv. apply Qmult_lt_0_compat.
  - eapply Qlt_le_trans; eassumption.
  - apply Qinv_lt_0_compat. rewrite <- (Zlt_Qlt 0). subst N.
    apply pow2_nat_pos.
Qed.

(** A run that returns with a positive threshold leaves a positive
    throughput in the trial. *)
Theorem run_gives_positive_gflops (e : Env) (b b' : benchmark_t)
    (w w' : World) :
  (0 < min_accurate_time b)%Q ->
  run e b w = Ret b' w' ->
  (0 < gflops b')%Q.
Proof. apply run_positive. Qed.

Lemma run_gives_positive_gflops_witness :
  exists b' w',
    run (steady_env (1 # 10)) (benchmark_t3 0 16 16 16) initial_world
    = Ret b' w' /\ (0 < gflops b')%Q.
Proof.
  eexists. eexists. split; [reflexivity|].
  eapply (run_gives_positive_gflops (steady_env (1 # 10))
            (benchmark_t3 0 16 16 16) _ initial_world);
    reflexivity.
Defined.

Lemma run_steady (e : Env) (b : benchmark_t) (w : World) (C : Q) :
  batch_cpu_time e (run_count w) = (fun iters => inject_Z iters * C)%Q ->
  (0 < C)%Q -> (0 < min_accurate_time b)%Q ->
  (min_accurate_time b <= inject_Z (2 ^ 30) * C)%Q ->
  exists g,
    run e b w = Ret (set_gflops b g) (log_run b (feed_eigen b w)) /\
    (g == gflops_of (size_triple_of_compact (compact_product_size b)) C)%Q.
Proof.
  intros Hk HC HT Hreach. unfold run. rewrite Hk. unfold adaptive_timer.
  destruct (timer_loop_accepts C (min_accurate_time b) 32 1 30)
    as [j [Hj [Hrun [Hacc Hmin]]]];
    [lia | lia | unfold INT_MAX; simpl; lia | exact Hreach |].
  rewrite Hrun. eexists. split; [reflexivity|].
  unfold gflops_of.
  assert (Hnz : ~ (inject_Z (1 * 2 ^ Z.of_nat j) == 0)%Q).
  { intros H0. apply (Qlt_irrefl 0).
    rewrite <- H0 at 2. rewrite <- (Zlt_Qlt 0).
    pose proof (pow2_nat_pos j). lia. }
  assert (HCnz : ~ (C == 0)%Q).
  { intros H0. rewrite H0 in HC. exact (Qlt_irrefl 0 HC). }
  field. split; assumption.
Qed.

(** With a kernel of fixed cost [C] per call, the throughput a run reports
    is the flop count [2 k m n] over [C], in billions per second, whatever
    the threshold (as long as [2^30] calls reach it). *)
Theorem run_of_steady_kernel (e : Env) (b : benchmark_t) (w : World) (C : Q) :
  batch_cpu_time e (run_count w) = (fun iters => inject_Z iters * C)%Q ->
  (0 < C)%Q -> (0 < min_accurate_time b)%Q ->
  (min_accurate_time b <= inject_Z (2 ^ 30) * C)%Q ->
  exists g,
    run e b w = Ret (set_gflops b g) (log_run b (feed_eigen b w)) /\
    (g == gflops_of (size_triple_of_compact (compact_product_size b)) C)%Q.
Proof. apply run_steady. Qed.

Lemma run_of_steady_kernel_witness :
  exists g,
    run (steady_env (1 # 1000)) (benchmark_t3 0 16 16 16) initial_world
    = Ret (set_gflops (benchmark_t3 0 16 16 16) g)
          (log_run (benchmark_t3 0 16 16 16)
                   (feed_eigen (benchmark_t3 0 16 16 16) initial_world)) /\
    (g == 8192 # 1000000)%Q.
Proof.
  destruct (run_of_steady_kernel (steady_env (1 # 1000))
              (benchmark_t3 0 16 16 16) initial_world (1 # 1000))
    as [g [Hrun Hg]]; try reflexivity.
  - vm_compute. discriminate.
  - exists g. split; [exact Hrun|]. rewrite Hg. reflexivity.
Defined.

(** ** The clock probe: order of the measurements, steady kernels *)

Lemma Forall2_Qeq_of_Qle (l1 l2 : list Q) :
  Forall2 Qle l1 l2 -> Forall2 Qle l2 l1 -> Forall2 Qeq l1 l2.
Proof.
  intros H. induction H as [|a b l1 l2 Hab _ IH]; intros H';
    inversion H'; subst; constructor.
  - apply Qle_antisym; assumption.
  - apply IH. assumption.
Qed.

Lemma Forall2_Qle_of_Qeq (l1 l2 : list Q) :
  Forall2 Qeq l1 l2 -> Forall2 Qle l1 l2 /\ Forall2 Qle l2 l1.
Proof.
  induction 1 as [|a b l1 l2 Hab _ [IH1 IH2]]; split; constructor;
    try assumption; rewrite Hab; apply Qle_refl.
Qed.

Lemma Forall2_Qeq_refl (l : list Q) : Forall2 Qeq l l.
Proof. induction l; constructor; [reflexivity | assumption]. Qed.

Lemma Forall2_Qeq_trans (l1 l2 l3 : list Q) :
  Forall2 Qeq l1 l2 -> Forall2 Qeq l2 l3 -> Forall2 Qeq l1 l3.
Proof.
  intros H. revert l3. induction H as [|a b l1 l2 Hab _ IH]; intros l3 H';
    inversion H'; subst; constructor.
  - etransitivity; eassumption.
  - apply IH. assumption.
Qed.

Lemma insert_sorted_Qeq (x : Q) (l1 l2 : list Q) :
  sorted_by Qlt_bool l1 -> sorted_by Qlt_bool l2 -> Forall2 Qeq l1 l2 ->
  Forall2 Qeq (insert_sorted Qlt_bool x l1) (insert_sorted Qlt_bool x l2).
Proof.
  intros Hs1 Hs2 H. apply Forall2_Qle_of_Qeq in H. destruct H as [H12 H21].
  apply Forall2_Qeq_of_Qle;
    apply (insert_mono Qle);
    try (intros a b c; apply Qle_trans); try assumption; apply Qle_refl.
Qed.

(** Two insertions commute, up to the equality of the rationals. *)
Lemma insert_sorted_swap (x y : Q) (s : list Q) :
  Forall2 Qeq (insert_sorted Qlt_bool x (insert_sorted Qlt_bool y s))
              (insert_sorted Qlt_bool y (insert_sorted Qlt_bool x s)).
Proof.
  assert (Hbase : forall t,
             Forall2 Qeq
               (if Qlt_bool y x then y :: x :: t else x :: y :: t)
               (if Qlt_bool x y then x :: y :: t else y :: x :: t)).
  { intros t.
    destruct (Qlt_bool y x) eqn:Eyx; destruct (Qlt_bool x y) eqn:Exy.
    - apply Qlt_bool_asym in Eyx. congruence.
    - apply Forall2_Qeq_refl.
    - apply Forall2_Qeq_refl.
    - apply Qlt_bool_false_iff in Eyx, Exy.
      assert (x == y)%Q by (apply Qle_antisym; assumption).
      constructor; [assumption|]. constructor; [symmetry; assumption|].
      apply Forall2_Qeq_refl. }
  induction s as [|h t IH]; cbn [insert_sorted].
  - apply Hbase.
  - destruct (Qlt_bool h y) eqn:Ehy; destruct (Qlt_bool h x) eqn:Ehx;
      cbn [insert_sorted]; rewrite ?Ehy, ?Ehx.
    + constructor; [reflexivity | exact IH].
    + assert (Exy : Qlt_bool x y = true).
      { apply Qlt_bool_iff. apply Qlt_bool_iff in Ehy.
        apply Qlt_bool_false_iff in Ehx. eapply Qle_lt_trans; eassumption. }
      rewrite Exy. cbn [insert_sorted].
      apply Forall2_Qeq_refl.
    + assert (Eyx : Qlt_bool y x = true).
      { apply Qlt_bool_iff. apply Qlt_bool_iff in Ehx.
        apply Qlt_bool_false_iff in Ehy. eapply Qle_lt_trans; eassumption. }
      rewrite Eyx. cbn [insert_sorted].
      apply Forall2_Qeq_refl.
    + apply Hbase.
Qed.

Lemma std_sort_permutation (l1 l2 : list Q) :
  Permutation l1 l2 ->
  Forall2 Qeq (std_sort Qlt_bool l1) (std_sort Qlt_bool l2).
Proof.
  pose proof (std_sort_sorted Qlt_bool Qlt_bool_asym Qlt_bool_negtrans)
    as Hsorted.
  induction 1 as [|x l1 l2 _ IH|x y l|l1 l2 l3 _ IH1 _ IH2].
  - constructor.
  - unfold std_sort in *. cbn [fold_right].
    apply insert_sorted_Qeq; [apply Hsorted | apply Hsorted | exact IH].
  - unfold std_sort. cbn [fold_right]. apply insert_sorted_swap.
  - eapply Forall2_Qeq_trans; eassumption.
Qed.

Lemma std_sort_of_sorted (s : list Q) :
  sorted_by Qlt_bool s -> std_sort Qlt_bool s = s.
Proof.
  induction s as [|x s IH]; intros Hs; [reflexivity|].
  apply sorted_floats_inv in Hs. destruct Hs as [Hs Hx].
  unfold std_sort in *. cbn [fold_right]. rewrite (IH Hs).
  destruct s as [|y s]; [reflexivity|].
  cbn [insert_sorted].
  assert (E : Qlt_bool y x = false).
  { apply Qlt_bool_false_iff. apply Hx. left. reflexivity. }
  rewrite E. reflexivity.
Qed.

Lemma stable_estimate_Qeq (l1 l2 : list Q) :
  Forall2 Qeq l1 l2 -> (stable_estimate l1 == stable_estimate l2)%Q.
Proof.
  intros H. unfold stable_estimate.
  assert (Hn : forall i, (nth i l1 0 == nth i l2 0)%Q).
  { clear -H. induction H as [|a b l1 l2 Hab _ IH]; intros i.
    - reflexivity.
    - destruct i; cbn [nth]; [exact Hab | apply IH]. }
  rewrite (Hn 2%nat), (Hn 3%nat), (Hn 4%nat), (Hn 5%nat). reflexivity.
Qed.

(** The estimate does not depend on the order in which the eight
    measurements were taken, nor on the sorting algorithm: whenever the
    measurements are, in some order, [q0 <= q1 <= ... <= q7], the estimate
    is 123.456 times [q2 + q3 + q4 + q5].  The two lowest and the two
    highest values have no influence on it. *)
Theorem clock_estimate_order_free (gs : list Q) (q0 q1 q2 q3 q4 q5 q6 q7 : Q) :
  Permutation gs [q0; q1; q2; q3; q4; q5; q6; q7] ->
  (q0 <= q1 /\ q1 <= q2 /\ q2 <= q3 /\ q3 <= q4 /\
   q4 <= q5 /\ q5 <= q6 /\ q6 <= q7)%Q ->
  (clock_estimate gs == (q2 + q3 + q4 + q5) * (123456 # 1000))%Q.
Proof.
  intros Hperm (H01 & H12 & H23 & H34 & H45 & H56 & H67).
  assert (Hs : sorted_by Qlt_bool [q0; q1; q2; q3; q4; q5; q6; q7]).
  { unfold sorted_by.
    repeat (constructor;
            [|rewrite Forall_forall; intros y Hy;
              apply Qlt_bool_false_iff; cbn [In] in Hy;
              repeat (destruct Hy as [<-|Hy];
                      [repeat (try assumption;
                               first [apply Qle_refl
                                     |eapply Qle_trans; [eassumption|]])|]);
              try contradiction]).
    constructor. }
  unfold clock_estimate.
  rewrite (stable_estimate_Qeq _ _ (std_sort_permutation _ _ Hperm)).
  rewrite (std_sort_of_sorted _ Hs). reflexivity.
Qed.

Lemma clock_estimate_order_free_witness :
  (clock_estimate [5; 1; 8; 2; 7; 3; 6; 4] == (3 + 4 + 5 + 6) * (123456 # 1000))%Q.
Proof.
  apply (clock_estimate_order_free [5; 1; 8; 2; 7; 3; 6; 4]%Q
           1%Q 2%Q 3%Q 4%Q 5%Q 6%Q 7%Q 8%Q).
  - apply Permutation_sym.
    apply (Permutation_trans
             (std_sort_perm Qlt_bool [1; 2; 3; 4; 5; 6; 7; 8]%Q)).
    change (std_sort Qlt_bool [1; 2; 3; 4; 5; 6; 7; 8]%Q)
      with (std_sort Qlt_bool [5; 1; 8; 2; 7; 3; 6; 4]%Q).
    apply Permutation_sym. apply std_sort_perm.
  - repeat split; discriminate.
Defined.

Lemma Qlt_bool_irrefl (x : Q) : Qlt_bool x x = false.
Proof. apply Qlt_bool_false_iff. apply Qle_refl. Qed.

Lemma sorted_repeat (g : Q) (count : nat) :
  sorted_by Qlt_bool (repeat g count).
Proof.
  unfold sorted_by. induction count as [|count IH]; cbn [repeat];
    constructor; [exact IH|].
  rewrite Forall_forall. intros y Hy. apply repeat_spec in Hy. subst y.
  apply Qlt_bool_irrefl.
Qed.

Lemma steady_probe_measurement (e : Env) (C : Q) :
  (forall i, batch_cpu_time e i = (fun iters => inject_Z iters * C)%Q) ->
  (0 < C)%Q -> ((1 # 10) <= inject_Z (2 ^ 30) * C)%Q ->
  exists g,
    (forall i, probe_measurement e i = Some g) /\
    (g == gflops_of probe_sizes C)%Q.
Proof.
  intros Hk HC Hreach.
  destruct (timer_loop_accepts C (1 # 10) 32 1 30)
    as [j [Hj [Hrun [Hacc Hmin]]]];
    [lia | lia | unfold INT_MAX; simpl; lia | exact Hreach |].
  eexists. split.
  - intros i. unfold probe_measurement, adaptive_timer.
    rewrite Hk, Hrun. reflexivity.
  - unfold gflops_of.
    assert (Hnz : ~ (inject_Z (1 * 2 ^ Z.of_nat j) == 0)%Q).
    { intros H0. apply (Qlt_irrefl 0).
      rewrite <- H0 at 2. rewrite <- (Zlt_Qlt 0).
      pose proof (pow2_nat_pos j). lia. }
    assert (HCnz : ~ (C == 0)%Q).
    { intros H0. rewrite H0 in HC. exact (Qlt_irrefl 0 HC). }
    field. split; assumption.
Qed.

(** With a kernel of fixed cost [C] per call, every clock probe returns the
    same estimate, four times the throughput of the 128 x 128 x 128 product
    times 123.456, that is [4 * (2e-9 * 128^3 / C) * 123.456]. *)
Theorem probe_of_steady_kernel (e : Env) (C : Q) (start : nat) :
  (forall i, batch_cpu_time e i = (fun iters => inject_Z iters * C)%Q) ->
  (0 < C)%Q -> ((1 # 10) <= inject_Z (2 ^ 30) * C)%Q ->
  exists c,
    probe_estimate e start = Some c /\
    (c == 4 * ((2 # 1000000000) * 2097152 / C) * (123456 # 1000))%Q.
Proof.
  intros Hk HC Hreach.
  destruct (steady_probe_measurement e C Hk HC Hreach) as [g [Hm Hg]].
  exists (clock_estimate (repeat g 8)). split.
  - unfold probe_estimate. cbn [probe_measurements].
    rewrite !Hm. reflexivity.
  - unfold clock_estimate.
    rewrite (std_sort_of_sorted _ (sorted_repeat g 8)).
    unfold stable_estimate. cbn [repeat nth]. rewrite Hg.
    unfold gflops_of.
    assert (HCnz : ~ (C == 0)%Q).
    { intros H0. rewrite H0 in HC. exact (Qlt_irrefl 0 HC). }
    change (inject_Z (k probe_sizes)) with (128 # 1)%Q.
    change (inject_Z (m probe_sizes)) with (128 # 1)%Q.
    change (inject_Z (n probe_sizes)) with (128 # 1)%Q.
    field. exact HCnz.
Qed.

Lemma probe_of_steady_kernel_witness :
  exists c,
    probe_estimate (steady_env (1 # 10)) 0 = Some c /\
    (c == 4 * ((2 # 1000000000) * 2097152 / (1 # 10)) * (123456 # 1000))%Q.
Proof.
  apply (probe_of_steady_kernel (steady_env (1 # 10)) (1 # 10) 0).
  - intros i. reflexivity.
  - reflexivity.
  - vm_compute. discriminate.
Defined.

(** ** The clock-speed check *)

Lemma sleep_then_probe (e : Env) (seconds : Z) (w : World)
    (f : Q -> M (Q * bool)) :
  (sleep seconds ;;; (current <- measure_clock_speed e ;; f current)) w
  = match probe_estimate e (run_count w) with
    | Some c => f c (after_probes 8 (after_sleep seconds w))
    | None => Undefined
    end.
Proof.
  unfold bind at 1. unfold sleep. fold (after_sleep seconds w).
  unfold bind at 1. rewrite measure_clock_speed_spec.
  change (run_count (after_sleep seconds w)) with (run_count w).
  destruct (probe_estimate e (run_count w)); reflexivity.
Qed.

Lemma uint32_double (seconds : Z) (count : nat) :
  1 <= seconds -> seconds * 2 ^ Z.of_nat (S count) < 2 ^ 32 ->
  uint32 (seconds * 2) = seconds * 2.
Proof.
  intros Hs Hwrap. unfold uint32. apply Z.mod_small.
  rewrite pow2_nat_succ in Hwrap. pose proof (pow2_nat_pos count). nia.
Qed.

(** All the ways the backoff loop can end. *)
Lemma backoff_loop_outcome (e : Env) (max : Q) (count : nat) :
  forall seconds current rerun w,
    1 <= seconds -> seconds * 2 ^ Z.of_nat count < 2 ^ 32 ->
    300 < seconds * 2 ^ Z.of_nat count ->
    (forall j : nat, (j < count)%nat -> seconds * 2 ^ Z.of_nat j <= 300) ->
    match backoff_loop (S count) e max current seconds rerun w with
    | Ret r w' =>
        (tolerance_lower_clock_speed * max <= fst r)%Q /\
        exists j : nat,
          (j <= count)%nat /\ w' = after_backoff seconds j w /\
          snd r = match j with O => rerun | S _ => true end /\
          (j = 0%nat ->
           Qlt_bool current (tolerance_lower_clock_speed * max) = false)
    | Exit status w' => status = 1 /\ w' = after_backoff seconds count w
    | Undefined => True
    | OutOfFuel => False
    end.
Proof.
  induction count as [|count IH];
    intros seconds current rerun w Hs Hwrap Hbigc Hsmall.
  - cbn [backoff_loop].
    destruct (Qlt_bool current (tolerance_lower_clock_speed * max)) eqn:E.
    + change (2 ^ Z.of_nat 0) with 1 in Hbigc.
      destruct (Z.ltb_spec 300 seconds) as [Hbig|Hle]; [|lia].
      unfold exit. split; reflexivity.
    + unfold ret. pose proof E as E'.
      apply Qlt_bool_false_iff in E. split; [exact E|].
      exists 0%nat. repeat split. lia.
  - remember (S count) as fuel eqn:Hfuel.
    cbn [backoff_loop]. subst fuel.
    destruct (Qlt_bool current (tolerance_lower_clock_speed * max)) eqn:E.
    + pose proof (Hsmall 0%nat ltac:(lia)) as H0. simpl in H0.
      destruct (Z.ltb_spec 300 seconds) as [Hbig|Hle]; [lia|].
      rewrite sleep_then_probe.
      destruct (probe_estimate e (run_count w)) as [c|]; [|exact I].
      rewrite (uint32_double seconds count Hs Hwrap).
      assert (Hpow : forall j : nat,
                 seconds * 2 ^ Z.of_nat (S j) = seconds * 2 * 2 ^ Z.of_nat j).
      { intros j. rewrite pow2_nat_succ. ring. }
      specialize (IH (seconds * 2) c true
                     (after_probes 8 (after_sleep seconds w))
                     ltac:(lia)).
      rewrite <- Hpow in IH. specialize (IH Hwrap Hbigc).
      assert (Hsmall' : forall j : nat, (j < count)%nat ->
                        seconds * 2 * 2 ^ Z.of_nat j <= 300).
      { intros j Hj. rewrite <- Hpow. apply Hsmall. lia. }
      specialize (IH Hsmall').
      destruct (backoff_loop (S count) e max c (seconds * 2) true
                  (after_probes 8 (after_sleep seconds w)))
        as [r w'|status w'| |]; try exact IH.
      destruct IH as [Hr [j [Hj [Hw [Hrr _]]]]]. split; [exact Hr|].
      exists (S j). split; [lia|]. split; [exact Hw|].
      split; [destruct j; assumption | discriminate].
    + unfold ret. pose proof E as E'.
      apply Qlt_bool_false_iff in E. split; [exact E|].
      exists 0%nat. repeat split. lia.
Qed.

Lemma backoff_loop_recovers (e : Env) (max : Q) (lows : nat) :
  forall count seconds current rerun w c,
    (S lows <= count)%nat ->
    1 <= seconds -> seconds * 2 ^ Z.of_nat count < 2 ^ 32 ->
    (forall j : nat, (j < count)%nat -> seconds * 2 ^ Z.of_nat j <= 300) ->
    (current < tolerance_lower_clock_speed * max)%Q ->
    low_probes e max (run_count w) lows ->
    probe_estimate e (8 * lows + run_count w) = Some c ->
    (tolerance_lower_clock_speed * max <= c)%Q ->
    backoff_loop (S count) e max current seconds rerun w
    = Ret (c, true) (after_backoff seconds (S lows) w).
Proof.
  induction lows as [|lows IH];
    intros count seconds current rerun w c Hcount Hs Hwrap Hsmall
           Hlow Hlows Hprobe Hok.
  - destruct count as [|count]; [lia|].
    remember (S count) as fuel eqn:Hfuel.
    cbn [backoff_loop]. subst fuel.
    apply Qlt_bool_iff in Hlow. rewrite Hlow.
    pose proof (Hsmall 0%nat ltac:(lia)) as H0. simpl in H0.
    destruct (Z.ltb_spec 300 seconds) as [?|Hle]; [lia|].
    rewrite sleep_then_probe. cbn [Nat.mul Nat.add] in Hprobe.
    rewrite Hprobe. cbn [backoff_loop].
    apply Qlt_bool_false_iff in Hok. rewrite Hok. reflexivity.
  - destruct count as [|count]; [lia|].
    remember (S count) as fuel eqn:Hfuel.
    cbn [backoff_loop]. subst fuel.
    apply Qlt_bool_iff in Hlow. rewrite Hlow.
    pose proof (Hsmall 0%nat ltac:(lia)) as H0. simpl in H0.
    destruct (Z.ltb_spec 300 seconds) as [?|Hle]; [lia|].
    rewrite sleep_then_probe.
    cbn [low_probes] in Hlows. destruct Hlows as [[c1 [Hc1 Hc1low]] Hrest].
    rewrite Hc1.
    rewrite (uint32_double seconds count Hs Hwrap).
    assert (Hpow : forall j : nat,
               seconds * 2 ^ Z.of_nat (S j) = seconds * 2 * 2 ^ Z.of_nat j).
    { intros j. rewrite pow2_nat_succ. ring. }
    cbn [after_backoff].
    apply IH.
    + lia.
    + lia.
    + rewrite <- Hpow. exact Hwrap.
    + intros j Hj. rewrite <- Hpow. apply Hsmall. lia.
    + exact Hc1low.
    + rewrite run_count_after_probes.
      change (run_count (after_sleep seconds w)) with (run_count w).
      exact Hrest.
    + rewrite run_count_after_probes.
      change (run_count (after_sleep seconds w)) with (run_count w).
      replace (8 * lows + (8 + run_count w))%nat
        with (8 * S lows + run_count w)%nat by lia.
      exact Hprobe.
    + exact Hok.
Qed.

Lemma calibrate_unfold (e : Env) (st : run_state) (time_now : Q)
    (benchmark_index : nat) (w : World) :
  calibrate e st time_now benchmark_index w
  = match probe_estimate e (run_count w) with
    | None => Undefined
    | Some current =>
        if Qlt_bool (tolerance_higher_clock_speed * max_clock_speed st) current
        then Ret (Return {| benchmarks := benchmarks st;
                            first_benchmark_to_run := 0;
                            max_clock_speed := current |})
                 (after_probes 8 w)
        else
          match (if Qlt_bool current
                      (tolerance_lower_clock_speed * max_clock_speed st)
                 then backoff_loop 10 e (max_clock_speed st) current 1 false
                 else ret (current, false)) (after_probes 8 w) with
          | Ret r w' =>
              if snd r then Ret (Return st) w'
              else Ret (Continue
                          {| benchmarks := benchmarks st;
                             first_benchmark_to_run := benchmark_index;
                             max_clock_speed := max_clock_speed st |}
                          time_now) w'
          | Exit status w' => Exit status w'
          | Undefined => Undefined
          | OutOfFuel => OutOfFuel
          end
    end.
Proof.
  unfold calibrate. unfold bind at 1. rewrite measure_clock_speed_spec.
  destruct (probe_estimate e (run_count w)) as [current|]; [|reflexivity].
  destruct (Qlt_bool (tolerance_higher_clock_speed * max_clock_speed st)
                     current); [reflexivity|].
  unfold bind.
  destruct ((if Qlt_bool current
                  (tolerance_lower_clock_speed * max_clock_speed st)
             then backoff_loop 10 e (max_clock_speed st) current 1 false
             else ret (current, false)) (after_probes 8 w))
    as [r w'| | |]; try reflexivity.
  destruct (snd r); reflexivity.
Qed.

Lemma backoff_sleeps_small (j : nat) :
  (j < 9)%nat -> 1 * 2 ^ Z.of_nat j <= 300.
Proof.
  intros Hj.
  assert (H8 : 2 ^ Z.of_nat j <= 2 ^ 8) by (apply Z.pow_le_mono_r; lia).
  change (2 ^ 8) with 256 in H8. lia.
Qed.

(** A clock-speed check ends in one of five ways, decided by its first
    probe.  If a timer overflows during that probe, the behaviour is
    undefined.  If the probe is above 1.01 times the best speed, the check
    returns with that speed as the best and the first benchmark to run at
    0.  If it is within the tolerances, the first benchmark to run becomes
    the current index and the loop goes on.  If it is below 0.98 times the
    best speed, the check either returns the state it was given, after one
    to nine rounds of sleeping and re-probing, or leaves the process with
    status 1 after nine rounds (or a later probe overflows).  In no case is
    the trial list touched, and the 10 iterations granted to the backoff
    loop in the model always suffice. *)
Theorem calibration_outcomes (e : Env) (st : run_state) (time_now : Q)
    (benchmark_index : nat) (w : World) :
  match probe_estimate e (run_count w) with
  | None => calibrate e st time_now benchmark_index w = Undefined
  | Some current =>
      if Qlt_bool (tolerance_higher_clock_speed * max_clock_speed st) current
      then
        calibrate e st time_now benchmark_index w
        = Ret (Return {| benchmarks := benchmarks st;
                         first_benchmark_to_run := 0;
                         max_clock_speed := current |})
              (after_probes 8 w)
      else if Qlt_bool current
                       (tolerance_lower_clock_speed * max_clock_speed st)
      then
        match calibrate e st time_now benchmark_index w with
        | Ret c w' =>
            c = Return st /\
            exists j : nat,
              (1 <= j <= 9)%nat /\
              w' = after_backoff 1 j (after_probes 8 w)
        | Exit status w' =>
            status = 1 /\ w' = after_backoff 1 9 (after_probes 8 w)
        | Undefined => True
        | OutOfFuel => False
        end
      else
        calibrate e st time_now benchmark_index w
        = Ret (Continue {| benchmarks := benchmarks st;
                           first_benchmark_to_run := benchmark_index;
                           max_clock_speed := max_clock_speed st |}
                        time_now)
              (after_probes 8 w)
  end.
Proof.
  rewrite calibrate_unfold.
  destruct (probe_estimate e (run_count w)) as [current|]; [|reflexivity].
  destruct (Qlt_bool (tolerance_higher_clock_speed * max_clock_speed st)
                     current); [reflexivity|].
  destruct (Qlt_bool current (tolerance_lower_clock_speed * max_clock_speed st))
    eqn:Elow; [|reflexivity].
  pose proof (backoff_loop_outcome e (max_clock_speed st) 9 1 current false
                (after_probes 8 w) ltac:(lia) ltac:(simpl; lia)
                ltac:(simpl; lia) backoff_sleeps_small) as Hout.
  destruct (backoff_loop 10 e (max_clock_speed st) current 1 false
              (after_probes 8 w)) as [r w'|status w'| |];
    try exact Hout.
  destruct Hout as [Hr [j [Hj [Hw [Hrr H0]]]]].
  destruct j as [|j].
  - rewrite (H0 eq_refl) in Elow. discriminate.
  - rewrite Hrr. split; [reflexivity|].
    exists (S j). split; [lia | exact Hw].
Qed.

(** When the first probe of a clock-speed check and the [lows - 1] next
    ones are low and the probe after them is back within the lower
    tolerance, the check returns after [lows] sleeps of 1, 2, 4, ...
    seconds with the state it was given: the first benchmark to run and the
    best speed are kept, so the trials run since the checkpoint are redone.
    The recovered speed is not compared with the upper tolerance. *)
Theorem calibration_resumes_after_dip (e : Env) (st : run_state)
    (time_now : Q) (benchmark_index : nat) (w : World) (lows : nat) (c : Q) :
  (0 <= max_clock_speed st)%Q ->
  (1 <= lows <= 9)%nat ->
  low_probes e (max_clock_speed st) (run_count w) lows ->
  probe_estimate e (8 * lows + run_count w) = Some c ->
  (tolerance_lower_clock_speed * max_clock_speed st <= c)%Q ->
  calibrate e st time_now benchmark_index w
  = Ret (Return st) (after_backoff 1 lows (after_probes 8 w)).
Proof.
  intros Hmax Hl Hlows Hprobe Hok.
  destruct lows as [|lows]; [lia|].
  cbn [low_probes] in Hlows. destruct Hlows as [[c0 [Hc0 Hc0low]] Hrest].
  rewrite calibrate_unfold, Hc0.
  rewrite (lower_below_higher _ _ Hmax Hc0low).
  pose proof Hc0low as Hb. apply Qlt_bool_iff in Hb. rewrite Hb.
  rewrite (backoff_loop_recovers e (max_clock_speed st) lows 9 1 c0 false
             (after_probes 8 w) c).
  - reflexivity.
  - lia.
  - lia.
  - simpl. lia.
  - exact backoff_sleeps_small.
  - exact Hc0low.
  - rewrite run_count_after_probes. exact Hrest.
  - rewrite run_count_after_probes.
    replace (8 * lows + (8 + run_count w))%nat
      with (8 * S lows + run_count w)%nat by lia.
    exact Hprobe.
  - exact Hok.
Qed.

Lemma calibration_resumes_after_dip_witness :
  calibrate dip_env
            {| benchmarks := [benchmark_t3 0 16 16 16];
               first_benchmark_to_run := 0;
               max_clock_speed := 207 # 10 |}
            1000 0 initial_world
  = Ret (Return {| benchmarks := [benchmark_t3 0 16 16 16];
                   first_benchmark_to_run := 0;
                   max_clock_speed := 207 # 10 |})
        (after_backoff 1 1 (after_probes 8 initial_world)).
Proof.
  eapply (calibration_resumes_after_dip dip_env _ 1000 0 initial_world 1).
  - discriminate.
  - lia.
  - split; [|exact I]. eexists. split; vm_compute; reflexivity.
  - vm_compute. reflexivity.
  - vm_compute. discriminate.
Defined.

(** ** The loop of [try_run_some_benchmarks] *)

Lemma calibrate_cases (e : Env) (st : run_state) (time_now : Q)
    (benchmark_index : nat) (w : World) :
  match calibrate e st time_now benchmark_index w with
  | Ret (Return st') _ =>
      benchmarks st' = benchmarks st /\
      (first_benchmark_to_run st' = 0%nat \/ st' = st)
  | Ret (Continue st' time_last') _ =>
      st' = {| benchmarks := benchmarks st;
               first_benchmark_to_run := benchmark_index;
               max_clock_speed := max_clock_speed st |} /\
      time_last' = time_now
  | Exit status _ => status = 1
  | Undefined => True
  | OutOfFuel => False
  end.
Proof.
  rewrite calibrate_unfold.
  destruct (probe_estimate e (run_count w)) as [current|]; [|exact I].
  destruct (Qlt_bool (tolerance_higher_clock_speed * max_clock_speed st)
                     current).
  { split; [reflexivity | left; reflexivity]. }
  destruct (Qlt_bool current (tolerance_lower_clock_speed * max_clock_speed st)).
  - pose proof (backoff_loop_outcome e (max_clock_speed st) 9 1 current false
                  (after_probes 8 w) ltac:(lia) ltac:(simpl; lia)
                  ltac:(simpl; lia) backoff_sleeps_small) as Hout.
    destruct (backoff_loop 10 e (max_clock_speed st) current 1 false
                (after_probes 8 w)) as [r w'|status w'| |];
      try exact Hout.
    + destruct (snd r).
      * split; [reflexivity | right; reflexivity].
      * split; reflexivity.
    + apply Hout.
  - unfold ret. cbn [snd]. split; reflexivity.
Qed.

Lemma run_at_cases (e : Env) (bs : list benchmark_t) (i : nat) (w : World) :
  (i < length bs)%nat ->
  match run_at e bs i w with
  | Ret bs' w' =>
      exists b b',
        nth_error bs i = Some b /\ run e b w = Ret b' w' /\
        bs' = firstn i bs ++ b' :: skipn (S i) bs
  | Exit _ _ => False
  | Undefined => True
  | OutOfFuel => False
  end.
Proof.
  intros Hi. unfold run_at.
  destruct (nth_error bs i) as [b|] eqn:E.
  - unfold bind.
    pose proof (adaptive_timer_fuel (batch_cpu_time e (run_count w))
                                    (min_accurate_time b)) as Hfuel.
    destruct (run e b w) as [b' w'| | |] eqn:Er.
    + unfold ret. exists b, b'.
      split; [reflexivity|]. split; [exact Er | reflexivity].
    + unfold run in Er.
      destruct (adaptive_timer (batch_cpu_time e (run_count w))
                               (min_accurate_time b)); discriminate.
    + exact I.
    + unfold run in Er.
      destruct (adaptive_timer (batch_cpu_time e (run_count w))
                               (min_accurate_time b));
        try discriminate. contradiction.
  - apply nth_error_None in E. lia.
Qed.

Lemma try_loop_unfold (e : Env) (fuel : nat) (st : run_state)
    (time_last : Q) (i : nat) (w : World) :
  try_loop (S fuel) e st time_last i w
  = match (if calibration_due st i time_last (real_time e (time_reads w))
           then calibrate e st (real_time e (time_reads w)) i
           else ret (Continue st time_last)) (after_time_read w) with
    | Ret (Return st') w1 => Ret st' w1
    | Ret (Continue st' time_last') w1 =>
        if (i =? length (benchmarks st'))%nat
        then Ret {| benchmarks := benchmarks st';
                    first_benchmark_to_run := length (benchmarks st');
                    max_clock_speed := max_clock_speed st' |} w1
        else
          match run_at e (benchmarks st') i w1 with
          | Ret bs' w2 =>
              try_loop fuel e
                       {| benchmarks := bs';
                          first_benchmark_to_run := first_benchmark_to_run st';
                          max_clock_speed := max_clock_speed st' |}
                       time_last' (S i) w2
          | Exit status w2 => Exit status w2
          | Undefined => Undefined
          | OutOfFuel => OutOfFuel
          end
    | Exit status w1 => Exit status w1
    | Undefined => Undefined
    | OutOfFuel => OutOfFuel
    end.
Proof.
  cbn [try_loop]. unfold bind at 1. unfold getRealTime.
  fold (after_time_read w). unfold bind at 1. unfold calibration_due.
  destruct ((if (i =? length (benchmarks st))%nat
                || Qlt_bool (time_last + 60) (real_time e (time_reads w))
             then calibrate e st (real_time e (time_reads w)) i
             else ret (Continue st time_last)) (after_time_read w))
    as [c w1| | |]; try reflexivity.
  destruct c as [st'|st' time_last']; [reflexivity|].
  destruct (i =? length (benchmarks st'))%nat; [reflexivity|].
  unfold bind.
  destruct (run_at e (benchmarks st') i w1); reflexivity.
Qed.

Lemma length_update {A : Type} (l : list A) (i : nat) (x : A) :
  (i < length l)%nat ->
  length (firstn i l ++ x :: skipn (S i) l) = length l.
Proof.
  intros Hi. rewrite length_app, length_firstn. cbn [length].
  rewrite length_skipn. lia.
Qed.

(** The state a check hands on to the rest of the loop body. *)
Lemma check_cases (e : Env) (st : run_state) (time_last : Q) (i : nat)
    (w : World) :
  match (if calibration_due st i time_last (real_time e (time_reads w))
         then calibrate e st (real_time e (time_reads w)) i
         else ret (Continue st time_last)) (after_time_read w) with
  | Ret (Return st') _ =>
      benchmarks st' = benchmarks st /\
      (first_benchmark_to_run st' = 0%nat \/ st' = st)
  | Ret (Continue st' _) _ =>
      benchmarks st' = benchmarks st /\
      (first_benchmark_to_run st' = i \/ st' = st)
  | Exit status _ => status = 1
  | Undefined => True
  | OutOfFuel => False
  end.
Proof.
  destruct (calibration_due st i time_last (real_time e (time_reads w))).
  - pose proof (calibrate_cases e st (real_time e (time_reads w)) i
                                (after_time_read w)) as H.
    destruct (calibrate e st (real_time e (time_reads w)) i
                        (after_time_read w)) as [c w1| | |]; try exact H.
    destruct c as [st'|st' tl']; [exact H|].
    destruct H as [-> _]. split; [reflexivity | left; reflexivity].
  - unfold ret. split; [reflexivity | right; reflexivity].
Qed.

Lemma firstn_S_update {A : Type} (l : list A) (i : nat) (x : A) :
  (i < length l)%nat ->
  firstn (S i) (firstn i l ++ x :: skipn (S i) l) = firstn i l ++ [x].
Proof.
  intros Hi.
  assert (Hlen : length (firstn i l) = i) by (rewrite length_firstn; lia).
  rewrite firstn_app, Hlen.
  rewrite firstn_all2 by lia.
  replace (S i - i)%nat with 1%nat by lia. reflexivity.
Qed.

Lemma Forall_firstn_all {A : Type} (P : A -> Prop) (l : list A) (i : nat) :
  Forall P l -> Forall P (firstn i l).
Proof.
  intros H. rewrite <- (firstn_skipn i l) in H.
  apply Forall_app in H. apply H.
Qed.

Lemma Forall_skipn_all {A : Type} (P : A -> Prop) (l : list A) (i : nat) :
  Forall P l -> Forall P (skipn i l).
Proof.
  intros H. rewrite <- (firstn_skipn i l) in H.
  apply Forall_app in H. apply H.
Qed.

Lemma Forall_firstn_le {A : Type} (P : A -> Prop) (l : list A) (i j : nat) :
  (i <= j)%nat -> Forall P (firstn j l) -> Forall P (firstn i l).
Proof.
  intros Hij H. apply (Forall_firstn_all P _ i) in H.
  rewrite firstn_firstn in H.
  replace (Nat.min i j) with i in H by lia. exact H.
Qed.

Lemma try_loop_invariant (e : Env) (fuel : nat) :
  forall st time_last i w,
    (first_benchmark_to_run st <= i <= length (benchmarks st))%nat ->
    (length (benchmarks st) - i < fuel)%nat ->
    match try_loop fuel e st time_last i w with
    | Ret st' _ =>
        length (benchmarks st') = length (benchmarks st) /\
        (first_benchmark_to_run st' <= length (benchmarks st'))%nat /\
        (Forall threshold_positive (benchmarks st) ->
         Forall measured (firstn i (benchmarks st)) ->
         Forall threshold_positive (benchmarks st') /\
         Forall measured
                (firstn (first_benchmark_to_run st') (benchmarks st')))
    | Exit status _ => status = 1
    | Undefined => True
    | OutOfFuel => False
    end.
Proof.
  induction fuel as [|fuel IH]; intros st time_last i w Hi Hfuel; [lia|].
  rewrite try_loop_unfold.
  pose proof (check_cases e st time_last i w) as Hc.
  destruct ((if calibration_due st i time_last (real_time e (time_reads w))
             then calibrate e st (real_time e (time_reads w)) i
             else ret (Continue st time_last)) (after_time_read w))
    as [c w1| | |]; try exact Hc.
  destruct c as [st'|st' time_last'].
  - destruct Hc as [Hbs Hfirst]. rewrite Hbs.
    split; [reflexivity|]. split; [destruct Hfirst as [->| ->]; lia|].
    intros Hthr Hmeas. split; [exact Hthr|].
    destruct Hfirst as [->| ->]; [constructor|].
    apply (Forall_firstn_le _ _ _ i); [lia | exact Hmeas].
  - destruct Hc as [Hbs Hfirst].
    assert (Hfirst' : (first_benchmark_to_run st' <= i)%nat)
      by (destruct Hfirst as [->| ->]; lia).
    rewrite Hbs.
    destruct (Nat.eqb_spec i (length (benchmarks st))) as [Heq|Hne].
    + cbn [benchmarks first_benchmark_to_run].
      split; [reflexivity|]. split; [lia|].
      intros Hthr Hmeas. split; [exact Hthr|].
      rewrite <- Heq. exact Hmeas.
    + assert (Hlt : (i < length (benchmarks st))%nat) by lia.
      pose proof (run_at_cases e (benchmarks st) i w1 Hlt) as Hr.
      destruct (run_at e (benchmarks st) i w1) as [bs' w2| | |];
        try exact Hr; try contradiction.
      destruct Hr as [b [b' [Hnth [Hrun ->]]]].
      pose proof (length_update (benchmarks st) i b' Hlt) as Hlen.
      specialize (IH {| benchmarks := firstn i (benchmarks st)
                                      ++ b' :: skipn (S i) (benchmarks st);
                        first_benchmark_to_run := first_benchmark_to_run st';
                        max_clock_speed := max_clock_speed st' |}
                     time_last' (S i) w2).
      cbn [benchmarks first_benchmark_to_run] in IH.
      rewrite Hlen in IH.
      specialize (IH ltac:(lia) ltac:(lia)).
      destruct (try_loop fuel e _ time_last' (S i) w2) as [st'' w3| | |];
        try exact IH.
      destruct IH as [Hlen'' [Hfirst'' Hinv]].
      split; [exact Hlen''|].
      split; [exact Hfirst''|].
      intros Hthr Hmeas.
      pose proof (nth_error_In _ _ Hnth) as Hin.
      assert (Hb : threshold_positive b)
        by (rewrite Forall_forall in Hthr; apply Hthr; exact Hin).
      pose proof (run_frame e b b' w1 w2 Hrun) as [Hsame _].
      apply Hinv.
      * apply Forall_app. split; [apply Forall_firstn_all; exact Hthr|].
        constructor; [|apply Forall_skipn_all; exact Hthr].
        unfold threshold_positive, same_but_gflops in *.
        rewrite Hsame. exact Hb.
      * rewrite (firstn_S_update _ _ _ Hlt).
        apply Forall_app. split; [exact Hmeas|].
        constructor; [|constructor].
        unfold measured. eapply run_positive; eassumption.
Qed.

(** A call of [try_run_some_benchmarks] always ends, within as many loop
    iterations as there are trials left plus one: it returns, or leaves the
    process with status 1, or a timer overflows.  When it returns, the list
    has kept its length and the first benchmark to run is within it. *)
Theorem try_run_some_benchmarks_terminates (e : Env) (st : run_state)
    (w : World) :
  (first_benchmark_to_run st <= length (benchmarks st))%nat ->
  match try_run_some_benchmarks e st w with
  | Ret st' _ =>
      length (benchmarks st') = length (benchmarks st) /\
      (first_benchmark_to_run st' <= length (benchmarks st'))%nat
  | Exit status _ => status = 1
  | Undefined => True
  | OutOfFuel => False
  end.
Proof.
  intros Hfirst. unfold try_run_some_benchmarks.
  destruct (Nat.eqb_spec (first_benchmark_to_run st) (length (benchmarks st))).
  - unfold ret. split; [reflexivity | lia].
  - pose proof (try_loop_invariant e (S (length (benchmarks st))) st 0
                  (first_benchmark_to_run st) w ltac:(lia) ltac:(lia)) as H.
    destruct (try_loop (S (length (benchmarks st))) e st 0
                       (first_benchmark_to_run st) w); try exact H.
    destruct H as [Hlen [Hf _]]. split; assumption.
Qed.

Lemma try_run_some_benchmarks_terminates_witness :
  match try_run_some_benchmarks
          (steady_env (1 # 10))
          {| benchmarks := [benchmark_t3 0 16 16 16; benchmark_t3 0 32 16 16];
             first_benchmark_to_run := 0;
             max_clock_speed := 207 # 10 |}
          initial_world with
  | Ret st' _ => length (benchmarks st') = 2%nat /\
                 (first_benchmark_to_run st' <= length (benchmarks st'))%nat
  | Exit status _ => status = 1
  | Undefined => True
  | OutOfFuel => False
  end.
Proof.
  apply (try_run_some_benchmarks_terminates
           (steady_env (1 # 10))
           {| benchmarks := [benchmark_t3 0 16 16 16; benchmark_t3 0 32 16 16];
              first_benchmark_to_run := 0;
              max_clock_speed := 207 # 10 |}
           initial_world).
  cbn [first_benchmark_to_run benchmarks length]. lia.
Defined.

Lemma try_run_measured (e : Env) (st st' : run_state) (w w' : World) :
  (first_benchmark_to_run st <= length (benchmarks st))%nat ->
  Forall threshold_positive (benchmarks st) ->
  Forall measured (firstn (first_benchmark_to_run st) (benchmarks st)) ->
  try_run_some_benchmarks e st w = Ret st' w' ->
  (first_benchmark_to_run st' <= length (benchmarks st'))%nat /\
  Forall threshold_positive (benchmarks st') /\
  Forall measured (firstn (first_benchmark_to_run st') (benchmarks st')).
Proof.
  intros Hfirst Hthr Hmeas Hrun. unfold try_run_some_benchmarks in Hrun.
  destruct (Nat.eqb_spec (first_benchmark_to_run st) (length (benchmarks st))).
  - unfold ret in Hrun. injection Hrun as <- <-. repeat split; assumption.
  - pose proof (try_loop_invariant e (S (length (benchmarks st))) st 0
                  (first_benchmark_to_run st) w ltac:(lia) ltac:(lia)) as H.
    rewrite Hrun in H. destruct H as [_ [Hf Hinv]].
    split; [exact Hf|]. apply Hinv; assumption.
Qed.

(** The trials before the first benchmark to run are the verified ones:
    if all of them carry a measurement (a positive throughput) before a call
    of [try_run_some_benchmarks], and the thresholds of the list are
    positive, then so it is after the call, whichever way the call
    returned. *)
Theorem checkpoint_keeps_measured_prefix (e : Env) (st st' : run_state)
    (w w' : World) :
  (first_benchmark_to_run st <= length (benchmarks st))%nat ->
  Forall threshold_positive (benchmarks st) ->
  Forall measured (firstn (first_benchmark_to_run st) (benchmarks st)) ->
  try_run_some_benchmarks e st w = Ret st' w' ->
  (first_benchmark_to_run st' <= length (benchmarks st'))%nat /\
  Forall threshold_positive (benchmarks st') /\
  Forall measured (firstn (first_benchmark_to_run st') (benchmarks st')).
Proof. apply try_run_measured. Qed.

Lemma checkpoint_keeps_measured_prefix_witness :
  exists st' w',
    try_run_some_benchmarks
      dip_env
      {| benchmarks := [set_gflops (benchmark_t3 0 16 16 16) 5;
                        benchmark_t3 0 32 16 16];
         first_benchmark_to_run := 1;
         max_clock_speed := 207 # 10 |}
      initial_world = Ret st' w' /\
    first_benchmark_to_run st' = 1%nat /\
    firstn (first_benchmark_to_run st') (benchmarks st')
    = [set_gflops (benchmark_t3 0 16 16 16) 5] /\
    Forall measured (firstn (first_benchmark_to_run st') (benchmarks st')).
Proof.
  eexists. eexists. split; [vm_compute; reflexivity|].
  split; [reflexivity|]. split; [reflexivity|].
  eapply (checkpoint_keeps_measured_prefix
            dip_env
            {| benchmarks := [set_gflops (benchmark_t3 0 16 16 16) 5;
                              benchmark_t3 0 32 16 16];
               first_benchmark_to_run := 1;
               max_clock_speed := 207 # 10 |} _ initial_world).
  - cbn [first_benchmark_to_run benchmarks length]. lia.
  - repeat constructor.
  - cbn [first_benchmark_to_run benchmarks firstn].
    constructor; [reflexivity | constructor].
  - vm_compute. reflexivity.
Defined.

Lemma run_loop_measured (e : Env) (fuel : nat) :
  forall st w st' w',
    (first_benchmark_to_run st <= length (benchmarks st))%nat ->
    Forall threshold_positive (benchmarks st) ->
    Forall measured (firstn (first_benchmark_to_run st) (benchmarks st)) ->
    run_loop fuel e st w = Ret st' w' ->
    first_benchmark_to_run st' = length (benchmarks st') /\
    Forall measured (benchmarks st').
Proof.
  induction fuel as [|fuel IH]; intros st w st' w' Hfirst Hthr Hmeas Hrun;
    cbn [run_loop] in Hrun; [discriminate|].
  destruct (Nat.ltb_spec (first_benchmark_to_run st) (length (benchmarks st)))
    as [Hlt|Hge].
  - unfold bind in Hrun.
    destruct (try_run_some_benchmarks e st w) as [st1 w1| | |] eqn:E;
      try discriminate.
    destruct (try_run_measured e st st1 w w1 Hfirst Hthr Hmeas E)
      as [Hf1 [Hthr1 Hmeas1]].
    eapply IH; eassumption.
  - unfold ret in Hrun. injection Hrun as <- <-.
    assert (Heq : first_benchmark_to_run st = length (benchmarks st)) by lia.
    split; [exact Heq|].
    rewrite Heq, firstn_all in Hmeas. exact Hmeas.
Qed.

(** No trial is skipped.  When the loop of [run_benchmarks] ends, started
    from the first trial on a list whose thresholds are positive, the first
    benchmark to run equals the length of the list, every trial carries a
    positive throughput, and the list is the one given up to the
    throughputs, trial by trial. *)
Theorem run_loop_measures_every_trial (e : Env) (fuel : nat)
    (bs : list benchmark_t) (max : Q) (w : World) (st' : run_state)
    (w' : World) :
  Forall threshold_positive bs ->
  run_loop fuel e {| benchmarks := bs; first_benchmark_to_run := 0;
                     max_clock_speed := max |} w = Ret st' w' ->
  first_benchmark_to_run st' = length (benchmarks st') /\
  Forall measured (benchmarks st') /\
  Forall2 same_but_gflops bs (benchmarks st').
Proof.
  intros Hthr Hrun.
  pose proof (run_loop_frame e fuel _ w st' w' Hrun) as Hframe.
  apply run_loop_measured in Hrun.
  - destruct Hrun as [Hf Hm]. split; [exact Hf|]. split; [exact Hm|].
    exact Hframe.
  - cbn [first_benchmark_to_run]. lia.
  - exact Hthr.
  - constructor.
Qed.

Lemma run_loop_measures_every_trial_witness :
  exists st' w',
    run_loop 3 speedup_env
             {| benchmarks := [benchmark_t3 0 16 16 16];
                first_benchmark_to_run := 0;
                max_clock_speed := 207 # 10 |}
             initial_world = Ret st' w' /\
    Forall measured (benchmarks st').
Proof.
  eexists. eexists. split; [vm_compute; reflexivity|].
  eapply (run_loop_measures_every_trial speedup_env 3
            [benchmark_t3 0 16 16 16] (207 # 10) initial_world).
  - repeat constructor.
  - vm_compute. reflexivity.
Defined.

(** ** The reducer as a whole *)

Lemma reduce_facts (bs : list benchmark_t) :
  StronglySorted config_lt (reduce bs) /\
  (forall r, In r (reduce bs) -> In r bs) /\
  (forall b, In b bs ->
     exists r, In r (reduce bs) /\ same_config b r = true /\
               (gflops b <= gflops r)%Q).
Proof.
  unfold reduce.
  pose proof (std_sort_perm benchmark_lt bs) as Hperm.
  pose proof (std_sort_sorted benchmark_lt benchmark_lt_asym
                              benchmark_lt_negtrans bs) as Hsorted.
  apply sorted_by_trial_le in Hsorted.
  destruct (std_sort benchmark_lt bs) as [|x l].
  - split; [constructor|]. split; [intros r []|].
    intros b Hb. apply (Permutation_in _ Hperm) in Hb. contradiction.
  - rewrite collect_best_cons.
    destruct (collect_from_increasing l x Hsorted) as [Hall Hs].
    split; [constructor; assumption|]. split.
    + intros r Hr. apply (Permutation_in _ (Permutation_sym Hperm)).
      destruct Hr as [->|Hr]; [left; reflexivity|].
      right. eapply collect_from_incl; exact Hr.
    + intros b Hb. apply (Permutation_in _ Hperm) in Hb.
      apply (collect_from_covers l x Hsorted b Hb).
Qed.

Lemma insert_sorted_front {A : Type} (lt : A -> A -> bool) (x : A)
    (l : list A) :
  Forall (fun y => lt y x = false) l -> insert_sorted lt x l = x :: l.
Proof.
  intros H. destruct l as [|y l]; [reflexivity|].
  cbn [insert_sorted]. inversion H as [|? ? Hy _]; subst.
  rewrite Hy. reflexivity.
Qed.

Lemma std_sort_sorted_id {A : Type} (lt : A -> A -> bool) (l : list A) :
  sorted_by lt l -> std_sort lt l = l.
Proof.
  unfold sorted_by, std_sort.
  induction l as [|x l IH]; intros Hs; [reflexivity|].
  apply StronglySorted_inv in Hs. destruct Hs as [Hl Hx].
  cbn [fold_right]. rewrite (IH Hl). apply insert_sorted_front. exact Hx.
Qed.

Lemma config_sorted_is_sorted (l : list benchmark_t) :
  StronglySorted config_lt l -> sorted_by benchmark_lt l.
Proof.
  intros H. apply sorted_by_trial_le.
  induction H as [|x l _ IH Hx]; constructor; [exact IH|].
  rewrite Forall_forall in *. intros y Hy. specialize (Hx y Hy).
  unfold config_lt in Hx. unfold trial_le. lia.
Qed.

Lemma collect_from_all (l : list benchmark_t) :
  forall prev, Forall (config_lt prev) l -> StronglySorted config_lt l ->
               collect_from prev l = l.
Proof.
  induction l as [|x l IH]; intros prev Hprev Hs; [reflexivity|].
  cbn [collect_from].
  inversion Hprev as [|? ? Hx _]; subst.
  rewrite (config_lt_differ _ _ Hx). f_equal.
  apply StronglySorted_inv in Hs. destruct Hs as [Hl Hxl].
  apply IH; assumption.
Qed.

(** Reducing twice is reducing once: a reduced table has one trial per
    configuration, in ascending order of the keys, and the reducer leaves
    such a list as it is. *)
Theorem reduce_idempotent (bs : list benchmark_t) :
  reduce (reduce bs) = reduce bs.
Proof.
  destruct (reduce_facts bs) as [Hs _].
  unfold reduce at 1.
  rewrite (std_sort_sorted_id _ _ (config_sorted_is_sorted _ Hs)).
  destruct (reduce bs) as [|x l]; [reflexivity|].
  rewrite collect_best_cons. f_equal.
  apply StronglySorted_inv in Hs. destruct Hs as [Hl Hx].
  apply collect_from_all; assumption.
Qed.

Lemma config_sorted_unique (l1 : list benchmark_t) :
  forall l2,
    StronglySorted config_lt l1 -> StronglySorted config_lt l2 ->
    (forall x, In x l1 ->
       exists y, In y l2 /\ same_config x y = true /\
                 (gflops x <= gflops y)%Q) ->
    (forall y, In y l2 ->
       exists x, In x l1 /\ same_config y x = true /\
                 (gflops y <= gflops x)%Q) ->
    Forall2 (fun x y => same_config x y = true /\ (gflops x == gflops y)%Q)
            l1 l2.
Proof.
  induction l1 as [|h1 t1 IH]; intros l2 Hs1 Hs2 H12 H21.
  - destruct l2 as [|h2 t2]; [constructor|].
    destruct (H21 h2 (or_introl eq_refl)) as [x [[] _]].
  - destruct l2 as [|h2 t2].
    { destruct (H12 h1 (or_introl eq_refl)) as [y [[] _]]. }
    apply StronglySorted_inv in Hs1. destruct Hs1 as [Ht1 Hh1].
    apply StronglySorted_inv in Hs2. destruct Hs2 as [Ht2 Hh2].
    rewrite Forall_forall in Hh1, Hh2.
    assert (Hsame : same_config h1 h2 = true).
    { destruct (H12 h1 (or_introl eq_refl)) as [y [[<-|Hy] [Hsy _]]];
        [exact Hsy|].
      destruct (H21 h2 (or_introl eq_refl)) as [x [[<-|Hx] [Hsx _]]].
      - apply same_config_iff in Hsx. apply same_config_iff.
        destruct Hsx; split; congruence.
      - exfalso. specialize (Hh2 y Hy). specialize (Hh1 x Hx).
        apply same_config_iff in Hsy, Hsx.
        unfold config_lt in Hh1, Hh2. lia. }
    pose proof Hsame as Hsame'. apply same_config_iff in Hsame'.
    assert (Hother : forall a b t,
               (forall z, In z t -> config_lt b z) ->
               same_config a b = true ->
               forall y, In y (b :: t) -> same_config a y = true -> y = b).
    { intros a b t Hb Hab y [<-|Hy] Hay; [reflexivity|].
      exfalso. specialize (Hb y Hy).
      apply same_config_iff in Hab, Hay. unfold config_lt in Hb. lia. }
    constructor.
    + split; [exact Hsame|]. apply Qle_antisym.
      * destruct (H12 h1 (or_introl eq_refl)) as [y [Hy [Hsy Hq]]].
        rewrite (Hother h1 h2 t2 Hh2 Hsame y Hy Hsy) in Hq. exact Hq.
      * destruct (H21 h2 (or_introl eq_refl)) as [x [Hx [Hsx Hq]]].
        assert (Hsame21 : same_config h2 h1 = true)
          by (apply same_config_iff; destruct Hsame'; split; congruence).
        rewrite (Hother h2 h1 t1 Hh1 Hsame21 x Hx Hsx) in Hq. exact Hq.
    + apply IH; try assumption.
      * intros x Hx. destruct (H12 x (or_intror Hx)) as [y [[<-|Hy] [Hsy Hq]]].
        -- exfalso. specialize (Hh1 x Hx). apply same_config_iff in Hsy.
           unfold config_lt in Hh1. lia.
        -- exists y. repeat split; assumption.
      * intros y Hy. destruct (H21 y (or_intror Hy)) as [x [[<-|Hx] [Hsx Hq]]].
        -- exfalso. specialize (Hh2 y Hy). apply same_config_iff in Hsx.
           unfold config_lt in Hh2. lia.
        -- exists x. repeat split; assumption.
Qed.

(** The reduced table does not depend on the order of the trials handed to
    the reducer (so not on the shuffle either): two permutations of one list
    reduce to tables with the same configurations in the same order and
    equal throughputs. *)
Theorem reduce_order_free (bs1 bs2 : list benchmark_t) :
  Permutation bs1 bs2 ->
  Forall2 (fun r1 r2 => same_config r1 r2 = true /\
                        (gflops r1 == gflops r2)%Q)
          (reduce bs1) (reduce bs2).
Proof.
  intros Hperm.
  destruct (reduce_facts bs1) as [Hs1 [Hin1 Hcov1]].
  destruct (reduce_facts bs2) as [Hs2 [Hin2 Hcov2]].
  apply config_sorted_unique; try assumption.
  - intros x Hx. apply Hcov2. apply (Permutation_in _ Hperm).
    apply Hin1. exact Hx.
  - intros y Hy. apply Hcov1.
    apply (Permutation_in _ (Permutation_sym Hperm)). apply Hin2. exact Hy.
Qed.

Lemma reduce_order_free_witness :
  Forall2 (fun r1 r2 => same_config r1 r2 = true /\
                        (gflops r1 == gflops r2)%Q)
          (reduce [trial 5 5 1; trial 5 6 2; trial 5 5 3])
          (reduce [trial 5 6 2; trial 5 5 1; trial 5 5 3]).
Proof.
  apply reduce_order_free. apply perm_swap.
Defined.

(** ** [run_benchmarks] from end to end *)

Lemma Forall2_In_left {A B : Type} (R : A -> B -> Prop) (l1 : list A)
    (l2 : list B) :
  Forall2 R l1 l2 -> forall x, In x l1 -> exists y, In y l2 /\ R x y.
Proof.
  induction 1 as [|a b l1 l2 Hab _ IH]; intros x Hx; [contradiction|].
  destruct Hx as [<-|Hx].
  - exists b. split; [left; reflexivity | exact Hab].
  - destruct (IH x Hx) as [y [Hy Hxy]]. exists y. split; [right|]; assumption.
Qed.

Lemma Forall2_In_right {A B : Type} (R : A -> B -> Prop) (l1 : list A)
    (l2 : list B) :
  Forall2 R l1 l2 -> forall y, In y l2 -> exists x, In x l1 /\ R x y.
Proof.
  induction 1 as [|a b l1 l2 Hab _ IH]; intros y Hy; [contradiction|].
  destruct Hy as [<-|Hy].
  - exists a. split; [left; reflexivity | exact Hab].
  - destruct (IH y Hy) as [x [Hx Hxy]]. exists x. split; [right|]; assumption.
Qed.

Lemma same_but_gflops_config (b b' : benchmark_t) :
  same_but_gflops b b' -> same_config b b' = true.
Proof.
  unfold same_but_gflops. intros ->. apply same_config_iff.
  split; reflexivity.
Qed.

Lemma same_config_trans (a b c : benchmark_t) :
  same_config a b = true -> same_config b c = true -> same_config a c = true.
Proof.
  rewrite !same_config_iff. intros [H1 H2] [H3 H4]. split; congruence.
Qed.

(** The table [run_benchmarks] returns misses no configuration: provided
    the shuffle permutes the list and the thresholds are positive, a call
    that returns gives a table in strictly ascending order of the keys that
    holds, for every trial handed in, exactly one trial of its
    configuration; every trial of the table carries a positive throughput
    and is one of the trials handed in, up to its throughput. *)
Theorem run_benchmarks_reports_every_config (fuel : nat) (e : Env)
    (bs : list benchmark_t) (w : World) (out : list benchmark_t)
    (w' : World) :
  Permutation bs (random_shuffle e bs) ->
  Forall threshold_positive bs ->
  run_benchmarks fuel e bs w = Ret out w' ->
  StronglySorted config_lt out /\
  (forall b, In b bs ->
     exists r, filter (same_config b) out = [r] /\ measured r) /\
  (forall r, In r out ->
     measured r /\ exists b, In b bs /\ same_but_gflops b r).
Proof.
  intros Hperm Hthr Hrun. unfold run_benchmarks in Hrun.
  unfold bind at 1 in Hrun.
  destruct (initial_clock_speed e 4 0 w) as [max w1| | |]; try discriminate.
  unfold bind at 1 in Hrun. unfold getRealTime in Hrun.
  unfold bind in Hrun.
  destruct (run_loop fuel e _ _) as [st w2| | |] eqn:Eloop;
    try discriminate.
  unfold ret in Hrun. injection Hrun as <- <-.
  pose proof (run_loop_frame e fuel _ _ st w2 Eloop) as Hframe.
  cbn [benchmarks] in Hframe.
  apply run_loop_measured in Eloop;
    [| cbn [first_benchmark_to_run]; lia
     | cbn [benchmarks]; exact (Permutation_Forall Hperm Hthr)
     | constructor].
  destruct Eloop as [_ Hmeas]. rewrite Forall_forall in Hmeas.
  destruct (reduce_facts (benchmarks st)) as [Hs [Hin Hcov]].
  split; [exact Hs|]. split.
  - intros b Hb. apply (Permutation_in _ Hperm) in Hb.
    destruct (Forall2_In_left _ _ _ Hframe b Hb) as [b2 [Hb2 Hsame]].
    destruct (Hcov b2 Hb2) as [r [Hr [Hcfg _]]].
    exists r. split.
    + apply filter_config_unique; [exact Hs | exact Hr|].
      eapply same_config_trans; [|exact Hcfg].
      apply same_but_gflops_config. exact Hsame.
    + apply Hmeas. apply Hin. exact Hr.
  - intros r Hr. pose proof (Hin r Hr) as Hfin.
    split; [apply Hmeas; exact Hfin|].
    destruct (Forall2_In_right _ _ _ Hframe r Hfin) as [b [Hb Hsame]].
    exists b. split; [|exact Hsame].
    apply (Permutation_in _ (Permutation_sym Hperm)). exact Hb.
Qed.

Lemma run_benchmarks_reports_every_config_witness :
  exists out w',
    run_benchmarks 2 (steady_env (1 # 10))
                   [benchmark_t3 0 16 16 16; benchmark_t3 0 32 16 16;
                    benchmark_t3 0 16 16 16]
                   initial_world = Ret out w' /\
    length out = 2%nat /\
    StronglySorted config_lt out.
Proof.
  eexists. eexists. split; [vm_compute; reflexivity|].
  split; [reflexivity|].
  eapply (run_benchmarks_reports_every_config 2 (steady_env (1 # 10))
            [benchmark_t3 0 16 16 16; benchmark_t3 0 32 16 16;
             benchmark_t3 0 16 16 16] initial_world).
  - apply Permutation_refl.
  - repeat constructor.
  - vm_compute. reflexivity.
Defined.

(** ** The trial sets *)

Lemma pot_loop_spec (hi : Z) (count : nat) :
  forall x,
    1 <= x -> hi < 2 ^ 63 -> hi < x * 2 ^ Z.of_nat count ->
    exists sizes,
      pot_loop (S count) x hi = Some sizes /\
      (forall y, In y sizes <-> (exists i : nat, y = x * 2 ^ Z.of_nat i) /\ y <= hi) /\
      Forall (fun y => x <= y) sizes /\
      StronglySorted Z.lt sizes.
Proof.
  induction count as [|count IH]; intros x Hx Hhi Hbig.
  - cbn [pot_loop]. change (2 ^ Z.of_nat 0) with 1 in Hbig.
    destruct (Z.leb_spec x hi); [lia|].
    exists []. split; [reflexivity|]. split; [|split; constructor].
    intros y. split; [intros []|]. intros [[i ->] Hle].
    pose proof (pow2_nat_pos i). nia.
  - remember (S count) as fuel eqn:Hfuel. cbn [pot_loop]. subst fuel.
    destruct (Z.leb_spec x hi) as [Hle|Hgt].
    + assert (Hwrap : size_t (x * 2) = x * 2).
      { unfold size_t. apply Z.mod_small.
        change (2 ^ 64) with (2 * 2 ^ 63). lia. }
      rewrite Hwrap.
      destruct (IH (x * 2)) as [sizes [Hrun [Hin [Hall Hsorted]]]];
        [lia | exact Hhi | rewrite pow2_nat_succ in Hbig; lia |].
      rewrite Hrun. exists (x :: sizes). split; [reflexivity|].
      split; [|split].
      * intros y. cbn [In]. rewrite Hin. split.
        -- intros [<-|[[i ->] Hy]].
           ++ split; [exists 0%nat; simpl; ring | exact Hle].
           ++ split; [|exact Hy]. exists (S i).
              rewrite pow2_nat_succ. ring.
        -- intros [[i ->] Hy]. destruct i as [|i].
           ++ left. simpl. ring.
           ++ right. split; [|exact Hy]. exists i.
              rewrite pow2_nat_succ. ring.
      * constructor; [lia|].
        rewrite Forall_forall in *. intros y Hy. specialize (Hall y Hy). lia.
      * constructor; [exact Hsorted|].
        rewrite Forall_forall in *. intros y Hy. specialize (Hall y Hy). lia.
    + exists []. split; [reflexivity|]. split; [|split; constructor].
      intros y. split; [intros []|]. intros [[i ->] Hy].
      pose proof (pow2_nat_pos i). nia.
Qed.

(** A loop [for (size_t x = lo; x <= hi; x *= 2)] with [lo >= 1] and
    [hi < 2^63] ends after at most 64 tests of its condition, without wrap
    of [x]; it visits exactly the values [lo * 2^i] that are at most [hi],
    in strictly ascending order. *)
Theorem pot_sizes_spec (lo hi : Z) :
  1 <= lo -> hi < 2 ^ 63 ->
  pot_loop 64 lo hi = Some (pot_sizes lo hi) /\
  (forall y, In y (pot_sizes lo hi) <->
             (exists i : nat, y = lo * 2 ^ Z.of_nat i) /\ y <= hi) /\
  StronglySorted Z.lt (pot_sizes lo hi).
Proof.
  intros Hlo Hhi.
  destruct (pot_loop_spec hi 63 lo Hlo Hhi) as [sizes [Hrun [Hin [_ Hs]]]].
  { change (2 ^ Z.of_nat 63) with (2 ^ 63). nia. }
  unfold pot_sizes. rewrite Hrun.
  split; [reflexivity|]. split; [exact Hin | exact Hs].
Qed.

Lemma pot_sizes_spec_witness :
  pot_loop 64 minsize maxsize = Some (pot_sizes minsize maxsize) /\
  pot_sizes minsize maxsize = [16; 32; 64; 128; 256; 512; 1024; 2048].
Proof.
  destruct (pot_sizes_spec minsize maxsize) as [Hrun _];
    [unfold minsize; lia | unfold maxsize; lia |].
  split; [exact Hrun | reflexivity].
Defined.

Lemma config_ltb_iff (a b : benchmark_t) :
  config_ltb a b = true <-> config_lt a b.
Proof.
  unfold config_ltb, config_lt.
  rewrite orb_true_iff, andb_true_iff, !Z.ltb_lt, Z.eqb_eq. reflexivity.
Qed.

Lemma ascending_configs_sorted (l : list benchmark_t) :
  ascending_configs l = true -> StronglySorted config_lt l.
Proof.
  intros H. apply Sorted_StronglySorted.
  - intros a b c. apply config_lt_trans.
  - induction l as [|a l IH]; [constructor|].
    cbn [ascending_configs] in H. destruct l as [|b l].
    + constructor; constructor.
    + apply andb_true_iff in H. destruct H as [Hab Hrest].
      constructor; [apply IH; exact Hrest|].
      constructor. apply config_ltb_iff. exact Hab.
Qed.

Lemma same_config_refl (b : benchmark_t) : same_config b b = true.
Proof. apply same_config_iff. split; reflexivity. Qed.

(** A trial set made of three copies of a list with strictly ascending
    configurations. *)
Lemma thrice_reduced (once gen : list benchmark_t) :
  gen = once ++ once ++ once ++ [] ->
  StronglySorted config_lt once ->
  (forall b, In b gen -> repetitions_of b gen = 3%nat) /\
  length (reduce gen) = length once /\
  Forall2 (fun r x => same_config r x = true /\ (gflops r == gflops x)%Q)
          (reduce gen) once.
Proof.
  intros Hgen Hs.
  assert (Hin : forall b, In b gen <-> In b once).
  { intros b. rewrite Hgen, !in_app_iff. cbn [In]. tauto. }
  assert (Hpair : Forall2 (fun r x => same_config r x = true /\
                                      (gflops r == gflops x)%Q)
                          (reduce gen) once).
  { destruct (reduce_facts gen) as [Hsr [Hinr Hcov]].
    apply config_sorted_unique; try assumption.
    - intros x Hx. exists x. split; [apply Hin, Hinr; exact Hx|].
      split; [apply same_config_refl | apply Qle_refl].
    - intros y Hy. apply Hcov. apply Hin. exact Hy. }
  split; [|split; [|exact Hpair]].
  - intros b Hb. apply Hin in Hb. unfold repetitions_of.
    rewrite Hgen, !filter_app, !length_app.
    rewrite (filter_config_unique once Hs b b Hb (same_config_refl b)).
    reflexivity.
  - eapply Forall2_length. exact Hpair.
Qed.

Lemma default_sizes_ascending (g : Z) :
  ascending_configs (default_sizes_once g) = true.
Proof. vm_compute. reflexivity. Qed.

Lemma default_sizes_all_in_range (g : Z) :
  forallb default_in_range (default_sizes_benchmarks g) = true.
Proof. vm_compute. reflexivity. Qed.

(** The default-sizes action measures 1536 trials: each of the 512 product
    sizes with dimensions 16, 32, ... 2048, three times, with the default
    blocking and no measurement yet.  Different product sizes get different
    keys, so the reduced table has 512 rows, one per product size, in the
    order in which the loops produce them. *)
Theorem default_sizes_trial_set (g : Z) :
  length (default_sizes_benchmarks g) = 1536%nat /\
  (forall b, In b (default_sizes_benchmarks g) ->
             default_in_range b = true /\ min_working_set_size b = g /\
             min_accurate_time b = g_min_accurate_time) /\
  (forall b, In b (default_sizes_benchmarks g) ->
             repetitions_of b (default_sizes_benchmarks g) = 3%nat) /\
  length (reduce (default_sizes_benchmarks g)) = 512%nat /\
  Forall2 (fun r x => same_config r x = true /\ (gflops r == gflops x)%Q)
          (reduce (default_sizes_benchmarks g)) (default_sizes_once g).
Proof.
  assert (Hgen : default_sizes_benchmarks g
                 = default_sizes_once g ++ default_sizes_once g
                   ++ default_sizes_once g ++ []) by reflexivity.
  destruct (thrice_reduced _ _ Hgen
              (ascending_configs_sorted _ (default_sizes_ascending g)))
    as [Hrep [Hlen Hpair]].
  assert (Honce : length (default_sizes_once g) = 512%nat)
    by (vm_compute; reflexivity).
  split; [rewrite Hgen, !length_app, Honce; reflexivity|].
  split; [|split; [exact Hrep|split; [rewrite Hlen; exact Honce|exact Hpair]]].
  intros b Hb. split.
  - pose proof (default_sizes_all_in_range g) as H.
    rewrite forallb_forall in H. apply H. exact Hb.
  - unfold default_sizes_benchmarks in Hb.
    apply in_flat_map in Hb. destruct Hb as [_ [_ Hb]].
    apply in_flat_map in Hb. destruct Hb as [ksize [_ Hb]].
    apply in_flat_map in Hb. destruct Hb as [msize [_ Hb]].
    apply in_map_iff in Hb. destruct Hb as [nsize [<- _]].
    split; reflexivity.
Qed.

Lemma all_pot_sizes_ascending (g : Z) :
  ascending_configs (all_pot_sizes_once g) = true.
Proof. vm_compute. reflexivity. Qed.

Lemma all_pot_sizes_all_in_range (g : Z) :
  forallb sizes_in_range (all_pot_sizes_once g) = true.
Proof. vm_compute. reflexivity. Qed.

Lemma all_pot_sizes_once_length (g : Z) :
  Z.of_nat (length (all_pot_sizes_once g)) = 46656.
Proof. vm_compute. reflexivity. Qed.

(** The all-sizes action measures 139968 trials: three times each of the
    46656 combinations of a product size and a block size whose dimensions
    are powers of two from 16 to 2048 with no block dimension above the
    product dimension.  Different combinations get different pairs of keys,
    so the reduced table has 46656 rows, one per combination, in the order
    in which the loops produce them. *)
Theorem all_pot_sizes_trial_set (g : Z) :
  Z.of_nat (length (all_pot_sizes_benchmarks g)) = 139968 /\
  (forall b, In b (all_pot_sizes_benchmarks g) ->
             sizes_in_range b = true /\ min_working_set_size b = g /\
             min_accurate_time b = g_min_accurate_time) /\
  (forall b, In b (all_pot_sizes_benchmarks g) ->
             repetitions_of b (all_pot_sizes_benchmarks g) = 3%nat) /\
  Z.of_nat (length (reduce (all_pot_sizes_benchmarks g))) = 46656 /\
  Forall2 (fun r x => same_config r x = true /\ (gflops r == gflops x)%Q)
          (reduce (all_pot_sizes_benchmarks g)) (all_pot_sizes_once g).
Proof.
  assert (Hgen : all_pot_sizes_benchmarks g
                 = all_pot_sizes_once g ++ all_pot_sizes_once g
                   ++ all_pot_sizes_once g ++ []) by reflexivity.
  destruct (thrice_reduced _ _ Hgen
              (ascending_configs_sorted _ (all_pot_sizes_ascending g)))
    as [Hrep [Hlen Hpair]].
  pose proof (all_pot_sizes_once_length g) as Honce.
  split; [rewrite Hgen, !length_app, !Nat2Z.inj_add, Honce; reflexivity|].
  split; [|split; [exact Hrep|split; [rewrite Hlen; exact Honce|exact Hpair]]].
  intros b Hb. split.
  - pose proof (all_pot_sizes_all_in_range g) as H.
    rewrite forallb_forall in H. apply H.
    rewrite Hgen, !in_app_iff in Hb. cbn [In] in Hb. tauto.
  - unfold all_pot_sizes_benchmarks in Hb.
    apply in_flat_map in Hb. destruct Hb as [_ [_ Hb]].
    apply in_flat_map in Hb. destruct Hb as [ksize [_ Hb]].
    apply in_flat_map in Hb. destruct Hb as [msize [_ Hb]].
    apply in_flat_map in Hb. destruct Hb as [nsize [_ Hb]].
    apply in_flat_map in Hb. destruct Hb as [kblock [_ Hb]].
    apply in_flat_map in Hb. destruct Hb as [mblock [_ Hb]].
    apply in_map_iff in Hb. destruct Hb as [nblock [<- _]].
    split; reflexivity.
Qed.

(** ** Printed durations *)

Module OutputFacts.
Import String.

(** What is printed for a duration, by its range.  Up to 60 s (and for a
    negative count) the seconds alone; below ten minutes, minutes and
    seconds; from ten minutes on the seconds are left out; above an hour,
    hours, and minutes only when more than 60 s remain beyond the full
    hours.  The comparisons are strict, so exactly 3600 s is printed as
    60 minutes and exactly 60 s as 60 seconds. *)
Theorem print_human_duration_cases (seconds : Z) :
  (seconds <= 60 ->
   Output.print_human_duration seconds
   = [Output.Int seconds; Output.Str " s"%string]) /\
  (60 < seconds < 600 ->
   Output.print_human_duration seconds
   = [Output.Int (seconds / 60); Output.Str " min "%string;
      Output.Int (seconds mod 60); Output.Str " s"%string]) /\
  (600 <= seconds <= 3600 ->
   Output.print_human_duration seconds
   = [Output.Int (seconds / 60); Output.Str " min "%string]) /\
  (3600 < seconds -> seconds mod 3600 <= 60 ->
   Output.print_human_duration seconds
   = [Output.Int (seconds / 3600); Output.Str " h "%string]) /\
  (3600 < seconds -> 60 < seconds mod 3600 ->
   Output.print_human_duration seconds
   = [Output.Int (seconds / 3600); Output.Str " h "%string;
      Output.Int (seconds mod 3600 / 60); Output.Str " min "%string]).
Proof.
  unfold Output.print_human_duration.
  split; [|split; [|split; [|split]]].
  - intros H.
    destruct (Z.ltb_spec 3600 seconds); [lia|].
    destruct (Z.ltb_spec 60 seconds); [lia|].
    destruct (Z.ltb_spec seconds 600); [reflexivity | lia].
  - intros H.
    destruct (Z.ltb_spec 3600 seconds); [lia|].
    destruct (Z.ltb_spec 60 seconds); [|lia].
    destruct (Z.ltb_spec seconds 600); [|lia].
    rewrite Z.quot_div_nonneg by lia.
    cbn [List.app]. do 3 f_equal. f_equal.
    rewrite Z.mod_eq by lia. ring.
  - intros H.
    destruct (Z.ltb_spec 3600 seconds); [lia|].
    destruct (Z.ltb_spec 60 seconds); [|lia].
    destruct (Z.ltb_spec seconds 600); [lia|].
    rewrite Z.quot_div_nonneg by lia. reflexivity.
  - intros H Hr.
    destruct (Z.ltb_spec 3600 seconds); [|lia].
    rewrite Z.quot_div_nonneg by lia.
    replace (seconds - seconds / 3600 * 3600) with (seconds mod 3600)
      by (rewrite Z.mod_eq by lia; ring).
    destruct (Z.ltb_spec 60 (seconds mod 3600)); [lia|].
    destruct (Z.ltb_spec seconds 600); [lia|]. reflexivity.
  - intros H Hr.
    destruct (Z.ltb_spec 3600 seconds); [|lia].
    rewrite Z.quot_div_nonneg by lia.
    replace (seconds - seconds / 3600 * 3600) with (seconds mod 3600)
      by (rewrite Z.mod_eq by lia; ring).
    destruct (Z.ltb_spec 60 (seconds mod 3600)); [|lia].
    destruct (Z.ltb_spec seconds 600); [lia|].
    rewrite Z.quot_div_nonneg by lia. reflexivity.
Qed.

Lemma print_human_duration_cases_witness :
  Output.print_human_duration 3600
  = [Output.Int 60; Output.Str " min "%string].
Proof.
  destruct (print_human_duration_cases 3600) as [_ [_ [H _]]].
  apply H. lia.
Defined.

End OutputFacts.

(** ** The command line *)

Module CommandLineFacts.
Import String.

Lemma find_action_name (a : CommandLine.action_t) :
  CommandLine.find_action (CommandLine.invokation_name a)
                          CommandLine.available_actions = Some a.
Proof. destruct a; reflexivity. Qed.

Lemma find_action_unknown (name : string) :
  name <> "all-pot-sizes"%string -> name <> "default-sizes"%string ->
  CommandLine.find_action name CommandLine.available_actions = None.
Proof.
  intros H1 H2. unfold CommandLine.available_actions.
  cbn [CommandLine.find_action CommandLine.invokation_name].
  apply eqb_neq in H1, H2. rewrite H1, H2. reflexivity.
Qed.

Lemma prefix_empty (s : string) : prefix EmptyString s = true.
Proof. destruct s; reflexivity. Qed.

Lemma substring_all (s : string) : substring 0 (length s) s = s.
Proof.
  induction s as [|c s IH]; [reflexivity|].
  cbn [length substring]. now rewrite IH.
Qed.

Lemma index_zero_prefix (p s : string) :
  index 0 p s = Some 0%nat -> prefix p s = true.
Proof.
  destruct s as [|b s]; cbn [index].
  - destruct p; [reflexivity | discriminate].
  - destruct (prefix p (String b s)); [reflexivity|].
    destruct (index 0 p s); discriminate.
Qed.

(** How an argument made of the prefix and a text is read. *)
Lemma read_option (value : string) :
  index 0 CommandLine.option_prefix
        (append CommandLine.option_prefix value) = Some 0%nat /\
  index 0 "="%string (append CommandLine.option_prefix value) = Some 22%nat /\
  substring 23 (length (append CommandLine.option_prefix value) - 23)
            (append CommandLine.option_prefix value) = value.
Proof.
  unfold CommandLine.option_prefix. repeat split.
  - cbn. rewrite prefix_empty. reflexivity.
  - cbn. rewrite prefix_empty. reflexivity.
  - cbn [append length Nat.sub substring]. rewrite Nat.sub_0_r.
    apply substring_all.
Qed.

Lemma last_cons {A : Type} (l : list A) (a d : A) :
  last (a :: l) d = last l a.
Proof.
  revert a d. induction l as [|b l IH]; intros a d; [reflexivity|].
  change (last (a :: b :: l) d) with (last (b :: l) d).
  rewrite !IH. reflexivity.
Qed.

Lemma parse_options_good (strtoul : string -> Z) (values : list string) :
  forall w,
    CommandLine.parse_options strtoul
      (map (append CommandLine.option_prefix) values) w
    = Ret tt (match values with
              | [] => w
              | _ :: _ =>
                  with_g_min_working_set_size
                    (last (map strtoul values) (g_min_working_set_size w)) w
              end).
Proof.
  induction values as [|value values IH]; intros w; [reflexivity|].
  cbn [map CommandLine.parse_options].
  destruct (read_option value) as [H1 [H2 H3]].
  rewrite H1, H2, H3.
  unfold bind, CommandLine.set_g_min_working_set_size.
  fold (with_g_min_working_set_size (strtoul value) w).
  rewrite IH. f_equal.
  destruct values as [|value' values]; [reflexivity|].
  cbn [map]. rewrite !last_cons. reflexivity.
Qed.

Lemma parse_options_bad (strtoul : string -> Z) (values : list string)
    (bad : string) (rest : list string) :
  prefix CommandLine.option_prefix bad = false ->
  forall w,
    exists w',
      CommandLine.parse_options strtoul
        (map (append CommandLine.option_prefix) values ++ bad :: rest) w
      = Exit 1 w' /\
      events w' = events w /\ time_reads w' = time_reads w.
Proof.
  intros Hbad.
  induction values as [|value values IH]; intros w.
  - cbn [map List.app CommandLine.parse_options].
    destruct (index 0 CommandLine.option_prefix bad) as [[|i]|] eqn:E.
    + apply index_zero_prefix in E. congruence.
    + exists w. repeat split.
    + exists w. repeat split.
  - cbn [map List.app CommandLine.parse_options].
    destruct (read_option value) as [H1 [H2 H3]].
    rewrite H1, H2, H3.
    unfold bind, CommandLine.set_g_min_working_set_size.
    fold (with_g_min_working_set_size (strtoul value) w).
    destruct (IH (with_g_min_working_set_size (strtoul value) w))
      as [w' [Hrun [Hev Htime]]].
    exists w'. split; [exact Hrun|]. split; assumption.
Qed.

(** A command line that is not understood ends the process with status 1
    before anything is measured: when no action is given, when the action
    is neither [all-pot-sizes] nor [default-sizes], and when, after any
    number of well-formed options, an argument does not start with
    [--min-working-set-size=]. *)
Theorem main_rejects_bad_command_line (strtoul : string -> Z) (fuel : nat)
    (e : Env) (argv : list string) (w : World) :
  (List.length argv <= 1)%nat \/
  (exists prog name options,
     argv = prog :: name :: options /\
     name <> "all-pot-sizes"%string /\ name <> "default-sizes"%string) \/
  (exists prog action values bad rest,
     argv = prog :: CommandLine.invokation_name action
                 :: map (append CommandLine.option_prefix) values
                    ++ bad :: rest /\
     prefix CommandLine.option_prefix bad = false) ->
  exists w',
    CommandLine.main strtoul fuel e argv w = Exit 1 w' /\
    events w' = events w.
Proof.
  intros [Hshort|[Hname|Hbad]].
  - exists (after_time_read w).
    destruct argv as [|a [|b argv]]; cbn [List.length] in Hshort;
      try lia; split; reflexivity.
  - destruct Hname as [prog [name [options [-> [H1 H2]]]]].
    exists (after_time_read w). unfold CommandLine.main, bind, getRealTime.
    rewrite (find_action_unknown name H1 H2). split; reflexivity.
  - destruct Hbad as [prog [action [values [bad [rest [-> Hprefix]]]]]].
    unfold CommandLine.main. unfold bind at 1. unfold getRealTime.
    fold (after_time_read w). rewrite find_action_name.
    destruct (parse_options_bad strtoul values bad rest Hprefix
                                (after_time_read w)) as [w' [Hrun [Hev _]]].
    exists w'. unfold bind. rewrite Hrun. split; [reflexivity | exact Hev].
Qed.

Lemma main_rejects_bad_command_line_witness :
  exists w',
    CommandLine.main (fun _ => 0) 1 (steady_env 1)
      ["bench"%string; "default-sizes"%string;
       "--min-working-set-size=1"%string; "--verbose"%string]
      initial_world = Exit 1 w' /\
    events w' = events initial_world.
Proof.
  apply main_rejects_bad_command_line. right. right.
  exists "bench"%string, CommandLine.measure_default_sizes_action_t,
         ["1"%string], "--verbose"%string, [].
  split; reflexivity.
Defined.

(** A well-formed command line, an action name followed by any number of
    [--min-working-set-size=<text>] options, runs that action with the
    global working-set size set to what [strtoul] makes of the text of the
    last option, the text being exactly what follows the [=]; with no
    option the global is left as it is.  The wall clock is read once before
    the action and once after it, and the process returns 0. *)
Theorem main_runs_action (strtoul : string -> Z) (fuel : nat) (e : Env)
    (prog : string) (action : CommandLine.action_t) (values : list string)
    (w : World) :
  CommandLine.main strtoul fuel e
    (prog :: CommandLine.invokation_name action
          :: map (append CommandLine.option_prefix) values) w
  = (CommandLine.action_run fuel e action ;;;
     time_end <- getRealTime e ;; ret 0)
      (match values with
       | [] => after_time_read w
       | _ :: _ =>
           with_g_min_working_set_size
             (last (map strtoul values) (g_min_working_set_size w))
             (after_time_read w)
       end).
Proof.
  unfold CommandLine.main. unfold bind at 1. unfold getRealTime.
  fold (after_time_read w). rewrite find_action_name.
  unfold bind at 1. rewrite parse_options_good.
  destruct values; reflexivity.
Qed.

End CommandLineFacts.

(** ** The baseline clock speed *)

Lemma float_max_ge (a b : Q) :
  (a <= float_max a b)%Q /\ (b <= float_max a b)%Q /\
  (float_max a b = a \/ float_max a b = b).
Proof.
  unfold float_max. destruct (Qlt_bool a b) eqn:E.
  - apply Qlt_bool_iff in E. split; [apply Qlt_le_weak; exact E|].
    split; [apply Qle_refl | right; reflexivity].
  - apply Qlt_bool_false_iff in E. split; [apply Qle_refl|].
    split; [exact E | left; reflexivity].
Qed.

Lemma initial_clock_speed_step (e : Env) (count : nat) (m c : Q) (w : World) :
  probe_estimate e (run_count w) = Some c ->
  initial_clock_speed e (S count) m w
  = initial_clock_speed e count (float_max m c) (after_probes 8 w).
Proof.
  intros H. cbn [initial_clock_speed]. unfold bind.
  rewrite measure_clock_speed_spec, H. reflexivity.
Qed.

(** The baseline with which [run_benchmarks] starts is the largest of four
    successive clock probes (and of 0): it is one of the four estimates or
    0, and none of them exceeds it. *)
Theorem baseline_is_best_of_four (e : Env) (w : World) (c0 c1 c2 c3 : Q) :
  probe_estimate e (run_count w) = Some c0 ->
  probe_estimate e (8 + run_count w) = Some c1 ->
  probe_estimate e (16 + run_count w) = Some c2 ->
  probe_estimate e (24 + run_count w) = Some c3 ->
  exists best,
    initial_clock_speed e 4 0 w
    = Ret best (after_probes 8 (after_probes 8 (after_probes 8
                                                  (after_probes 8 w)))) /\
    (0 <= best /\ c0 <= best /\ c1 <= best /\ c2 <= best /\ c3 <= best)%Q /\
    (best = 0%Q \/ best = c0 \/ best = c1 \/ best = c2 \/ best = c3).
Proof.
  intros H0 H1 H2 H3.
  rewrite (initial_clock_speed_step e 3 0 c0 w H0).
  rewrite (initial_clock_speed_step e 2 _ c1).
  2:{ rewrite run_count_after_probes. exact H1. }
  rewrite (initial_clock_speed_step e 1 _ c2).
  2:{ rewrite !run_count_after_probes.
      replace (8 + (8 + run_count w))%nat with (16 + run_count w)%nat by lia.
      exact H2. }
  rewrite (initial_clock_speed_step e 0 _ c3).
  2:{ rewrite !run_count_after_probes.
      replace (8 + (8 + (8 + run_count w)))%nat
        with (24 + run_count w)%nat by lia.
      exact H3. }
  cbn [initial_clock_speed]. unfold ret. eexists. split; [reflexivity|].
  destruct (float_max_ge 0 c0) as [A0 [B0 E0]].
  destruct (float_max_ge (float_max 0 c0) c1) as [A1 [B1 E1]].
  destruct (float_max_ge (float_max (float_max 0 c0) c1) c2) as [A2 [B2 E2]].
  destruct (float_max_ge (float_max (float_max (float_max 0 c0) c1) c2) c3)
    as [A3 [B3 E3]].
  split.
  - assert (T1 : (float_max 0 c0
                  <= float_max (float_max (float_max (float_max 0 c0) c1) c2)
                               c3)%Q).
    { eapply Qle_trans; [exact A1|]. eapply Qle_trans; [exact A2|]. exact A3. }
    split; [eapply Qle_trans; [exact A0 | exact T1]|].
    split; [eapply Qle_trans; [exact B0 | exact T1]|].
    split; [eapply Qle_trans; [exact B1|]; eapply Qle_trans;
            [exact A2 | exact A3]|].
    split; [eapply Qle_trans; [exact B2 | exact A3] | exact B3].
  - destruct E3 as [->| ->]; [|tauto].
    destruct E2 as [->| ->]; [|tauto].
    destruct E1 as [->| ->]; [|tauto].
    destruct E0 as [->| ->]; tauto.
Qed.

Lemma baseline_is_best_of_four_witness :
  exists best,
    initial_clock_speed speedup_env 4 0 initial_world
    = Ret best (after_probes 8 (after_probes 8 (after_probes 8
                                  (after_probes 8 initial_world)))) /\
    (0 <= best)%Q.
Proof.
  edestruct (baseline_is_best_of_four speedup_env initial_world)
    as [best [Hrun [[Hpos _] _]]].
  - reflexivity.
  - reflexivity.
  - reflexivity.
  - reflexivity.
  - exists best. split; [exact Hrun | exact Hpos].
Defined.

(* ================================================================== *)
(** * Part IV: the log of the trials run, and the rounding to [float] *)
(* ================================================================== *)

(** ** The trials a call runs *)

Lemma trials_run_events (w w' : World) :
  events w' = events w -> trials_run w' = trials_run w.
Proof. unfold trials_run. intros ->. reflexivity. Qed.

Lemma trials_run_after_probes (count : nat) (w : World) :
  trials_run (after_probes count w) = trials_run w.
Proof.
  unfold trials_run, after_probes. cbn [events].
  rewrite flat_map_app.
  replace (flat_map trial_of_event (repeat (EvRun (probe_benchmark w)) count))
    with (@nil benchmark_t); [reflexivity|].
  induction count as [|count IH]; [reflexivity|].
  cbn [repeat flat_map]. rewrite <- IH. reflexivity.
Qed.

Lemma trials_run_after_backoff (count : nat) :
  forall seconds w,
    trials_run (after_backoff seconds count w) = trials_run w.
Proof.
  induction count as [|count IH]; intros seconds w; [reflexivity|].
  cbn [after_backoff]. rewrite IH, trials_run_after_probes. reflexivity.
Qed.

Lemma run_count_after_backoff (count : nat) :
  forall seconds w,
    (run_count w <= run_count (after_backoff seconds count w))%nat.
Proof.
  induction count as [|count IH]; intros seconds w; [cbn; lia|].
  cbn [after_backoff].
  etransitivity; [|apply IH].
  rewrite run_count_after_probes. unfold run_count, after_sleep.
  cbn [events filter is_run]. lia.
Qed.

Lemma trials_run_log_run (b : benchmark_t) (w : World) :
  is_probe_trial b = false ->
  trials_run (log_run b (feed_eigen b w)) = trials_run w ++ [b].
Proof.
  intros Hb. unfold trials_run, log_run. cbn [events flat_map trial_of_event].
  rewrite Hb. cbn [List.app rev].
  unfold feed_eigen. destruct (use_default_block_size b); reflexivity.
Qed.

Lemma run_count_log_run (b : benchmark_t) (w : World) :
  run_count (log_run b (feed_eigen b w)) = S (run_count w).
Proof.
  unfold run_count, log_run. cbn [events filter is_run length].
  unfold feed_eigen. destruct (use_default_block_size b); reflexivity.
Qed.

(** A run that returns has logged itself and changed the throughput only. *)
Lemma run_returns_logged (e : Env) (b b' : benchmark_t) (w w' : World) :
  run e b w = Ret b' w' ->
  w' = log_run b (feed_eigen b w) /\ same_but_gflops b b'.
Proof.
  intros H. pose proof (run_frame e b b' w w' H) as [Hsame _].
  split; [|exact Hsame].
  unfold run in H.
  destruct (adaptive_timer (batch_cpu_time e (run_count w))
                           (min_accurate_time b)); [|discriminate..].
  injection H as _ <-. reflexivity.
Qed.

(** A run whose timer does not overflow returns. *)
Lemma run_returns (e : Env) (b : benchmark_t) (w : World) :
  adaptive_timer (batch_cpu_time e (run_count w)) (min_accurate_time b)
  <> IntOverflow ->
  exists b',
    run e b w = Ret b' (log_run b (feed_eigen b w)) /\ same_but_gflops b b'.
Proof.
  intros Hacc. unfold run.
  pose proof (adaptive_timer_fuel (batch_cpu_time e (run_count w))
                                  (min_accurate_time b)) as Hfuel.
  destruct (adaptive_timer (batch_cpu_time e (run_count w))
                           (min_accurate_time b)) as [N t| |].
  - eexists. split; [reflexivity|]. destruct b; reflexivity.
  - contradiction.
  - contradiction.
Qed.

Lemma is_probe_trial_same (b b' : benchmark_t) :
  same_but_gflops b b' -> is_probe_trial b' = is_probe_trial b.
Proof. unfold same_but_gflops. intros ->. destruct b; reflexivity. Qed.

Lemma backoff_loop_log (e : Env) (max : Q) (fuel : nat) :
  forall current seconds rerun w r w',
    backoff_loop fuel e max current seconds rerun w = Ret r w' ->
    trials_run w' = trials_run w /\ (run_count w <= run_count w')%nat.
Proof.
  induction fuel as [|fuel IH]; intros current seconds rerun w r w' H;
    [discriminate|].
  cbn [backoff_loop] in H.
  destruct (Qlt_bool current (tolerance_lower_clock_speed * max)).
  - destruct (300 <? seconds); [discriminate|].
    rewrite sleep_then_probe in H.
    destruct (probe_estimate e (run_count w)) as [c|]; [|discriminate].
    apply IH in H. destruct H as [Htrials Hcount].
    rewrite trials_run_after_probes in Htrials.
    rewrite run_count_after_probes in Hcount.
    split; [rewrite Htrials; reflexivity|].
    unfold run_count, after_sleep in Hcount. cbn [events filter is_run] in Hcount.
    unfold run_count. lia.
  - unfold ret in H. injection H as _ <-. split; [reflexivity | lia].
Qed.

(** A clock-speed check runs no trial of the list. *)
Lemma calibrate_log (e : Env) (st : run_state) (time_now : Q) (i : nat)
    (w w' : World) (c : calibration) :
  calibrate e st time_now i w = Ret c w' ->
  trials_run w' = trials_run w /\ (run_count w <= run_count w')%nat.
Proof.
  unfold calibrate. unfold bind at 1. rewrite measure_clock_speed_spec.
  destruct (probe_estimate e (run_count w)) as [current|]; [|discriminate].
  destruct (Qlt_bool (tolerance_higher_clock_speed * max_clock_speed st)
                     current).
  - unfold ret. intros H. injection H as _ <-.
    rewrite trials_run_after_probes, run_count_after_probes.
    split; [reflexivity | lia].
  - unfold bind.
    destruct (Qlt_bool current
                       (tolerance_lower_clock_speed * max_clock_speed st)).
    + destruct (backoff_loop 10 e (max_clock_speed st) current 1 false
                             (after_probes 8 w)) as [r w1| | |] eqn:E;
        [|discriminate..].
      apply backoff_loop_log in E. destruct E as [Htrials Hcount].
      rewrite trials_run_after_probes in Htrials.
      rewrite run_count_after_probes in Hcount.
      intros H.
      assert (w' = w1) as ->.
      { destruct (snd r); unfold ret in H; injection H as _ <-; reflexivity. }
      split; [exact Htrials | lia].
    + unfold ret. cbn [snd]. intros H. injection H as _ <-.
      rewrite trials_run_after_probes, run_count_after_probes.
      split; [reflexivity | lia].
Qed.

Lemma check_log (e : Env) (st : run_state) (time_last : Q) (i : nat)
    (w w1 : World) (c : calibration) :
  (if calibration_due st i time_last (real_time e (time_reads w))
   then calibrate e st (real_time e (time_reads w)) i
   else ret (Continue st time_last)) (after_time_read w) = Ret c w1 ->
  trials_run w1 = trials_run w /\ (run_count w <= run_count w1)%nat.
Proof.
  destruct (calibration_due st i time_last (real_time e (time_reads w))).
  - intros H. apply calibrate_log in H. exact H.
  - unfold ret. intros H. injection H as _ <-.
    split; [reflexivity | unfold run_count; cbn [after_time_read events]; lia].
Qed.

(** Whatever the environment does, a call of the scheduler's loop that
    returns has run a block of consecutive trials of the list, beginning at
    its loop index, each once and in the order of the list. *)
Lemma try_loop_runs (e : Env) (fuel : nat) :
  forall st time_last i w st' w',
    Forall (fun b => is_probe_trial b = false) (benchmarks st) ->
    try_loop fuel e st time_last i w = Ret st' w' ->
    exists j, trials_run w' = trials_run w ++ firstn j (skipn i (benchmarks st)).
Proof.
  induction fuel as [|fuel IH]; intros st time_last i w st' w' Hlist H;
    [discriminate|].
  rewrite try_loop_unfold in H.
  destruct ((if calibration_due st i time_last (real_time e (time_reads w))
             then calibrate e st (real_time e (time_reads w)) i
             else ret (Continue st time_last)) (after_time_read w))
    as [c w1| | |] eqn:Echeck; [|discriminate..].
  pose proof (check_log e st time_last i w w1 c Echeck) as [Hlog _].
  assert (Hbs : match c with
                | Return st1 => benchmarks st1 = benchmarks st
                | Continue st1 _ => benchmarks st1 = benchmarks st
                end).
  { destruct (calibration_due st i time_last (real_time e (time_reads w))).
    - exact (calibrate_frame _ _ _ _ _ _ _ Echeck).
    - unfold ret in Echeck. injection Echeck as <- _. reflexivity. }
  destruct c as [st1|st1 time_last1].
  - injection H as _ <-. exists 0%nat.
    rewrite Hlog, app_nil_r. reflexivity.
  - rewrite Hbs in H.
    destruct (i =? length (benchmarks st))%nat.
    + injection H as _ <-. exists 0%nat.
      rewrite Hlog, app_nil_r. reflexivity.
    + unfold run_at in H.
      destruct (nth_error (benchmarks st) i) as [b|] eqn:Enth;
        [|discriminate].
      unfold bind in H.
      destruct (run e b w1) as [b' w2| | |] eqn:Erun; [|discriminate..].
      unfold ret in H.
      apply run_returns_logged in Erun. destruct Erun as [-> Hsame].
      assert (Hb : is_probe_trial b = false).
      { rewrite Forall_forall in Hlist. apply Hlist.
        eapply nth_error_In. exact Enth. }
      assert (Hi : (i < length (benchmarks st))%nat)
        by (apply nth_error_Some; congruence).
      assert (Hskip : skipn i (benchmarks st)
                      = b :: skipn (S i) (benchmarks st)).
      { rewrite <- (firstn_skipn i (benchmarks st)) in Enth at 1.
        rewrite nth_error_app2 in Enth by (rewrite length_firstn; lia).
        rewrite length_firstn in Enth.
        replace (i - Nat.min i (length (benchmarks st)))%nat with 0%nat
          in Enth by lia.
        destruct (skipn i (benchmarks st)) as [|x rest] eqn:E;
          [discriminate|].
        cbn in Enth. injection Enth as ->.
        f_equal.
        change (S i) with (1 + i)%nat.
        rewrite <- skipn_skipn, E. reflexivity. }
      apply IH in H.
      * destruct H as [j Hj]. exists (S j).
        rewrite Hj, trials_run_log_run, Hlog by exact Hb.
        cbn [benchmarks].
        assert (Hskip' :
                  skipn (S i) (firstn i (benchmarks st)
                               ++ b' :: skipn (S i) (benchmarks st))
                  = skipn (S i) (benchmarks st)).
        { rewrite skipn_app, length_firstn.
          replace (Nat.min i (length (benchmarks st))) with i by lia.
          rewrite skipn_all2 by (rewrite length_firstn; lia).
          replace (S i - i)%nat with 1%nat by lia. reflexivity. }
        rewrite Hskip', Hskip. cbn [firstn].
        rewrite <- app_assoc. reflexivity.
      * cbn [benchmarks].
        rewrite <- (firstn_skipn i (benchmarks st)) in Hlist.
        rewrite Hskip in Hlist.
        apply Forall_app in Hlist. destruct Hlist as [Hl Hr].
        apply Forall_app. split; [exact Hl|].
        constructor; [|exact (Forall_inv_tail Hr)].
        rewrite (is_probe_trial_same b b' Hsame). exact Hb.
Qed.

(** ** A whole pass without drift *)

Lemma check_within (e : Env) (st : run_state) (time_last : Q) (i : nat)
    (w : World) (from : nat) :
  probes_within e (max_clock_speed st) from ->
  (from <= run_count w)%nat ->
  exists st1 time_last1 w1,
    (if calibration_due st i time_last (real_time e (time_reads w))
     then calibrate e st (real_time e (time_reads w)) i
     else ret (Continue st time_last)) (after_time_read w)
    = Ret (Continue st1 time_last1) w1 /\
    benchmarks st1 = benchmarks st /\
    max_clock_speed st1 = max_clock_speed st /\
    trials_run w1 = trials_run w /\
    (run_count w <= run_count w1)%nat.
Proof.
  intros Hprobes Hfrom.
  assert (Hshape : exists st1 time_last1 w1,
             (if calibration_due st i time_last (real_time e (time_reads w))
              then calibrate e st (real_time e (time_reads w)) i
              else ret (Continue st time_last)) (after_time_read w)
             = Ret (Continue st1 time_last1) w1 /\
             benchmarks st1 = benchmarks st /\
             max_clock_speed st1 = max_clock_speed st).
  { destruct (calibration_due st i time_last (real_time e (time_reads w))).
    - rewrite calibrate_unfold.
      destruct (Hprobes (run_count (after_time_read w)) Hfrom)
        as [c [Hc [Hhi Hlo]]].
      rewrite Hc.
      apply Qlt_bool_false_iff in Hhi. rewrite Hhi.
      apply Qlt_bool_false_iff in Hlo. rewrite Hlo.
      unfold ret. cbn [snd]. do 3 eexists. split; [reflexivity|].
      split; reflexivity.
    - unfold ret. do 3 eexists. split; [reflexivity|]. split; reflexivity. }
  destruct Hshape as [st1 [tl1 [w1 [Hcheck [Hbs Hmax]]]]].
  exists st1, tl1, w1.
  pose proof (check_log e st time_last i w w1 _ Hcheck) as [Hlog Hcount].
  repeat (split; [assumption|]). exact Hcount.
Qed.

(** With clock probes that stay within the tolerances and runs that return,
    the loop goes through the rest of the list in one pass: every trial left
    is run once, in the order of the list, and the call returns done. *)
Lemma pass_loop (e : Env) (max : Q) (from : nat)
    (R : benchmark_t -> benchmark_t -> Prop) :
  probes_within e max from ->
  forall todo fuel done first time_last w,
    (length todo < fuel)%nat ->
    (from <= run_count w)%nat ->
    Forall (fun b => is_probe_trial b = false) todo ->
    (forall b w1, In b todo -> (from <= run_count w1)%nat ->
       exists b', run e b w1 = Ret b' (log_run b (feed_eigen b w1)) /\ R b b') ->
    exists todo' w',
      try_loop fuel e {| benchmarks := done ++ todo;
                         first_benchmark_to_run := first;
                         max_clock_speed := max |}
               time_last (length done) w
      = Ret {| benchmarks := done ++ todo';
               first_benchmark_to_run := length (done ++ todo');
               max_clock_speed := max |} w' /\
      Forall2 R todo todo' /\
      trials_run w' = trials_run w ++ todo.
Proof.
  intros Hprobes.
  induction todo as [|b todo IH];
    intros fuel done first time_last w Hfuel Hfrom Hlist Hrun;
    (destruct fuel as [|fuel]; [cbn [length] in Hfuel; lia|]);
    rewrite try_loop_unfold;
    match goal with
    | |- context [calibration_due ?st _ _ _] =>
        destruct (check_within e st time_last (length done) w from
                               Hprobes Hfrom)
          as [st1 [tl1 [w1 [Hcheck [Hbs [Hmax [Hlog Hcount]]]]]]]
    end;
    rewrite Hcheck, Hbs; cbn [benchmarks max_clock_speed] in *.
  - rewrite app_nil_r, Nat.eqb_refl. exists [], w1.
    rewrite !app_nil_r, Hmax.
    split; [reflexivity|]. split; [constructor | exact Hlog].
  - assert (Hne : (length done =? length (done ++ b :: todo))%nat = false).
    { apply Nat.eqb_neq. rewrite length_app. cbn [length]. lia. }
    rewrite Hne. unfold run_at.
    assert (Hnth : nth_error (done ++ b :: todo) (length done) = Some b).
    { rewrite nth_error_app2, Nat.sub_diag by lia. reflexivity. }
    rewrite Hnth. unfold bind.
    destruct (Hrun b w1 (or_introl eq_refl)) as [b' [Hrunb Hb']]; [lia|].
    rewrite Hrunb. unfold ret.
    rewrite firstn_length_app, skipn_S_length_app.
    replace (done ++ b' :: todo) with ((done ++ [b']) ++ todo)
      by (rewrite <- app_assoc; reflexivity).
    replace (S (length done)) with (length (done ++ [b']))
      by (rewrite length_app; cbn [length]; lia).
    destruct (IH fuel (done ++ [b']) (first_benchmark_to_run st1) tl1
                 (log_run b (feed_eigen b w1)))
      as [todo' [w' [Hloop [Hall Hruns]]]].
    + cbn [length] in Hfuel. lia.
    + rewrite run_count_log_run. lia.
    + exact (Forall_inv_tail Hlist).
    + intros b0 w0 Hin Hw0. apply Hrun; [right; exact Hin | exact Hw0].
    + rewrite Hmax, Hloop.
      exists (b' :: todo'), w'.
      rewrite <- !app_assoc. cbn [List.app]. split; [reflexivity|].
      split; [constructor; assumption|].
      rewrite Hruns, trials_run_log_run, Hlog by exact (Forall_inv Hlist).
      rewrite <- app_assoc. reflexivity.
Qed.

(** With a kernel of fixed cost [C] per call and clock probes that stay
    within the tolerances, one call of [try_run_some_benchmarks] from the
    first trial runs every trial of the list exactly once, in the order of
    the list, and returns done (the first benchmark to run is the length of
    the list, the best clock speed is kept): each trial comes back with the
    throughput [2e-9 * k * m * n / C] and is otherwise unchanged, and the
    log of the trials run grows by the list itself. *)
Theorem steady_kernel_single_pass (e : Env) (C max : Q)
    (bs : list benchmark_t) (w : World) :
  (forall i, batch_cpu_time e i = (fun iters => inject_Z iters * C)%Q) ->
  (0 < C)%Q ->
  probes_within e max (run_count w) ->
  Forall (fun b => (0 < min_accurate_time b)%Q /\
                   (min_accurate_time b <= inject_Z (2 ^ 30) * C)%Q) bs ->
  Forall (fun b => is_probe_trial b = false) bs ->
  exists bs' w',
    try_run_some_benchmarks e {| benchmarks := bs;
                                 first_benchmark_to_run := 0;
                                 max_clock_speed := max |} w
    = Ret {| benchmarks := bs';
             first_benchmark_to_run := length bs';
             max_clock_speed := max |} w' /\
    Forall2 (measured_at C) bs bs' /\
    trials_run w' = trials_run w ++ bs.
Proof.
  intros Hsteady HC Hprobes Hthr Hlist. unfold try_run_some_benchmarks.
  cbn [first_benchmark_to_run benchmarks].
  destruct bs as [|b bs].
  - exists [], w. rewrite app_nil_r.
    split; [reflexivity|]. split; [constructor | reflexivity].
  - cbn [length Nat.eqb].
    destruct (pass_loop e max (run_count w) (measured_at C) Hprobes (b :: bs)
                (S (S (length bs))) [] 0%nat 0 w)
      as [bs' [w' [Hloop [Hall Hruns]]]].
    + cbn [length]. lia.
    + lia.
    + exact Hlist.
    + intros b0 w0 Hin _. rewrite Forall_forall in Hthr.
      destruct (Hthr b0 Hin) as [HT Hreach].
      destruct (run_steady e b0 w0 C (Hsteady _) HC HT Hreach)
        as [g [Hrun Hg]].
      exists (set_gflops b0 g). split; [exact Hrun|].
      split; [destruct b0; reflexivity | exact Hg].
    + exists bs', w'. split; [exact Hloop|]. split; [exact Hall | exact Hruns].
Qed.

Lemma steady_kernel_single_pass_witness :
  exists bs' w',
    try_run_some_benchmarks (steady_env (1 # 10))
      {| benchmarks := [benchmark_t3 0 16 16 16; benchmark_t3 0 32 16 16];
         first_benchmark_to_run := 0;
         max_clock_speed := 207 # 10 |} initial_world
    = Ret {| benchmarks := bs';
             first_benchmark_to_run := length bs';
             max_clock_speed := 207 # 10 |} w' /\
    Forall2 (measured_at (1 # 10))
            [benchmark_t3 0 16 16 16; benchmark_t3 0 32 16 16] bs' /\
    trials_run w'
    = trials_run initial_world
      ++ [benchmark_t3 0 16 16 16; benchmark_t3 0 32 16 16].
Proof.
  apply (steady_kernel_single_pass (steady_env (1 # 10)) (1 # 10) (207 # 10)).
  - intros i. reflexivity.
  - reflexivity.
  - intros start _. eexists. split; [reflexivity|].
    split; vm_compute; discriminate.
  - repeat constructor; vm_compute; discriminate.
  - repeat constructor.
Defined.

(** ** The restart after an upward drift *)

Lemma run_loop_unfold (fuel : nat) (e : Env) (st : run_state) (w : World) :
  run_loop (S fuel) e st w
  = if (first_benchmark_to_run st <? length (benchmarks st))%nat
    then match try_run_some_benchmarks e st w with
         | Ret st' w' => run_loop fuel e st' w'
         | Exit status w' => Exit status w'
         | Undefined => Undefined
         | OutOfFuel => OutOfFuel
         end
    else Ret st w.
Proof.
  cbn [run_loop].
  destruct (first_benchmark_to_run st <? length (benchmarks st))%nat;
    reflexivity.
Qed.

(** Claim C5.  When a clock-speed check measures a speed [current] strictly
    above 1.01 times the best speed seen, [try_run_some_benchmarks] returns
    at once, without running a trial: it stores [current] as the best speed
    and sets the first benchmark to run to 0, leaving the trial list as it
    is (same trials, same order).  The trials are then run again from the
    beginning: whatever the environment does, the trials run by the next
    call of [try_run_some_benchmarks] are the first [j] trials of the list,
    in the order of the list; and when from then on the clock probes stay
    within the tolerances of [current] and no timer overflows, the loop of
    [run_benchmarks] ends after running the whole list again, each trial
    once, from the first to the last. *)
Theorem upward_drift_restarts (e : Env) (st : run_state) (time_last : Q)
    (benchmark_index fuel : nat) (w : World) (current : Q) :
  calibration_due st benchmark_index time_last (real_time e (time_reads w))
  = true ->
  probe_estimate e (run_count w) = Some current ->
  (tolerance_higher_clock_speed * max_clock_speed st < current)%Q ->
  let restarted := {| benchmarks := benchmarks st;
                      first_benchmark_to_run := 0;
                      max_clock_speed := current |} in
  let w' := after_probes 8 (after_time_read w) in
  try_loop (S fuel) e st time_last benchmark_index w = Ret restarted w' /\
  trials_run w' = trials_run w /\
  (Forall (fun b => is_probe_trial b = false) (benchmarks st) ->
   (forall st'' w'',
      try_run_some_benchmarks e restarted w' = Ret st'' w'' ->
      exists j, trials_run w'' = trials_run w ++ firstn j (benchmarks st)) /\
   (probes_within e current (run_count w') ->
    timers_accept e (benchmarks st) (run_count w') ->
    forall fuel', exists bs' w'',
      run_loop (S (S fuel')) e restarted w'
      = Ret {| benchmarks := bs';
               first_benchmark_to_run := length bs';
               max_clock_speed := current |} w'' /\
      Forall2 same_but_gflops (benchmarks st) bs' /\
      trials_run w'' = trials_run w ++ benchmarks st)).
Proof.
  intros Hdue Hprobe Hhigh restarted w'. subst restarted.
  assert (Hlog : trials_run w' = trials_run w).
  { unfold w'. rewrite trials_run_after_probes.
    apply trials_run_events. reflexivity. }
  split; [|split; [exact Hlog|]].
  - rewrite try_loop_unfold, Hdue, calibrate_unfold.
    change (run_count (after_time_read w)) with (run_count w).
    rewrite Hprobe.
    apply Qlt_bool_iff in Hhigh. rewrite Hhigh. reflexivity.
  - intros Hlist. split.
    + intros st'' w'' Hcall. unfold try_run_some_benchmarks in Hcall.
      cbn [first_benchmark_to_run benchmarks] in Hcall.
      destruct (0 =? length (benchmarks st))%nat.
      * unfold ret in Hcall. injection Hcall as _ <-. exists 0%nat.
        rewrite Hlog, app_nil_r. reflexivity.
      * apply try_loop_runs in Hcall; [|exact Hlist].
        destruct Hcall as [j Hj]. exists j.
        rewrite Hj, Hlog. reflexivity.
    + intros Hprobes Htimers fuel'.
      destruct (benchmarks st) as [|b bs] eqn:Ebs.
      * exists [], w'. rewrite app_nil_r.
        split; [reflexivity|]. split; [constructor | exact Hlog].
      * destruct (pass_loop e current (run_count w') same_but_gflops Hprobes
                    (b :: bs) (S (S (length bs))) [] 0%nat 0 w')
          as [bs' [w'' [Hloop [Hall Hruns]]]].
        -- cbn [length]. lia.
        -- lia.
        -- exact Hlist.
        -- intros b0 w0 Hin Hw0. apply run_returns.
           apply Htimers; assumption.
        -- exists bs', w''.
           pose proof (Forall2_length Hall) as Hlen.
           rewrite run_loop_unfold.
           cbn [first_benchmark_to_run benchmarks length].
           change (0 <? S (length bs))%nat with true. cbv iota.
           unfold try_run_some_benchmarks.
           cbn [first_benchmark_to_run benchmarks length Nat.eqb].
           cbn [List.app length] in Hloop. rewrite Hloop.
           rewrite run_loop_unfold.
           cbn [List.app first_benchmark_to_run benchmarks].
           rewrite Nat.ltb_irrefl.
           split; [reflexivity|].
           split; [exact Hall | rewrite Hruns, Hlog; reflexivity].
Qed.

Lemma upward_drift_restarts_witness :
  let e := steady_env (1 # 10) in
  let bs := [set_gflops (benchmark_t3 0 16 16 16) 5; benchmark_t3 0 32 16 16] in
  let w' := after_probes 8 (after_time_read initial_world) in
  exists current,
    (tolerance_higher_clock_speed * 10 < current)%Q /\
    try_loop 3 e {| benchmarks := bs;
                    first_benchmark_to_run := 1;
                    max_clock_speed := 10 |} 0 1 initial_world
    = Ret {| benchmarks := bs;
             first_benchmark_to_run := 0;
             max_clock_speed := current |} w' /\
    exists bs' w'',
      run_loop 2 e {| benchmarks := bs;
                      first_benchmark_to_run := 0;
                      max_clock_speed := current |} w'
      = Ret {| benchmarks := bs';
               first_benchmark_to_run := length bs';
               max_clock_speed := current |} w'' /\
      trials_run w'' = trials_run initial_world ++ bs.
Proof.
  intros e bs w'.
  assert (Hprobe : exists current,
             probe_estimate e (run_count initial_world) = Some current /\
             (tolerance_higher_clock_speed * 10 < current)%Q).
  { eexists. split; [vm_compute; reflexivity | vm_compute; reflexivity]. }
  destruct Hprobe as [current [Hprobe Hhigh]].
  exists current. split; [exact Hhigh|].
  destruct (upward_drift_restarts
              e {| benchmarks := bs;
                   first_benchmark_to_run := 1;
                   max_clock_speed := 10 |}
              0 1 2 initial_world current)
    as [Hrestart [_ Hagain]].
  - reflexivity.
  - exact Hprobe.
  - exact Hhigh.
  - split; [exact Hrestart|].
    destruct Hagain as [_ Hpass]; [repeat constructor|].
    destruct (Hpass) with (fuel' := 0%nat) as [bs' [w'' [Hloop [_ Hruns]]]].
    + intros start _. exists current.
      split; [rewrite <- Hprobe; reflexivity|].
      vm_compute in Hprobe. injection Hprobe as <-.
      split; vm_compute; discriminate.
    + intros i b _ [<-|[<-|[]]]; vm_compute; discriminate.
    + exists bs', w''. split; [exact Hloop | exact Hruns].
Defined.

(** ** The rounding to [float] *)

Lemma round_half_even_bounds (x : Q) :
  Qfloor x <= round_half_even x <= Qfloor x + 1.
Proof.
  unfold round_half_even.
  destruct (x - inject_Z (Qfloor x) ?= 1 # 2)%Q;
    [destruct (Z.even (Qfloor x))|..]; lia.
Qed.

Lemma round_half_even_mono (x y : Q) :
  (x <= y)%Q -> round_half_even x <= round_half_even y.
Proof.
  intros Hxy.
  pose proof (Qfloor_resp_le x y Hxy) as Hf.
  pose proof (round_half_even_bounds x) as Hx.
  pose proof (round_half_even_bounds y) as Hy.
  destruct (Z.eq_dec (Qfloor x) (Qfloor y)) as [E|E]; [|lia].
  unfold round_half_even in *. rewrite <- E in *.
  assert (Hfrac : (x - inject_Z (Qfloor x) <= y - inject_Z (Qfloor x))%Q).
  { apply Qplus_le_l with (z := inject_Z (Qfloor x)). ring_simplify. exact Hxy. }
  assert (Hno1 : (x - inject_Z (Qfloor x) ?= 1 # 2)%Q = Eq ->
                 (y - inject_Z (Qfloor x) ?= 1 # 2)%Q = Lt -> False).
  { intros Cx Cy. apply Qeq_alt in Cx. apply Qlt_alt in Cy.
    rewrite Cx in Hfrac. apply Qle_not_lt in Hfrac. contradiction. }
  assert (Hno2 : (x - inject_Z (Qfloor x) ?= 1 # 2)%Q = Gt ->
                 (y - inject_Z (Qfloor x) ?= 1 # 2)%Q = Eq -> False).
  { intros Cx Cy. apply Qgt_alt in Cx. apply Qeq_alt in Cy.
    rewrite Cy in Hfrac. apply Qle_not_lt in Hfrac. contradiction. }
  assert (Hno3 : (x - inject_Z (Qfloor x) ?= 1 # 2)%Q = Gt ->
                 (y - inject_Z (Qfloor x) ?= 1 # 2)%Q = Lt -> False).
  { intros Cx Cy. apply Qgt_alt in Cx. apply Qlt_alt in Cy.
    assert ((1 # 2) < 1 # 2)%Q.
    { eapply Qlt_le_trans; [exact Cx|].
      eapply Qle_trans; [exact Hfrac|]. apply Qlt_le_weak. exact Cy. }
    discriminate. }
  destruct (x - inject_Z (Qfloor x) ?= 1 # 2)%Q;
    destruct (y - inject_Z (Qfloor x) ?= 1 # 2)%Q;
    try (exfalso; auto; fail);
    destruct (Z.even (Qfloor x)); lia.
Qed.

Lemma round_half_even_Z (z : Z) : round_half_even (inject_Z z) = z.
Proof.
  unfold round_half_even. rewrite Qfloor_Z.
  assert (E : (inject_Z z - inject_Z z ?= 1 # 2)%Q = Lt).
  { apply (proj1 (Qlt_alt _ _)).
    setoid_replace (inject_Z z - inject_Z z)%Q with 0%Q by ring. reflexivity. }
  rewrite E. reflexivity.
Qed.

(** Powers of two. *)
Lemma pow2_pos (e : Z) : (0 < 2 ^ e)%Q.
Proof. apply Qpower_0_lt. reflexivity. Qed.

Lemma pow2_add (a b : Z) : (2 ^ (a + b) == 2 ^ a * 2 ^ b)%Q.
Proof. apply Qpower_plus. discriminate. Qed.

Lemma pow2_le (a b : Z) : a <= b -> (2 ^ a <= 2 ^ b)%Q.
Proof. intros H. apply Qpower_le_compat_l; [exact H | discriminate]. Qed.

Lemma pow2_lt (a b : Z) : a < b -> (2 ^ a < 2 ^ b)%Q.
Proof. intros H. apply Qpower_lt_compat_l; [exact H | reflexivity]. Qed.

Lemma pow2_inject (a : Z) : 0 <= a -> (inject_Z (2 ^ a) == 2 ^ a)%Q.
Proof. intros H. apply (Zpower_Qpower 2 a H). Qed.

Lemma Qnum_den (x : Q) :
  (x * inject_Z (Zpos (Qden x)) == inject_Z (Qnum x))%Q.
Proof.
  destruct x as [n d]. unfold Qeq, Qmult, inject_Z. cbn. lia.
Qed.

Lemma leading_exponent_spec (x : Q) :
  (0 < x)%Q ->
  (2 ^ leading_exponent x <= x /\ x < 2 ^ (leading_exponent x + 1))%Q.
Proof.
  intros Hx.
  assert (Hn : 0 < Qnum x).
  { destruct x as [n d]. unfold Qlt in Hx. cbn in *. lia. }
  set (a := Z.log2 (Qnum x)). set (b := Z.log2 (Zpos (Qden x))).
  pose proof (Z.log2_spec (Qnum x) Hn) as Ha. fold a in Ha.
  pose proof (Z.log2_spec (Zpos (Qden x)) (Pos2Z.is_pos _)) as Hb. fold b in Hb.
  assert (Ha0 : 0 <= a) by apply Z.log2_nonneg.
  assert (Hb0 : 0 <= b) by apply Z.log2_nonneg.
  assert (Hd : (0 < inject_Z (Zpos (Qden x)))%Q) by reflexivity.
  pose proof (Qnum_den x) as Hnd.
  (* x < 2^(a-b+1) *)
  assert (Hup : (x < 2 ^ (a - b + 1))%Q).
  { apply Qmult_lt_r with (z := inject_Z (Zpos (Qden x))); [exact Hd|].
    rewrite Hnd.
    apply Qlt_le_trans with (y := (2 ^ (a - b + 1) * 2 ^ b)%Q).
    - rewrite <- pow2_add. replace (a - b + 1 + b) with (Z.succ a) by lia.
      rewrite <- pow2_inject by lia. rewrite <- Zlt_Qlt. lia.
    - apply Qmult_le_l; [apply pow2_pos|].
      rewrite <- pow2_inject by lia. rewrite <- Zle_Qle. lia. }
  assert (Hlow : (2 ^ (a - b - 1) < x)%Q).
  { apply Qmult_lt_r with (z := inject_Z (Zpos (Qden x))); [exact Hd|].
    rewrite Hnd.
    apply Qlt_le_trans with (y := (2 ^ (a - b - 1) * 2 ^ (b + 1))%Q).
    - apply Qmult_lt_l; [apply pow2_pos|].
      rewrite <- pow2_inject by lia. rewrite <- Zlt_Qlt.
      replace (b + 1) with (Z.succ b) by lia. lia.
    - rewrite <- pow2_add. replace (a - b - 1 + (b + 1)) with a by lia.
      rewrite <- pow2_inject by lia. rewrite <- Zle_Qle. lia. }
  unfold leading_exponent. fold a b.
  destruct (Qle_bool (2 ^ (a - b)) x) eqn:E.
  - apply Qle_bool_iff in E. split; assumption.
  - assert (Hlt : (x < 2 ^ (a - b))%Q).
    { apply Qnot_le_lt. intros H. apply Qle_bool_iff in H. congruence. }
    split; [apply Qlt_le_weak; exact Hlow|].
    replace (a - b - 1 + 1) with (a - b) by lia. exact Hlt.
Qed.

Lemma leading_exponent_mono (x y : Q) :
  (0 < x)%Q -> (x <= y)%Q -> leading_exponent x <= leading_exponent y.
Proof.
  intros Hx Hxy.
  assert (Hy : (0 < y)%Q) by (eapply Qlt_le_trans; eassumption).
  destruct (leading_exponent_spec x Hx) as [Hx1 _].
  destruct (leading_exponent_spec y Hy) as [_ Hy2].
  destruct (Z_le_gt_dec (leading_exponent x) (leading_exponent y)) as [H|H];
    [exact H|].
  exfalso.
  assert (Hle : (2 ^ (leading_exponent y + 1) <= 2 ^ leading_exponent x)%Q)
    by (apply pow2_le; lia).
  assert (y < y)%Q.
  { eapply Qlt_le_trans; [exact Hy2|].
    eapply Qle_trans; [exact Hle|].
    eapply Qle_trans; [exact Hx1 | exact Hxy]. }
  eapply Qlt_irrefl; eassumption.
Qed.

Lemma Qdiv_le_mono (x y c : Q) : (0 < c)%Q -> (x <= y)%Q -> (x / c <= y / c)%Q.
Proof.
  intros Hc Hxy. apply Qle_shift_div_l; [exact Hc|].
  setoid_replace (x / c * c)%Q with x by (field; intros E; rewrite E in Hc; discriminate).
  exact Hxy.
Qed.

Section RoundPositive.
Variables prec emin : Z.
Hypothesis Hprec : 1 <= prec.

Lemma round_positive_nonneg (x : Q) :
  (0 < x)%Q -> (0 <= round_positive prec emin x)%Q.
Proof.
  intros Hx. unfold round_positive.
  set (u := Z.max (leading_exponent x - (prec - 1)) emin).
  apply Qmult_le_0_compat; [|apply Qlt_le_weak, pow2_pos].
  change 0%Q with (inject_Z 0). rewrite <- Zle_Qle.
  rewrite <- (round_half_even_Z 0). apply round_half_even_mono.
  apply Qle_shift_div_l; [apply pow2_pos|].
  rewrite Qmult_0_l. apply Qlt_le_weak. exact Hx.
Qed.

Lemma round_positive_mono (x y : Q) :
  (0 < x)%Q -> (x <= y)%Q ->
  (round_positive prec emin x <= round_positive prec emin y)%Q.
Proof.
  intros Hx Hxy.
  assert (Hy : (0 < y)%Q) by (eapply Qlt_le_trans; eassumption).
  pose proof (leading_exponent_mono x y Hx Hxy) as He.
  destruct (leading_exponent_spec x Hx) as [_ Hx2].
  destruct (leading_exponent_spec y Hy) as [Hy1 _].
  unfold round_positive.
  set (ex := leading_exponent x) in *. set (ey := leading_exponent y) in *.
  set (ux := Z.max (ex - (prec - 1)) emin).
  set (uy := Z.max (ey - (prec - 1)) emin).
  destruct (Z.eq_dec ux uy) as [E|E].
  - rewrite <- E. apply Qmult_le_compat_r; [|apply Qlt_le_weak, pow2_pos].
    rewrite <- Zle_Qle. apply round_half_even_mono.
    apply Qdiv_le_mono; [apply pow2_pos | exact Hxy].
  - assert (Huy : uy = ey - (prec - 1)) by lia.
    assert (Hux : ux < uy) by lia.
    assert (Hex : ex < ey) by lia.
    apply Qle_trans with (y := (2 ^ ey)%Q).
    + (* the rounded x stays at or below 2^ey *)
      setoid_replace (2 ^ ey)%Q with (inject_Z (2 ^ (ey - ux)) * 2 ^ ux)%Q.
      2:{ rewrite pow2_inject by lia. rewrite <- pow2_add.
          replace (ey - ux + ux) with ey by lia. reflexivity. }
      apply Qmult_le_compat_r; [|apply Qlt_le_weak, pow2_pos].
      rewrite <- Zle_Qle.
      rewrite <- (round_half_even_Z (2 ^ (ey - ux))).
      apply round_half_even_mono.
      apply Qle_shift_div_r; [apply pow2_pos|].
      rewrite pow2_inject by lia. rewrite <- pow2_add.
      replace (ey - ux + ux) with ey by lia.
      apply Qlt_le_weak. eapply Qlt_le_trans; [exact Hx2|].
      apply pow2_le. lia.
    + (* the rounded y stays at or above 2^ey *)
      setoid_replace (2 ^ ey)%Q with (inject_Z (2 ^ (prec - 1)) * 2 ^ uy)%Q.
      2:{ rewrite pow2_inject by lia. rewrite <- pow2_add.
          replace (prec - 1 + uy) with ey by lia. reflexivity. }
      apply Qmult_le_compat_r; [|apply Qlt_le_weak, pow2_pos].
      rewrite <- Zle_Qle.
      rewrite <- (round_half_even_Z (2 ^ (prec - 1))) at 1.
      apply round_half_even_mono.
      apply Qle_shift_div_l; [apply pow2_pos|].
      rewrite pow2_inject by lia. rewrite <- pow2_add.
      replace (prec - 1 + uy) with ey by lia. exact Hy1.
Qed.

Lemma round_binary_mono (x y : Q) :
  (x <= y)%Q -> (round_binary prec emin x <= round_binary prec emin y)%Q.
Proof.
  intros Hxy. unfold round_binary.
  destruct (x ?= 0)%Q eqn:Cx; destruct (y ?= 0)%Q eqn:Cy;
    first [apply Qeq_alt in Cx | apply Qlt_alt in Cx | apply Qgt_alt in Cx];
    first [apply Qeq_alt in Cy | apply Qlt_alt in Cy | apply Qgt_alt in Cy].
  - apply Qle_refl.
  - exfalso. rewrite Cx in Hxy. apply Qle_not_lt in Hxy. contradiction.
  - apply round_positive_nonneg. exact Cy.
  - apply (Qopp_le_compat 0). apply round_positive_nonneg.
    apply (Qopp_lt_compat x 0). exact Cx.
  - apply Qopp_le_compat. apply round_positive_mono.
    + apply (Qopp_lt_compat y 0). exact Cy.
    + apply Qopp_le_compat. exact Hxy.
  - apply Qle_trans with (y := 0%Q).
    + apply (Qopp_le_compat 0). apply round_positive_nonneg.
      apply (Qopp_lt_compat x 0). exact Cx.
    + apply round_positive_nonneg. exact Cy.
  - exfalso. rewrite Cy in Hxy. apply Qle_not_lt in Hxy. contradiction.
  - exfalso. apply Qle_not_lt in Hxy. apply Hxy.
    eapply Qlt_trans; eassumption.
  - apply round_positive_mono; assumption.
Qed.

End RoundPositive.

Lemma to_float_mono (x y : Q) : (x <= y)%Q -> (to_float x <= to_float y)%Q.
Proof. apply round_binary_mono. lia. Qed.

Lemma round_half_even_above (z : Q) :
  (inject_Z (round_half_even z) - z <= 1 # 2)%Q.
Proof.
  pose proof (Qfloor_le z) as Hf.
  unfold round_half_even.
  destruct (z - inject_Z (Qfloor z) ?= 1 # 2)%Q eqn:C.
  - apply Qeq_alt in C.
    destruct (Z.even (Qfloor z)); [lra|].
    rewrite inject_Z_plus. change (inject_Z 1) with 1%Q. lra.
  - lra.
  - apply Qgt_alt in C.
    rewrite inject_Z_plus. change (inject_Z 1) with 1%Q. lra.
Qed.

(** Rounding a positive number raises it by at most half a unit in the
    last place. *)
Lemma round_positive_above (prec emin : Z) (x : Q) :
  (round_positive prec emin x - x
   <= 2 ^ (Z.max (leading_exponent x - (prec - 1)) emin - 1))%Q.
Proof.
  unfold round_positive.
  set (u := Z.max (leading_exponent x - (prec - 1)) emin).
  pose proof (round_half_even_above (x / 2 ^ u)) as H.
  assert (Hu : ~ (2 ^ u == 0)%Q).
  { intros E. pose proof (pow2_pos u) as Hp. rewrite E in Hp. discriminate. }
  setoid_replace (inject_Z (round_half_even (x / 2 ^ u)) * 2 ^ u - x)%Q
    with ((inject_Z (round_half_even (x / 2 ^ u)) - x / 2 ^ u) * 2 ^ u)%Q
    by (field; exact Hu).
  setoid_replace (2 ^ (u - 1))%Q with ((1 # 2) * 2 ^ u)%Q.
  2:{ replace (u - 1) with (-1 + u) by lia. rewrite pow2_add. reflexivity. }
  apply Qmult_le_compat_r; [exact H | apply Qlt_le_weak, pow2_pos].
Qed.

(** A normal threshold that the rounded duration reaches is reached by
    the duration itself up to the relative error [2^-24]. *)
Lemma to_float_reaches (x T : Q) :
  (0 < x)%Q -> (2 ^ (-126) <= T)%Q -> (T <= to_float x)%Q ->
  (T * (1 - 2 ^ (-24)) <= x)%Q.
Proof.
  intros Hx HT Hreach.
  assert (HT0 : (0 < T)%Q) by (eapply Qlt_le_trans; [apply pow2_pos | exact HT]).
  assert (Hc : (0 <= T * 2 ^ (-24))%Q).
  { apply Qmult_le_0_compat; apply Qlt_le_weak; [exact HT0 | apply pow2_pos]. }
  setoid_replace (T * (1 - 2 ^ (-24)))%Q with (T - T * 2 ^ (-24))%Q by ring.
  destruct (Qlt_le_dec x T) as [Hlt|Hge]; [|lra].
  assert (Hpos : to_float x = round_positive 24 (-149) x).
  { unfold to_float, round_binary.
    assert (E : (x ?= 0)%Q = Gt) by (apply (proj1 (Qgt_alt _ _)); exact Hx).
    rewrite E. reflexivity. }
  rewrite Hpos in Hreach.
  pose proof (round_positive_above 24 (-149) x) as Habove.
  set (u := Z.max (leading_exponent x - (24 - 1)) (-149)) in *.
  pose proof (leading_exponent_mono x T Hx (Qlt_le_weak _ _ Hlt)) as He.
  destruct (leading_exponent_spec T HT0) as [HT1 HT2].
  assert (HeT : -126 <= leading_exponent T).
  { destruct (Z_le_gt_dec (-126) (leading_exponent T)) as [H|H]; [exact H|].
    exfalso.
    assert (Hp : (2 ^ (leading_exponent T + 1) <= 2 ^ (-126))%Q)
      by (apply pow2_le; lia).
    lra. }
  assert (Hu : (2 ^ (u - 1) <= T * 2 ^ (-24))%Q).
  { apply Qle_trans with (y := (2 ^ leading_exponent T * 2 ^ (-24))%Q).
    - rewrite <- pow2_add. apply pow2_le. lia.
    - apply Qmult_le_compat_r; [exact HT1 | apply Qlt_le_weak, pow2_pos]. }
  lra.
Qed.

(** ** The accepted iteration count *)

(** Claim C2, as the code has it.  The duration the timer tests is the CPU
    time of the batch converted to [float].  For a kernel of fixed cost
    [C > 0] per call and a [float] threshold [T > 0] that [2^30] calls
    reach, the timer accepts the first count [N] of 1, 2, 4, ... whose
    duration as a [float] is at least [T], and the time per iteration is
    that duration divided by [N].  So [(N / 2) * C < T] ([N / 2] the integer
    quotient), as for every earlier count, and [N * C] reaches [T] up to the
    rounding of the conversion: [float(N * C) >= T], hence
    [N * C >= T * (1 - 2^-24)] for a normal [T]. *)
Theorem timer_minimal_doubling (C T : Q) :
  (0 < C)%Q -> (0 < T)%Q -> (to_float T == T)%Q ->
  (T <= inject_Z (2 ^ 30) * C)%Q ->
  exists (j : nat) (N : Z) (time_per_iter : Q),
    adaptive_timer (float_timing (fixed_cost C)) T = Accepted N time_per_iter /\
    (j <= 30)%nat /\ N = 2 ^ Z.of_nat j /\
    (T <= to_float (inject_Z N * C))%Q /\
    (2 ^ (-126) <= T -> T * (1 - 2 ^ (-24)) <= inject_Z N * C)%Q /\
    (inject_Z (N / 2) * C < T)%Q /\
    (forall j' : nat, (j' < j)%nat ->
       (to_float (inject_Z (2 ^ Z.of_nat j') * C) < T)%Q /\
       (inject_Z (2 ^ Z.of_nat j') * C < T)%Q) /\
    time_per_iter = (to_float (inject_Z N * C) / inject_Z N)%Q.
Proof.
  intros HC HT HfT Hreach.
  assert (Hbelow : forall i : Z,
             (to_float (inject_Z i * C) < T)%Q -> (inject_Z i * C < T)%Q).
  { intros i Hi. apply Qnot_le_lt. intros Hle.
    apply to_float_mono in Hle. rewrite HfT in Hle. lra. }
  pose proof (adaptive_timer_cases (float_timing (fixed_cost C)) T) as Hcases.
  destruct (adaptive_timer (float_timing (fixed_cost C)) T)
    as [N time_per_iter| |]; [| |contradiction].
  - destruct Hcases as [j [Hj [HN [Hacc [Htime Hfirst]]]]].
    unfold float_timing, fixed_cost in Hacc, Htime, Hfirst.
    exists j, N, time_per_iter.
    split; [reflexivity|]. split; [exact Hj|]. split; [exact HN|].
    split; [exact Hacc|].
    assert (HNpos : 0 < N) by (subst N; apply Z.pow_pos_nonneg; lia).
    split.
    { intros Hnormal. apply to_float_reaches; [|exact Hnormal | exact Hacc].
      apply Qmult_lt_0_compat; [|exact HC].
      change 0%Q with (inject_Z 0). rewrite <- Zlt_Qlt. exact HNpos. }
    split.
    { destruct j as [|j0].
      - subst N. change (inject_Z (2 ^ Z.of_nat 0 / 2)) with 0%Q. lra.
      - assert (Hhalf : N / 2 = 2 ^ Z.of_nat j0).
        { subst N. rewrite Nat2Z.inj_succ, Z.pow_succ_r by lia.
          rewrite Z.mul_comm, Z.div_mul by lia. reflexivity. }
        rewrite Hhalf. apply Hbelow. apply Hfirst. lia. }
    split; [|exact Htime].
    intros j' Hj'. split; [apply Hfirst; exact Hj'|].
    apply Hbelow. apply Hfirst. exact Hj'.
  - exfalso.
    specialize (Hcases 30%nat (le_n _)).
    unfold float_timing, fixed_cost in Hcases.
    change (2 ^ Z.of_nat 30) with (2 ^ 30) in Hcases.
    apply to_float_mono in Hreach. rewrite HfT in Hreach. lra.
Qed.

Lemma timer_minimal_doubling_witness :
  exists time_per_iter,
    adaptive_timer (float_timing (fixed_cost (1 # 1000))) (to_float (1 # 100))
    = Accepted 16 time_per_iter /\
    (to_float (1 # 100) <= to_float (inject_Z 16 * (1 # 1000)))%Q /\
    (inject_Z 8 * (1 # 1000) < to_float (1 # 100))%Q.
Proof.
  destruct (timer_minimal_doubling (1 # 1000) (to_float (1 # 100)))
    as [j [N [time_per_iter [Hrun [_ [_ [Hacc [_ [Hhalf _]]]]]]]]].
  - reflexivity.
  - vm_compute. reflexivity.
  - vm_compute. reflexivity.
  - vm_compute. discriminate.
  - assert (HN : N = 16).
    { vm_compute in Hrun. injection Hrun as <- _. reflexivity. }
    subst N. exists time_per_iter.
    split; [exact Hrun|]. split; [exact Hacc | exact Hhalf].
Defined.

(** Claim C2 as stated fails at the rounding of the duration.  With the
    default threshold [1e-2f] and a kernel call that costs a quarter of a
    unit in the last place less, the CPU time of the first batch is below
    the threshold and its conversion to [float] is the threshold: the timer
    accepts [N = 1] with [N * C < T].  The same happens at
    [C = 0.0099999993765]. *)
Lemma timer_accepts_below_threshold :
  let T := to_float (1 # 100) in
  let C := (42949671 # 4294967296)%Q in
  let C' := (99999993765 # 10000000000000)%Q in
  (0 < C)%Q /\ (0 < T)%Q /\
  (T == 10737418 # 1073741824)%Q /\
  (exists time_per_iter,
     adaptive_timer (float_timing (fixed_cost C)) T
     = Accepted 1 time_per_iter) /\
  (inject_Z 1 * C < T)%Q /\
  (exists time_per_iter,
     adaptive_timer (float_timing (fixed_cost C')) T
     = Accepted 1 time_per_iter) /\
  (inject_Z 1 * C' < T)%Q /\
  ~ (forall N time_per_iter,
       adaptive_timer (float_timing (fixed_cost C)) T
       = Accepted N time_per_iter ->
       (T <= inject_Z N * C)%Q).
Proof.
  intros T C C'.
  split; [reflexivity|]. split; [vm_compute; reflexivity|].
  split; [vm_compute; reflexivity|].
  assert (H1 : exists time_per_iter,
             adaptive_timer (float_timing (fixed_cost C)) T
             = Accepted 1 time_per_iter)
    by (eexists; vm_compute; reflexivity).
  assert (Hlt : (inject_Z 1 * C < T)%Q) by (vm_compute; reflexivity).
  split; [exact H1|]. split; [exact Hlt|].
  split; [eexists; vm_compute; reflexivity|].
  split; [vm_compute; reflexivity|].
  intros Hclaim. destruct H1 as [t Ht].
  specialize (Hclaim 1 t Ht). lra.
Qed.

(** ** The clock-speed estimate *)

Lemma float_add_mono (a b c d : Q) :
  (a <= c)%Q -> (b <= d)%Q -> (float_add a b <= float_add c d)%Q.
Proof. intros H1 H2. apply to_float_mono. lra. Qed.

Lemma float_mul_mono (a b c : Q) :
  (0 <= c)%Q -> (a <= b)%Q -> (float_mul a c <= float_mul b c)%Q.
Proof.
  intros Hc Hab. apply to_float_mono.
  apply Qmult_le_compat_r; assumption.
Qed.

Lemma sorted_nth_mono (gs1 gs2 : list Q) :
  length gs1 = 8%nat -> Forall2 Qle gs1 gs2 ->
  forall i, (i < 8)%nat ->
    (nth i (std_sort Qlt_bool gs1) 0 <= nth i (std_sort Qlt_bool gs2) 0)%Q.
Proof.
  intros Hlen H i Hi.
  assert (Hs : Forall2 Qle (std_sort Qlt_bool gs1) (std_sort Qlt_bool gs2)).
  { apply std_sort_mono; [| |exact H].
    - intros a b c. apply Qle_trans.
    - intros a b c. apply Qle_trans. }
  apply Forall2_nth; [exact Hs|].
  rewrite <- (Permutation_length (std_sort_perm Qlt_bool gs1)). lia.
Qed.

Lemma clock_estimate_mono (gs1 gs2 : list Q) :
  length gs1 = 8%nat -> Forall2 Qle gs1 gs2 ->
  (clock_estimate gs1 <= clock_estimate gs2)%Q.
Proof.
  intros Hlen H.
  pose proof (sorted_nth_mono gs1 gs2 Hlen H) as Hn.
  unfold clock_estimate, stable_estimate.
  apply Qmult_le_compat_r; [|discriminate].
  repeat (apply Qplus_le_compat; [|apply Hn; lia]).
  apply Hn; lia.
Qed.

Lemma clock_estimate_float_mono (gs1 gs2 : list Q) :
  length gs1 = 8%nat -> Forall2 Qle gs1 gs2 ->
  (clock_estimate_float gs1 <= clock_estimate_float gs2)%Q.
Proof.
  intros Hlen H.
  pose proof (sorted_nth_mono gs1 gs2 Hlen H) as Hn.
  unfold clock_estimate_float, stable_estimate_float.
  apply float_mul_mono; [vm_compute; discriminate|].
  repeat (apply float_add_mono; [|apply Hn; lia]).
  apply Hn; lia.
Qed.

(** Claim C7, as the code has it.  A clock probe whose eight timers each
    accept an iteration count is eight calls of [benchmark_t::run] on the
    same fixed trial (128 x 128 x 128, default blocking, working-set
    override 1, threshold 0.1 s) and nothing else, and it returns.  Its
    value is, of the eight throughputs in ascending order, the sum of the
    third to the sixth multiplied by 123.456: the two lowest and the two
    highest are dropped.  Of two lists of eight measurements, the pointwise
    higher one gives an estimate that is not lower, in exact arithmetic and
    in the [float] arithmetic of the code alike. *)
Theorem clock_probe_estimate (e : Env) (w : World) (gs : list Q) :
  probe_measurements e (run_count w) 8 = Some gs ->
  measure_clock_speed e w = Ret (clock_estimate gs) (after_probes 8 w) /\
  length gs = 8%nat /\
  events (after_probes 8 w) = repeat (EvRun (probe_benchmark w)) 8 ++ events w /\
  probe_benchmark w
  = set_min_accurate_time
      (set_min_working_set_size
         (benchmark_t3 (g_min_working_set_size w) 128 128 128) 1) (1 # 10) /\
  (exists s0 s1 s2 s3 s4 s5 s6 s7,
     std_sort Qlt_bool gs = [s0; s1; s2; s3; s4; s5; s6; s7] /\
     Permutation gs [s0; s1; s2; s3; s4; s5; s6; s7] /\
     (s0 <= s1 /\ s1 <= s2 /\ s2 <= s3 /\ s3 <= s4 /\
      s4 <= s5 /\ s5 <= s6 /\ s6 <= s7)%Q /\
     clock_estimate gs = ((s2 + s3 + s4 + s5) * (123456 # 1000))%Q /\
     clock_estimate_float gs
     = float_mul (float_add (float_add (float_add s2 s3) s4) s5)
                 (to_float (123456 # 1000))) /\
  (forall gs1 gs2, length gs1 = 8%nat -> Forall2 Qle gs1 gs2 ->
     (clock_estimate gs1 <= clock_estimate gs2)%Q /\
     (clock_estimate_float gs1 <= clock_estimate_float gs2)%Q).
Proof.
  intros Hgs.
  assert (Hlen : length gs = 8%nat)
    by (eapply probe_measurements_length; exact Hgs).
  split; [|split; [exact Hlen|split; [reflexivity|split; [reflexivity|split]]]].
  - rewrite measure_clock_speed_spec. unfold probe_estimate.
    rewrite Hgs. reflexivity.
  - destruct (sorted_eight gs Hlen)
      as [s0 [s1 [s2 [s3 [s4 [s5 [s6 [s7 [E [Hperm Hord]]]]]]]]]].
    exists s0, s1, s2, s3, s4, s5, s6, s7.
    split; [exact E|]. split; [exact Hperm|]. split; [exact Hord|].
    unfold clock_estimate, clock_estimate_float. rewrite E.
    split; reflexivity.
  - intros gs1 gs2 Hlen1 H.
    split; [apply clock_estimate_mono | apply clock_estimate_float_mono];
      assumption.
Qed.

Lemma clock_probe_estimate_witness :
  exists gs,
    probe_measurements (steady_env (1 # 10)) 0 8 = Some gs /\
    measure_clock_speed (steady_env (1 # 10)) initial_world
    = Ret (clock_estimate gs) (after_probes 8 initial_world) /\
    (clock_estimate_float [1; 2; 3; 4; 5; 6; 7; 8]
     <= clock_estimate_float [2; 3; 4; 5; 6; 7; 8; 9])%Q.
Proof.
  assert (H : exists gs,
             probe_measurements (steady_env (1 # 10))
                                (run_count initial_world) 8 = Some gs)
    by (eexists; vm_compute; reflexivity).
  destruct H as [gs Hgs]. exists gs.
  destruct (clock_probe_estimate (steady_env (1 # 10)) initial_world gs Hgs)
    as [Hret [_ [_ [_ [_ Hmono]]]]].
  split; [exact Hgs|]. split; [exact Hret|].
  apply Hmono; [reflexivity | repeat constructor; discriminate].
Defined.

(** Claim C7 as stated fails at the rounding of the estimate.  Eight
    measurements of 100 and eight measurements one unit in the last place
    higher, [100 + 2^-17], are [float] values, the second list is pointwise
    strictly higher, and both give the estimate 49382.40234375. *)
Lemma estimate_not_strictly_higher :
  let gs1 := repeat 100%Q 8 in
  let gs2 := repeat (13107201 # 131072)%Q 8 in
  Forall2 Qlt gs1 gs2 /\
  (to_float 100 == 100)%Q /\
  (to_float (13107201 # 131072) == 13107201 # 131072)%Q /\
  (clock_estimate_float gs1 == 12641895 # 256)%Q /\
  (clock_estimate_float gs2 == 12641895 # 256)%Q /\
  ~ (clock_estimate_float gs1 < clock_estimate_float gs2)%Q.
Proof.
  intros gs1 gs2.
  split; [repeat constructor|].
  split; [vm_compute; reflexivity|].
  split; [vm_compute; reflexivity|].
  assert (H1 : (clock_estimate_float gs1 == 12641895 # 256)%Q)
    by (vm_compute; reflexivity).
  assert (H2 : (clock_estimate_float gs2 == 12641895 # 256)%Q)
    by (vm_compute; reflexivity).
  split; [exact H1|]. split; [exact H2|].
  rewrite H1, H2. apply Qlt_irrefl.
Qed.

(** Of two steady kernels, the one whose call costs no more gets a
    clock-probe estimate that is not lower; so it is for the estimates that
    the [float] arithmetic of the code makes of the same measurements, which
    can be equal where the exact ones differ. *)
Theorem faster_kernel_higher_estimate (e1 e2 : Env) (C1 C2 : Q)
    (start1 start2 : nat) :
  (forall i, batch_cpu_time e1 i = (fun iters => inject_Z iters * C1)%Q) ->
  (forall i, batch_cpu_time e2 i = (fun iters => inject_Z iters * C2)%Q) ->
  (0 < C1)%Q -> (C1 <= C2)%Q ->
  ((1 # 10) <= inject_Z (2 ^ 30) * C1)%Q ->
  exists gs1 gs2,
    probe_measurements e1 start1 8 = Some gs1 /\
    probe_measurements e2 start2 8 = Some gs2 /\
    probe_estimate e1 start1 = Some (clock_estimate gs1) /\
    probe_estimate e2 start2 = Some (clock_estimate gs2) /\
    (clock_estimate gs2 <= clock_estimate gs1)%Q /\
    (clock_estimate_float gs2 <= clock_estimate_float gs1)%Q.
Proof.
  intros Hk1 Hk2 HC1 Hle Hreach1.
  assert (HC2 : (0 < C2)%Q) by lra.
  assert (Hreach2 : ((1 # 10) <= inject_Z (2 ^ 30) * C2)%Q).
  { eapply Qle_trans; [exact Hreach1|].
    rewrite !(Qmult_comm (inject_Z (2 ^ 30))).
    apply Qmult_le_compat_r; [exact Hle | discriminate]. }
  destruct (steady_probe_measurement e1 C1 Hk1 HC1 Hreach1) as [g1 [Hm1 Hg1]].
  destruct (steady_probe_measurement e2 C2 Hk2 HC2 Hreach2) as [g2 [Hm2 Hg2]].
  assert (Hg : (g2 <= g1)%Q).
  { rewrite Hg1, Hg2. unfold gflops_of, Qdiv.
    rewrite !(Qmult_comm _ (/ _)).
    apply Qmult_le_compat_r; [|discriminate].
    destruct (Qle_lt_or_eq _ _ Hle) as [Hlt|Heq].
    - apply Qlt_le_weak. apply -> Qinv_lt_contravar; assumption.
    - rewrite Heq. apply Qle_refl. }
  assert (Hall : Forall2 Qle (repeat g2 8) (repeat g1 8))
    by (repeat constructor; exact Hg).
  exists (repeat g1 8), (repeat g2 8).
  assert (E1 : probe_measurements e1 start1 8 = Some (repeat g1 8))
    by (cbn [probe_measurements]; rewrite !Hm1; reflexivity).
  assert (E2 : probe_measurements e2 start2 8 = Some (repeat g2 8))
    by (cbn [probe_measurements]; rewrite !Hm2; reflexivity).
  split; [exact E1|]. split; [exact E2|].
  split; [unfold probe_estimate; rewrite E1; reflexivity|].
  split; [unfold probe_estimate; rewrite E2; reflexivity|].
  split; [apply clock_estimate_mono | apply clock_estimate_float_mono];
    first [reflexivity | exact Hall].
Qed.

Lemma faster_kernel_higher_estimate_witness :
  exists gs1 gs2,
    probe_measurements (steady_env (1 # 20)) 0 8 = Some gs1 /\
    probe_measurements (steady_env (1 # 10)) 0 8 = Some gs2 /\
    (clock_estimate gs2 <= clock_estimate gs1)%Q /\
    (clock_estimate_float gs2 <= clock_estimate_float gs1)%Q.
Proof.
  destruct (faster_kernel_higher_estimate
              (steady_env (1 # 20)) (steady_env (1 # 10)) (1 # 20) (1 # 10) 0 0)
    as [gs1 [gs2 [E1 [E2 [_ [_ [Hexact Hfloat]]]]]]].
  - intros i. reflexivity.
  - intros i. reflexivity.
  - reflexivity.
  - discriminate.
  - vm_compute. discriminate.
  - exists gs1, gs2. repeat (split; [assumption|]). exact Hfloat.
Defined.
